(** * HEFT scheduler: a shallow embedding of heft-workflows/heft_scheduler.py

    The Python module keeps three module-level tables ([NODES],
    [COMM_COSTS], [DEFAULT_EXEC_COSTS]), a [Task] dataclass and the class
    [HEFTScheduler].  The embedding follows the module top to bottom.

    Conventions.
    - Python dicts iterate in insertion order, and that order is observable
      here (rank computation order, stable sort input, node tie-breaking),
      so a dict is an association list whose update keeps the position of
      an existing key and appends a new one ([Dict.set]).
    - Python floats are idealised as exact rationals [Q]; [float('inf')] is
      the missing value of an [option].  NaN and rounding are outside the
      model, and so is a cost that is infinite or overflows: with such a
      cost the comparison [end < best_end] of [schedule_task] is false for
      every node and the source stores [(None, inf, inf)].  A statement
      that would fail there carries the hypothesis [costs_finite] (or
      [feed_finite]), which keeps every cost within 1e300 of zero.  Values that the code copies are compared with [=], values
      that it recomputes with [==].
    - A raised exception is [inl e]; the recursion of [compute_upward_rank]
      is bounded by a depth limit, as the interpreter's call stack is.
    - [self.nodes] is bound to the module constant [NODES] in [__init__] and
      never rebound, so the model reads [NODES] directly.
    - What [print_schedule] and [main] print is modelled by the values the
      printed lines format, in the order of the lines; the rendering of
      numbers as text is outside the model. *)

From Stdlib Require Import List String Ascii Bool Arith Lia.
From Stdlib Require Import QArith Qminmax Lqa.
From Stdlib Require Import Relations Wellfounded.
From Stdlib Require Import Permutation Sorted.
Import ListNotations.
Local Open Scope string_scope.
Local Open Scope Q_scope.

(** ** Exceptions and the error monad *)

Inductive exn : Type :=
| KeyError (key : string)
| ZeroDivisionError
| RecursionError
| EmptyFleet.
(* [EmptyFleet] is not a Python exception: it marks the one place where the
   source would store [(None, inf, inf)], which needs an empty [NODES] or
   finish times that are all infinite or NaN; with the finite numbers of
   the model it is never reached, see [schedule_task_not_EmptyFleet]. *)

Definition result (A : Type) : Type := (exn + A)%type.

Definition ret {A} (a : A) : result A := inr a.
Definition raise {A} (e : exn) : result A := inl e.

Definition bind {A B} (c : result A) (k : A -> result B) : result B :=
  match c with
  | inl e => inl e
  | inr a => k a
  end.

Notation "x <- c ;; k" := (bind c (fun x => k))
  (at level 61, c at next level, right associativity).
Notation "' pat <- c ;; k" := (bind c (fun x => match x with pat => k end))
  (at level 61, pat pattern, c at next level, right associativity).

(** A [for] loop whose body may raise. *)
Fixpoint for_each {A S} (body : S -> A -> result S) (xs : list A) (s : S)
  : result S :=
  match xs with
  | [] => ret s
  | x :: xs' => s' <- body s x ;; for_each body xs' s'
  end.

(** ** Insertion-ordered dictionaries *)

Class EqKey (K : Type) : Type := { keqb : K -> K -> bool }.

#[global] Instance EqKey_string : EqKey string := {| keqb := String.eqb |}.

Definition pair_eqb (a b : string * string) : bool :=
  String.eqb (fst a) (fst b) && String.eqb (snd a) (snd b).

#[global] Instance EqKey_pair : EqKey (string * string) :=
  {| keqb := pair_eqb |}.

Module Dict.
Section Ops.
Context {K V : Type} `{EqKey K}.

Definition t : Type := list (K * V).

(** [d.get(k)] *)
Fixpoint get (d : t) (k : K) : option V :=
  match d with
  | [] => None
  | (k', v) :: d' => if keqb k k' then Some v else get d' k
  end.

(** [d[k] = v] *)
Fixpoint set (d : t) (k : K) (v : V) : t :=
  match d with
  | [] => [(k, v)]
  | (k', v') :: d' =>
      if keqb k k' then (k', v) :: d' else (k', v') :: set d' k v
  end.

(** [k in d] *)
Definition mem (d : t) (k : K) : bool :=
  match get d k with Some _ => true | None => false end.

(** [d.get(k, dflt)] *)
Definition get_default (d : t) (k : K) (dflt : V) : V :=
  match get d k with Some v => v | None => dflt end.

Definition keys (d : t) : list K := map fst d.
Definition values (d : t) : list V := map snd d.
End Ops.
End Dict.

(** [d[k]] on a string-keyed dict: a missing key raises [KeyError]. *)
Definition getitem {V} (d : list (string * V)) (k : string) : result V :=
  match Dict.get d k with
  | Some v => ret v
  | None => raise (KeyError k)
  end.

(** ** Float helpers *)

(** [max(a, b)]: the first of the two unless the second is larger. *)
Definition py_max (a b : Q) : Q := if Qle_bool b a then a else b.

(** [a < b] *)
Definition Qlt_bool (a b : Q) : bool := negb (Qle_bool b a).

(** [a / b] *)
Definition py_div (a b : Q) : result Q :=
  if Qeq_bool b 0 then raise ZeroDivisionError else ret (a / b).

(** ** Module-level configuration *)

Record Node : Type := {
  zone : string;
  node_type : string;
  capacity : Q
}.

Definition NODES : list (string * Node) := [
  ("master-m001", {| zone := "R1"; node_type := "master"; capacity := 8 # 10 |});
  ("master-m002", {| zone := "R2"; node_type := "master"; capacity := 8 # 10 |});
  ("master-m003", {| zone := "R3"; node_type := "master"; capacity := 8 # 10 |});
  ("worker-w001", {| zone := "R1"; node_type := "worker"; capacity := 1 |});
  ("worker-w002", {| zone := "R1"; node_type := "worker"; capacity := 1 |});
  ("worker-w003", {| zone := "R2"; node_type := "worker"; capacity := 1 |});
  ("worker-w004", {| zone := "R2"; node_type := "worker"; capacity := 1 |});
  ("worker-w005", {| zone := "R3"; node_type := "worker"; capacity := 1 |});
  ("worker-w006", {| zone := "R3"; node_type := "worker"; capacity := 1 |})
].

Definition COMM_COSTS : list ((string * string) * Q) := [
  (("R1", "R1"), 1 # 10);
  (("R2", "R2"), 1 # 10);
  (("R3", "R3"), 1 # 10);
  (("R1", "R2"), 15 # 10);
  (("R2", "R1"), 15 # 10);
  (("R1", "R3"), 2);
  (("R3", "R1"), 2);
  (("R2", "R3"), 15 # 10);
  (("R3", "R2"), 15 # 10)
].

Definition DEFAULT_EXEC_COSTS : list (string * list (string * Q)) := [
  ("HEALTH_CHECK", [("master", 35); ("worker", 25)]);
  ("NODE_SIMULATION", [("master", 180); ("worker", 150)]);
  ("RACK_SIMULATION", [("master", 380); ("worker", 350)]);
  ("INTERIM_HEALTH_CHECK", [("master", 30); ("worker", 20)]);
  ("FINAL_HEALTH_CHECK", [("master", 30); ("worker", 20)]);
  ("INITIALIZE", [("master", 15); ("worker", 12)])
].

(** ** [Task] and [HEFTScheduler] *)

Record Task : Type := {
  id : string;
  task_type : string;
  predecessors : list string;
  successors : list string;
  upward_rank : Q;
  scheduled_node : option string;
  start_time : Q;
  end_time : Q
}.

Record HEFTScheduler : Type := {
  exec_costs : list (string * list (string * Q));
  comm_costs : list ((string * string) * Q);
  tasks : list (string * Task);
  schedule : list (string * (string * Q * Q));
  node_availability : list (string * Q)
}.

(** [x or dflt] on an optional dict: [None] and the empty dict are falsy. *)
Definition or_default {A} (x : option (list A)) (dflt : list A) : list A :=
  match x with
  | None | Some [] => dflt
  | Some d => d
  end.

(** [HEFTScheduler.__init__] *)
Definition HEFTScheduler_init
  (exec_costs0 : option (list (string * list (string * Q))))
  (comm_costs0 : option (list ((string * string) * Q))) : HEFTScheduler :=
  {| exec_costs := or_default exec_costs0 DEFAULT_EXEC_COSTS;
     comm_costs := or_default comm_costs0 COMM_COSTS;
     tasks := [];
     schedule := [];
     node_availability := map (fun n => (fst n, 0)) NODES |}.

Definition set_exec_costs (self : HEFTScheduler) v : HEFTScheduler :=
  {| exec_costs := v; comm_costs := comm_costs self; tasks := tasks self;
     schedule := schedule self; node_availability := node_availability self |}.

Definition set_tasks (self : HEFTScheduler) v : HEFTScheduler :=
  {| exec_costs := exec_costs self; comm_costs := comm_costs self; tasks := v;
     schedule := schedule self; node_availability := node_availability self |}.

Definition set_schedule (self : HEFTScheduler) v : HEFTScheduler :=
  {| exec_costs := exec_costs self; comm_costs := comm_costs self;
     tasks := tasks self; schedule := v;
     node_availability := node_availability self |}.

Definition set_node_availability (self : HEFTScheduler) v : HEFTScheduler :=
  {| exec_costs := exec_costs self; comm_costs := comm_costs self;
     tasks := tasks self; schedule := schedule self; node_availability := v |}.

(** ** Cost model *)

(** [get_exec_cost] *)
Definition get_exec_cost (self : HEFTScheduler) (task_type : string)
  (node : string) : result Q :=
  n <- getitem NODES node ;;
  let base_cost :=
    Dict.get_default (exec_costs self) task_type
      [("master", 100); ("worker", 80)] in
  c <- getitem base_cost (node_type n) ;;
  py_div c (capacity n).

(** [get_comm_cost] with [data_size] at its default [1.0] *)
Definition get_comm_cost (self : HEFTScheduler) (src_node dst_node : string)
  : result Q :=
  s <- getitem NODES src_node ;;
  d <- getitem NODES dst_node ;;
  ret (Dict.get_default (comm_costs self) (zone s, zone d) 1 * 1).

(** [sum(f(n) for n in self.nodes)] *)
Definition sum_over_nodes (f : string -> result Q) : result Q :=
  for_each (fun acc n => c <- f n ;; ret (acc + c)) (Dict.keys NODES) 0.

(** [len(self.nodes)] *)
Definition len_nodes : Q := inject_Z (Z.of_nat (List.length NODES)).

(** ** Cost-override feed *)

(** [c.upper()] on an ASCII character *)
Definition upper_ascii (c : ascii) : ascii :=
  let n := nat_of_ascii c in
  if ((97 <=? n) && (n <=? 122))%nat then ascii_of_nat (n - 32) else c.

(** [s.upper()] on an ASCII string *)
Fixpoint upper (s : string) : string :=
  match s with
  | EmptyString => EmptyString
  | String c s' => String (upper_ascii c) (upper s')
  end.

(** [needle in hay] *)
Fixpoint contains (needle hay : string) : bool :=
  String.prefix needle hay ||
  match hay with
  | EmptyString => false
  | String _ hay' => contains needle hay'
  end.

(** [_normalize_task_type] *)
Definition _normalize_task_type (step_name : string) : string :=
  let step_upper := upper step_name in
  if contains "HEALTH_CHECK_1" step_upper || contains "HEALTH_CHECK_2" step_upper
     || contains "HEALTH_CHECK_3" step_upper then "HEALTH_CHECK"
  else if contains "NODE" step_upper && contains "SIM" step_upper
  then "NODE_SIMULATION"
  else if contains "RACK" step_upper && contains "SIM" step_upper
  then "RACK_SIMULATION"
  else if contains "INTERIM" step_upper then "INTERIM_HEALTH_CHECK"
  else if contains "FINAL" step_upper then "FINAL_HEALTH_CHECK"
  else if contains "INIT" step_upper then "INITIALIZE"
  else upper step_name.

(** The parsed feed: [{"platforms": {name: {"step_statistics":
    {step: {"mean": m, ...}}}}}]; every level may be absent.  The feed is
    taken well-typed (objects where objects are expected, a number or
    nothing for the mean); the exceptions Python raises on other shapes
    are outside the model. *)
Record StepStats : Type := { mean : option Q }.
Record PlatformData : Type := {
  step_statistics : option (list (string * StepStats))
}.
Record BenchmarkData : Type := {
  platforms : option (list (string * PlatformData))
}.

(** [if stats.get('mean')]: an absent mean and a zero mean are falsy. *)
Definition truthy_mean (stats : StepStats) : option Q :=
  match mean stats with
  | Some m => if Qeq_bool m 0 then None else Some m
  | None => None
  end.

(** The body of the inner loop of [load_benchmark_data], for one
    [(step, stats)] item. *)
Definition load_step (self : HEFTScheduler) (step : string)
  (stats : StepStats) : HEFTScheduler :=
  match truthy_mean stats with
  | Some m =>
      let task_type := _normalize_task_type step in
      match Dict.get (exec_costs self) task_type with
      | Some row =>
          let row1 := Dict.set row "worker" m in
          let row2 := Dict.set row1 "master" (m * (12 # 10)) in
          set_exec_costs self (Dict.set (exec_costs self) task_type row2)
      | None => self
      end
  | None => self
  end.

Definition load_platform (self : HEFTScheduler) (pd : PlatformData)
  : HEFTScheduler :=
  fold_left (fun s item => load_step s (fst item) (snd item))
    (match step_statistics pd with Some st => st | None => [] end) self.

(** [load_benchmark_data]; [None] stands for a file that cannot be opened
    or parsed, which the [except] clause turns into a warning.  A scheduler
    constructed without a table holds the module-level
    [DEFAULT_EXEC_COSTS] object itself, so in Python the update is also
    seen by schedulers constructed later in the same process; the model
    follows one scheduler. *)
Definition load_benchmark_data (self : HEFTScheduler)
  (data : option BenchmarkData) : HEFTScheduler :=
  match data with
  | Some d =>
      fold_left (fun s item => load_platform s (snd item))
        (match platforms d with Some ps => ps | None => [] end) self
  | None => self
  end.

(** ** The workflow DAG *)

Definition mk_task (task_id ty : string) (pred succ : list string) : Task :=
  {| id := task_id; task_type := ty; predecessors := pred; successors := succ;
     upward_rank := 0; scheduled_node := None; start_time := 0; end_time := 0 |}.

(** [dag_def]: id, type, pred, succ *)
Definition dag_def : list (string * (string * list string * list string)) := [
  ("initialize", ("INITIALIZE", [],
     ["health-check-1"; "health-check-2"; "health-check-3"]));
  ("health-check-1", ("HEALTH_CHECK", ["initialize"], ["node-simulation"]));
  ("health-check-2", ("HEALTH_CHECK", ["initialize"], ["node-simulation"]));
  ("health-check-3", ("HEALTH_CHECK", ["initialize"], ["node-simulation"]));
  ("node-simulation", ("NODE_SIMULATION",
     ["health-check-1"; "health-check-2"; "health-check-3"],
     ["interim-health-check"]));
  ("interim-health-check", ("INTERIM_HEALTH_CHECK", ["node-simulation"],
     ["rack-simulation"]));
  ("rack-simulation", ("RACK_SIMULATION", ["interim-health-check"],
     ["final-health-check"]));
  ("final-health-check", ("FINAL_HEALTH_CHECK", ["rack-simulation"], []))
].

(** [define_dag] *)
Definition define_dag (self : HEFTScheduler) : HEFTScheduler :=
  fold_left
    (fun s item =>
       let '(task_id, (ty, pred, succ)) := item in
       set_tasks s (Dict.set (tasks s) task_id (mk_task task_id ty pred succ)))
    dag_def self.

(** ** Rank calculator *)

Definition with_upward_rank (t : Task) (rank : Q) : Task :=
  {| id := id t; task_type := task_type t; predecessors := predecessors t;
     successors := successors t; upward_rank := rank;
     scheduled_node := scheduled_node t; start_time := start_time t;
     end_time := end_time t |}.

(** [sum(self.get_exec_cost(task.task_type, n) for n in self.nodes)
     / len(self.nodes)] *)
Definition avg_exec_cost (self : HEFTScheduler) (ty : string) : result Q :=
  s <- sum_over_nodes (get_exec_cost self ty) ;;
  py_div s len_nodes.

(** [sum(self.get_comm_cost(n, n) for n in self.nodes) / len(self.nodes)] *)
Definition avg_comm_cost (self : HEFTScheduler) : result Q :=
  s <- sum_over_nodes (fun n => get_comm_cost self n n) ;;
  py_div s len_nodes.

Definition memo_t : Type := list (string * Q).

(** [compute_upward_rank]; [depth] is the number of nested calls the stack
    still allows.  The [Task] object bound to [task] before the recursion
    is the one stored under [task_id] afterwards (ranking only ever writes
    [upward_rank]), so the final field update is an update of that entry. *)
Fixpoint compute_upward_rank (depth : nat) (self : HEFTScheduler)
  (task_id : string) (memo : memo_t) {struct depth}
  : result (Q * memo_t * HEFTScheduler) :=
  match depth with
  | O => raise RecursionError
  | S depth' =>
      match Dict.get memo task_id with
      | Some r => ret (r, memo, self)
      | None =>
          task <- getitem (tasks self) task_id ;;
          avg_exec <- avg_exec_cost self (task_type task) ;;
          ' (rank, memo1, self1) <-
            match successors task with
            | [] => ret (avg_exec, memo, self)
            | _ =>
                ' (max_successor_rank, memo1, self1) <-
                  for_each
                    (fun st succ_id =>
                       let '(m, memo0, self0) := st in
                       ' (succ_rank, memo', self') <-
                         compute_upward_rank depth' self0 succ_id memo0 ;;
                       avg_comm <- avg_comm_cost self' ;;
                       ret (py_max m (avg_comm + succ_rank), memo', self'))
                    (successors task) (0, memo, self) ;;
                ret (avg_exec + max_successor_rank, memo1, self1)
            end ;;
          ret (rank, Dict.set memo1 task_id rank,
               set_tasks self1
                 (Dict.set (tasks self1) task_id (with_upward_rank task rank)))
      end
  end.

(** [compute_all_ranks] *)
Definition compute_all_ranks (depth : nat) (self : HEFTScheduler)
  : result HEFTScheduler :=
  ' (_, self') <-
    for_each
      (fun st task_id =>
         let '(memo, self0) := st in
         ' (_, memo', self') <- compute_upward_rank depth self0 task_id memo ;;
         ret (memo', self'))
      (Dict.keys (tasks self)) ([], self) ;;
  ret self'.

(** ** Scheduler core *)

(** [if pred_task.scheduled_node]: [None] and the empty string are falsy. *)
Definition truthy_node (n : option string) : option string :=
  match n with
  | Some s => if String.eqb s "" then None else Some s
  | None => None
  end.

(** [get_earliest_finish_time] *)
Definition get_earliest_finish_time (self : HEFTScheduler) (task : Task)
  (node : string) : result (Q * Q) :=
  node_ready <- getitem (node_availability self) node ;;
  pred_ready <-
    for_each
      (fun pred_ready pred_id =>
         pred_task <- getitem (tasks self) pred_id ;;
         match truthy_node (scheduled_node pred_task) with
         | Some pn =>
             let pred_end := end_time pred_task in
             comm <- get_comm_cost self pn node ;;
             ret (py_max pred_ready (pred_end + comm))
         | None => ret pred_ready
         end)
      (predecessors task) 0 ;;
  let start_time := py_max node_ready pred_ready in
  exec_time <- get_exec_cost self (task_type task) node ;;
  let end_time := start_time + exec_time in
  ret (start_time, end_time).

Definition with_assignment (t : Task) (node : string) (s e : Q) : Task :=
  {| id := id t; task_type := task_type t; predecessors := predecessors t;
     successors := successors t; upward_rank := upward_rank t;
     scheduled_node := Some node; start_time := s; end_time := e |}.

(** The node loop of [schedule_task]; [None] is the initial
    [(None, inf, inf)], below which every finite [end] lies.  (An [end]
    that is infinite or NaN is not below it and would leave the initial
    triple in place; the numbers of the model are finite, see
    [costs_finite].) *)
Definition best_node_step (self : HEFTScheduler) (task : Task)
  (best : option (string * Q * Q)) (node : string)
  : result (option (string * Q * Q)) :=
  ' (s, e) <- get_earliest_finish_time self task node ;;
  match best with
  | None => ret (Some (node, s, e))
  | Some (_, _, best_end) =>
      if Qlt_bool e best_end then ret (Some (node, s, e)) else ret best
  end.

(** [schedule_task] *)
Definition schedule_task (self : HEFTScheduler) (task_id : string)
  : result ((string * Q * Q) * HEFTScheduler) :=
  task <- getitem (tasks self) task_id ;;
  best <- for_each (best_node_step self task) (Dict.keys NODES) None ;;
  match best with
  | None => raise EmptyFleet
  | Some (best_node, best_start, best_end) =>
      let self1 :=
        set_tasks self
          (Dict.set (tasks self) task_id
             (with_assignment task best_node best_start best_end)) in
      let self2 :=
        set_node_availability self1
          (Dict.set (node_availability self1) best_node best_end) in
      let self3 :=
        set_schedule self2
          (Dict.set (schedule self2) task_id
             (best_node, best_start, best_end)) in
      ret ((best_node, best_start, best_end), self3)
  end.

(** [sorted(ts, key=lambda t: t.upward_rank, reverse=True)]: the stable
    sort by decreasing key, which is unique.  Insertion from the right puts
    an element in front of the first one whose key is not larger. *)
Fixpoint insert_desc (t : Task) (l : list Task) : list Task :=
  match l with
  | [] => [t]
  | u :: l' =>
      if Qlt_bool (upward_rank t) (upward_rank u) then u :: insert_desc t l'
      else t :: u :: l'
  end.

Definition sorted_desc (ts : list Task) : list Task :=
  fold_right insert_desc [] ts.

(** The loop of step 4 of [run_heft] *)
Definition schedule_tasks (ts : list Task) (self : HEFTScheduler)
  : result HEFTScheduler :=
  for_each (fun s t => ' (_, s') <- schedule_task s (id t) ;; ret s') ts self.

(** [run_heft]: the returned schedule and the final scheduler state *)
Definition run_heft (depth : nat) (self : HEFTScheduler)
  : result (list (string * (string * Q * Q)) * HEFTScheduler) :=
  let self1 := define_dag self in
  self2 <- compute_all_ranks depth self1 ;;
  let sorted_tasks := sorted_desc (Dict.values (tasks self2)) in
  self3 <- schedule_tasks sorted_tasks self2 ;;
  ret (schedule self3, self3).

(** ** Exclusion query *)

Inductive Exclusion : Type :=
| PerTask (exclude_node exclude_zone : string)
| Summary (exclude_nodes exclude_zones : list string).

(** [set(xs)] followed by iteration or [list(...)]: the order is not
    specified by Python; the model keeps one representative per element. *)
Definition py_set (xs : list string) : list string := nodup string_dec xs.

(** [if task_id]: [None] and the empty string are falsy. *)
Definition truthy_id (task_id : option string) : option string :=
  truthy_node task_id.

Definition exclusion_summary (self : HEFTScheduler) : result Exclusion :=
  let scheduled_nodes :=
    py_set (map (fun s => fst (fst s)) (Dict.values (schedule self))) in
  zones <-
    for_each (fun acc n => nd <- getitem NODES n ;; ret (acc ++ [zone nd])%list)
      scheduled_nodes [] ;;
  ret (Summary scheduled_nodes (py_set zones)).

(** [get_exclusion_info] *)
Definition get_exclusion_info (self : HEFTScheduler)
  (task_id : option string) : result Exclusion :=
  match truthy_id task_id with
  | Some tid =>
      match Dict.get (schedule self) tid with
      | Some (node, _, _) =>
          nd <- getitem NODES node ;;
          ret (PerTask node (zone nd))
      | None => exclusion_summary self
      end
  | None => exclusion_summary self
  end.

(** ** Report *)

(** [sorted(xs, key=...)]: the stable sort by increasing key, on a list
    whose keys are already computed; [lt a b] is [key(a) < key(b)].
    Insertion from the right puts an element in front of the first one
    whose key is not smaller. *)
Section SortedAsc.
Context {A : Type} (lt : A -> A -> bool).

Fixpoint insert_asc (x : A) (l : list A) : list A :=
  match l with
  | [] => [x]
  | y :: l' => if lt y x then y :: insert_asc x l' else x :: y :: l'
  end.

Definition sorted_asc (l : list A) : list A := fold_right insert_asc [] l.
End SortedAsc.

(** [key(a) < key(b)] for a numeric key *)
Definition key_lt {A} (key : A -> Q) (a b : A) : bool :=
  Qlt_bool (key a) (key b).

(** The values one line of the table of [print_schedule] formats. *)
Record Row : Type := {
  row_task : string;
  row_node : string;
  row_zone : string;
  row_start : Q;
  row_end : Q;
  row_rank : Q
}.

(** What [print_schedule] and [main] can raise beside the exceptions of
    the scheduler: [max()] of an empty sequence. *)
Inductive report_exn : Type :=
| Raised (e : exn)
| ValueError.

(** The loop of [print_schedule]: the sort keys
    [self.schedule[t][1]] are computed for all task ids first, then one
    line per task id is printed in sorted order. *)
Definition print_rows (self : HEFTScheduler) : result (list Row) :=
  keyed <-
    for_each
      (fun acc t =>
         ' (_, start, _) <- getitem (schedule self) t ;;
         ret (acc ++ [(t, start)])%list)
      (Dict.keys (schedule self)) [] ;;
  for_each
    (fun acc ts =>
       let task_id := fst ts in
       ' (node, start, end_) <- getitem (schedule self) task_id ;;
       task <- getitem (tasks self) task_id ;;
       nd <- getitem NODES node ;;
       ret (acc ++ [{| row_task := task_id; row_node := node;
                       row_zone := zone nd; row_start := start;
                       row_end := end_; row_rank := upward_rank task |}])%list)
    (sorted_asc (key_lt snd) keyed) [].

(** [print_schedule]: the lines of the table, as the values they format,
    and the makespan [max(s[2] for s in self.schedule.values())].  The
    rendering of the numbers as text is outside the model. *)
Definition print_schedule (self : HEFTScheduler)
  : report_exn + (list Row * Q) :=
  match print_rows self with
  | inl e => inl (Raised e)
  | inr rows =>
      match map (fun s : string * Q * Q => snd s) (Dict.values (schedule self)) with
      | [] => inl ValueError
      | e :: es => inr (rows, fold_left py_max es e)
      end
  end.

(** ** Driver *)

(** What [main] prints, as the values it formats. *)
Record MainOutput : Type := {
  out_table : list Row;
  out_makespan : Q;
  out_exclude_nodes : list string;
  out_exclude_zones : list string;
  out_per_task : list (string * string * string)
}.

(** The body of the last loop of [main]:
    [info['exclude_node']] is missing from a summary. *)
Definition per_task_line (scheduler : HEFTScheduler)
  (acc : list (string * string * string)) (task_id : string)
  : result (list (string * string * string)) :=
  info <- get_exclusion_info scheduler (Some task_id) ;;
  match info with
  | PerTask node zone => ret (acc ++ [(task_id, node, zone)])%list
  | Summary _ _ => raise (KeyError "exclude_node")
  end.

(** [main]; [argv1] is [None] when no file is named on the command line,
    and otherwise what reading the named file gives. *)
Definition main (depth : nat) (argv1 : option (option BenchmarkData))
  : report_exn + MainOutput :=
  let scheduler0 := HEFTScheduler_init None None in
  let scheduler1 :=
    match argv1 with
    | Some data => load_benchmark_data scheduler0 data
    | None => scheduler0
    end in
  match run_heft depth scheduler1 with
  | inl e => inl (Raised e)
  | inr (schedule, scheduler) =>
      match print_schedule scheduler with
      | inl e => inl e
      | inr (table, makespan) =>
          match
            (exclusion <- get_exclusion_info scheduler None ;;
             per_task <-
               for_each (per_task_line scheduler)
                 (sorted_asc String.ltb (Dict.keys schedule)) [] ;;
             ret (exclusion, per_task))
          with
          | inl e => inl (Raised e)
          | inr (exclusion, per_task) =>
              inr {| out_table := table;
                     out_makespan := makespan;
                     out_exclude_nodes :=
                       match exclusion with
                       | Summary ns _ => ns
                       | PerTask _ _ => []
                       end;
                     out_exclude_zones :=
                       match exclusion with
                       | Summary _ zs => zs
                       | PerTask _ _ => []
                       end;
                     out_per_task := per_task |}
          end
      end
  end.

(** * Specification vocabulary

    Predicates, auxiliary functions and concrete inputs that the statements
    below are written with.  Nothing here is part of the program, except
    that [succ_loop_body] and [pred_ready_step] name two loop bodies of it
    and [rank_of] is [compute_upward_rank] without its memo table. *)

(** ** Cost tables *)

(** Execution costs are durations: every entry of the table is
    non-negative. *)
Definition exec_costs_nonneg (self : HEFTScheduler) : Prop :=
  forall ty row nt c,
    Dict.get (exec_costs self) ty = Some row ->
    Dict.get row nt = Some c -> 0 <= c.

(** Communication costs are durations as well. *)
Definition comm_costs_nonneg (self : HEFTScheduler) : Prop :=
  forall k c, Dict.get (comm_costs self) k = Some c -> 0 <= c.

(** Every row of the execution-cost table prices both node classes. *)
Definition rows_complete (self : HEFTScheduler) : Prop :=
  forall ty row,
    Dict.get (exec_costs self) ty = Some row ->
    Dict.mem row "master" = true /\ Dict.mem row "worker" = true.

(** Executable forms of the two sign conditions. *)
Definition exec_costs_nonneg_b (table : list (string * list (string * Q)))
  : bool :=
  forallb (fun r => forallb (fun e => Qle_bool 0 (snd e)) (snd r)) table.

Definition comm_costs_nonneg_b (table : list ((string * string) * Q)) : bool :=
  forallb (fun e => Qle_bool 0 (snd e)) table.

(** The zone-pair cost of a pair of nodes, as [get_comm_cost] reads it. *)
Definition pair_cost (cc : list ((string * string) * Q))
  (a b : string * Node) : Q :=
  Dict.get_default cc (zone (snd a), zone (snd b)) 1.

Definition Qsum (xs : list Q) : Q := fold_left Qplus xs 0.

(** The mean communication cost over the pairs [(n, n)], one per node. *)
Definition same_node_mean (cc : list ((string * string) * Q)) : Q :=
  Qsum (map (fun n => pair_cost cc n n) NODES)
  / inject_Z (Z.of_nat (List.length NODES)).

(** The mean communication cost over all ordered pairs of nodes. *)
Definition all_pairs_mean (cc : list ((string * string) * Q)) : Q :=
  Qsum (flat_map (fun a => map (fun b => pair_cost cc a b) NODES) NODES)
  / inject_Z (Z.of_nat (List.length NODES * List.length NODES)).

(** ** Exceptions *)

(** The computation raises Python exceptions only, never the marker
    [EmptyFleet]. *)
Definition python_only {A} (c : result A) : Prop :=
  forall e, c = inl e -> e <> EmptyFleet.

(** ** Ranking *)

(** Ranking writes [upward_rank] fields and nothing else: [self'] differs
    from [self] at most in those. *)
Definition ranking_frame (self self' : HEFTScheduler) : Prop :=
  exec_costs self' = exec_costs self /\
  comm_costs self' = comm_costs self /\
  schedule self' = schedule self /\
  node_availability self' = node_availability self /\
  Dict.keys (tasks self') = Dict.keys (tasks self) /\
  forall k t, Dict.get (tasks self) k = Some t ->
    exists r, Dict.get (tasks self') k = Some (with_upward_rank t r).

(** One round of the successor loop, on the running maximum alone. *)
Definition rank_step (rec : string -> result Q) (self : HEFTScheduler)
  (m : Q) (succ_id : string) : result Q :=
  succ_rank <- rec succ_id ;;
  avg_comm <- avg_comm_cost self ;;
  ret (py_max m (avg_comm + succ_rank)).

(** [compute_upward_rank] with the memo table and the field write erased;
    it says what the memoised function computes. *)
Fixpoint rank_of (depth : nat) (self : HEFTScheduler) (task_id : string)
  {struct depth} : result Q :=
  match depth with
  | O => raise RecursionError
  | S depth' =>
      task <- getitem (tasks self) task_id ;;
      avg_exec <- avg_exec_cost self (task_type task) ;;
      match successors task with
      | [] => ret avg_exec
      | _ =>
          m <- for_each (rank_step (rank_of depth' self) self)
                 (successors task) 0 ;;
          ret (avg_exec + m)
      end
  end.

(** Every memo entry is the value of the plain recursion and is the rank
    stored in its task. *)
Definition memo_ok (self : HEFTScheduler) (memo : memo_t) : Prop :=
  forall k r, Dict.get memo k = Some r ->
    (exists d, rank_of d self k = inr r) /\
    exists t, Dict.get (tasks self) k = Some t /\ upward_rank t = r.

(** The memo table only gains keys. *)
Definition memo_le (memo memo' : memo_t) : Prop :=
  forall k, In k (Dict.keys memo) -> In k (Dict.keys memo').

(** What a returning call of [compute_upward_rank] guarantees. *)
Definition rank_post (self : HEFTScheduler) (task_id : string)
  (memo : memo_t) (out : Q * memo_t * HEFTScheduler) : Prop :=
  let '(r, memo', self') := out in
  (exists d, rank_of d self task_id = inr r) /\
  memo_ok self' memo' /\ ranking_frame self self' /\
  memo_le memo memo' /\ In task_id (Dict.keys memo').

(** The body of the successor loop of [compute_upward_rank], with the
    recursive call abstracted. *)
Definition succ_loop_body
  (rec : HEFTScheduler -> string -> memo_t -> result (Q * memo_t * HEFTScheduler))
  (st : Q * memo_t * HEFTScheduler) (succ_id : string)
  : result (Q * memo_t * HEFTScheduler) :=
  let '(m, memo0, self0) := st in
  ' (succ_rank, memo', self') <- rec self0 succ_id memo0 ;;
  avg_comm <- avg_comm_cost self' ;;
  ret (py_max m (avg_comm + succ_rank), memo', self').

(** The rank stored in the task registered under [s] ([0.0] until ranked). *)
Definition task_rank (self : HEFTScheduler) (s : string) : Q :=
  match Dict.get (tasks self) s with
  | Some t => upward_rank t
  | None => 0
  end.

(** The rank equation with the communication cost averaged over all
    ordered pairs of nodes, for a task with successors. *)
Definition rank_equation_all_pairs (self : HEFTScheduler) (task : Task)
  : Prop :=
  exists avg_exec,
    avg_exec_cost self (task_type task) = inr avg_exec /\
    let avg_comm := all_pairs_mean (comm_costs self) in
    match successors task with
    | [] => True
    | s :: ss =>
        upward_rank task ==
        avg_exec +
        fold_left (fun m s' => Qmax m (avg_comm + task_rank self s')) ss
          (avg_comm + task_rank self s)
    end.

(** ** The task graph *)

(** [succ_edge self u v]: the task registered under [u] lists [v] as a
    successor. *)
Definition succ_edge (self : HEFTScheduler) (u v : string) : Prop :=
  exists task, Dict.get (tasks self) u = Some task /\ In v (successors task).

(** [task_id] lies on a cycle of successor edges. *)
Definition on_cycle (self : HEFTScheduler) (task_id : string) : Prop :=
  clos_trans string (succ_edge self) task_id task_id.

(** The predecessor and successor lists of the task registered under [k]. *)
Definition preds_of (self : HEFTScheduler) (k : string) : list string :=
  match Dict.get (tasks self) k with
  | Some t => predecessors t
  | None => []
  end.

Definition succs_of (self : HEFTScheduler) (k : string) : list string :=
  match Dict.get (tasks self) k with
  | Some t => successors t
  | None => []
  end.

(** The tasks of [s] have the edges [preds] and [succs]. *)
Definition graph_ok (preds succs : string -> list string)
  (s : HEFTScheduler) : Prop :=
  forall k t, Dict.get (tasks s) k = Some t ->
    predecessors t = preds k /\ successors t = succs k.

(** Every successor lists the task as a predecessor. *)
Definition edges_consistent (l : list (string * Task)) : bool :=
  forallb
    (fun kt =>
       forallb
         (fun v =>
            match Dict.get l v with
            | Some tv => existsb (String.eqb (fst kt)) (predecessors tv)
            | None => false
            end)
         (successors (snd kt)))
    l.

(** The task table [define_dag] builds. *)
Definition dag_tasks : list (string * Task) :=
  map (fun item =>
         let '(task_id, (ty, pred, succ)) := item in
         (task_id, mk_task task_id ty pred succ))
    dag_def.

(** The tasks of [l] with their ranks replaced by [rs]. *)
Definition with_ranks (l : list (string * Task)) (rs : list Q)
  : list (string * Task) :=
  map (fun p => (fst (fst p), with_upward_rank (snd (fst p)) (snd p)))
    (combine l rs).

(** ** Scheduling *)

(** Each schedule entry agrees with the task it is stored for, names a
    node of the fleet and does not end before it starts. *)
Definition consistent (self : HEFTScheduler) : Prop :=
  forall tid n s e,
    Dict.get (schedule self) tid = Some (n, s, e) ->
    In n (Dict.keys NODES) /\ s <= e /\
    exists task,
      Dict.get (tasks self) tid = Some task /\
      scheduled_node task = Some n /\
      start_time task = s /\ end_time task = e.

(** Ranks do not increase along the list. *)
Fixpoint non_increasing (ts : list Task) : Prop :=
  match ts with
  | t :: ((u :: _) as ts') => upward_rank u <= upward_rank t /\ non_increasing ts'
  | _ => True
  end.

(** [v] has been scheduled on a node of the fleet. *)
Definition scheduled_ok (s : HEFTScheduler) (v : string) : Prop :=
  exists n st e t,
    Dict.get (schedule s) v = Some (n, st, e) /\
    In n (Dict.keys NODES) /\
    Dict.get (tasks s) v = Some t /\
    scheduled_node t = Some n /\ start_time t = st /\ end_time t = e.

(** [p] finishes, and its data arrives, before [v] starts. *)
Definition precedes (s : HEFTScheduler) (p v : string) : Prop :=
  exists np sp ep nv sv ev comm,
    Dict.get (schedule s) p = Some (np, sp, ep) /\
    Dict.get (schedule s) v = Some (nv, sv, ev) /\
    get_comm_cost s np nv = inr comm /\
    ep + comm <= sv.

(** The state after the tasks [done] have been scheduled. *)
Definition sched_inv (preds succs : string -> list string)
  (done : list string) (s : HEFTScheduler) : Prop :=
  graph_ok preds succs s /\
  (forall v, In v done -> scheduled_ok s v) /\
  (forall v p, In v done -> In p (preds v) -> In p done /\ precedes s p v).

(** Every task comes after its predecessors and is listed once. *)
Fixpoint topological (preds : string -> list string)
  (done ids : list string) : Prop :=
  match ids with
  | [] => True
  | v :: ids' =>
      ~ In v done /\ (forall p, In p (preds v) -> In p done) /\
      topological preds (v :: done) ids'
  end.

Fixpoint topological_b (preds : string -> list string)
  (done ids : list string) : bool :=
  match ids with
  | [] => true
  | v :: ids' =>
      negb (existsb (String.eqb v) done)
      && forallb (fun p => existsb (String.eqb p) done) (preds v)
      && topological_b preds (v :: done) ids'
  end.

(** What scheduling needs of a state in order to return. *)
Definition sched_ready (s : HEFTScheduler) : Prop :=
  rows_complete s /\
  (forall n, In n (Dict.keys NODES) ->
     exists a, Dict.get (node_availability s) n = Some a) /\
  (forall k t p, Dict.get (tasks s) k = Some t -> In p (predecessors t) ->
     exists pt, Dict.get (tasks s) p = Some pt) /\
  (forall k t n, Dict.get (tasks s) k = Some t ->
     truthy_node (scheduled_node t) = Some n -> In n (Dict.keys NODES)).

Definition with_predecessors (t : Task) (ps : list string) : Task :=
  {| id := id t; task_type := task_type t; predecessors := ps;
     successors := successors t; upward_rank := upward_rank t;
     scheduled_node := scheduled_node t; start_time := start_time t;
     end_time := end_time t |}.

(** A registered predecessor without an assigned node. *)
Definition unscheduled (self : HEFTScheduler) (p : string) : bool :=
  match Dict.get (tasks self) p with
  | Some pt =>
      match truthy_node (scheduled_node pt) with
      | Some _ => false
      | None => true
      end
  | None => false
  end.

(** The body of the predecessor loop of [get_earliest_finish_time]. *)
Definition pred_ready_step (self : HEFTScheduler) (node : string)
  (pred_ready : Q) (pred_id : string) : result Q :=
  pred_task <- getitem (tasks self) pred_id ;;
  match truthy_node (scheduled_node pred_task) with
  | Some pn =>
      let pred_end := end_time pred_task in
      comm <- get_comm_cost self pn node ;;
      ret (py_max pred_ready (pred_end + comm))
  | None => ret pred_ready
  end.

(** ** The exclusion query *)

(** [z] is the zone of the fleet node [n]. *)
Definition zone_of (n z : string) : Prop :=
  exists nd, Dict.get NODES n = Some nd /\ zone nd = z.


(** ** The cost-override feed *)

Definition step_items (pd : PlatformData) : list (string * StepStats) :=
  match step_statistics pd with Some st => st | None => [] end.

(** The [(step, stats)] items of a feed in the order the loops visit them. *)
Definition feed_items (d : BenchmarkData) : list (string * StepStats) :=
  flat_map (fun p => step_items (snd p))
    (match platforms d with Some ps => ps | None => [] end).

Definition load_items (items : list (string * StepStats))
  (self : HEFTScheduler) : HEFTScheduler :=
  fold_left (fun s item => load_step s (fst item) (snd item)) items self.

(** The item carries a usable mean for task type [ty]. *)
Definition overrides (ty : string) (item : string * StepStats) : bool :=
  match truthy_mean (snd item) with
  | Some _ => String.eqb (_normalize_task_type (fst item)) ty
  | None => false
  end.

(** ** Further invariants *)

(** Two tasks assigned to one node never run at the same time. *)
Definition no_overlap (s : HEFTScheduler) : Prop :=
  forall t1 t2 n s1 e1 s2 e2,
    t1 <> t2 ->
    Dict.get (schedule s) t1 = Some (n, s1, e1) ->
    Dict.get (schedule s) t2 = Some (n, s2, e2) ->
    e1 <= s2 \/ e2 <= s1.

(** No scheduled task ends after its node's availability. *)
Definition busy_until (s : HEFTScheduler) : Prop :=
  forall t n st e,
    Dict.get (schedule s) t = Some (n, st, e) ->
    exists a, Dict.get (node_availability s) n = Some a /\ e <= a.


(** Every schedule entry names a node of the fleet. *)
Definition schedule_in_fleet (s : HEFTScheduler) : Prop :=
  forall t n st e,
    Dict.get (schedule s) t = Some (n, st, e) -> In n (Dict.keys NODES).

(** A node's availability is the finish time of a task assigned to it,
    or the initial 0 when no task is. *)
Definition last_finish (s : HEFTScheduler) : Prop :=
  forall n a,
    Dict.get (node_availability s) n = Some a ->
    (exists t st, Dict.get (schedule s) t = Some (n, st, a)) \/
    (a = 0 /\ forall t st e, Dict.get (schedule s) t <> Some (n, st, e)).

(** The task types [_normalize_task_type] knows by name. *)
Definition known_task_types : list string :=
  ["HEALTH_CHECK"; "NODE_SIMULATION"; "RACK_SIMULATION";
   "INTERIM_HEALTH_CHECK"; "FINAL_HEALTH_CHECK"; "INITIALIZE"].

(** No task of the schedule starts before time 0. *)
Definition starts_nonneg (s : HEFTScheduler) : Prop :=
  forall t n st e, Dict.get (schedule s) t = Some (n, st, e) -> 0 <= st.

(** Every scheduled task is registered and placed on a fleet node. *)
Definition reportable (self : HEFTScheduler) : Prop :=
  forall t n s e,
    Dict.get (schedule self) t = Some (n, s, e) ->
    In n (Dict.keys NODES) /\ exists task, Dict.get (tasks self) t = Some task.

(** A line of the table shows the schedule entry of its task, the zone of
    the entry's node and the task's rank. *)
Definition row_ok (self : HEFTScheduler) (r : Row) : Prop :=
  Dict.get (schedule self) (row_task r)
  = Some (row_node r, row_start r, row_end r) /\
  zone_of (row_node r) (row_zone r) /\
  exists task,
    Dict.get (tasks self) (row_task r) = Some task /\
    row_rank r = upward_rank task.

(** Every scheduled task is registered. *)
Definition scheduled_registered (s : HEFTScheduler) : Prop :=
  forall t v, Dict.get (schedule s) t = Some v ->
    exists task, Dict.get (tasks s) t = Some task.

(** ** The range of the numbers

    A cost within [cost_limit] of zero is far from the largest float, and
    so is every time and rank computed from such costs (at most a few dozen
    sums of costs divided by a capacity of 0.8 or 1): none of them is
    infinite or NaN in the source. *)

Definition cost_limit : Q := inject_Z (10 ^ 300).

Definition in_float_range (c : Q) : Prop :=
  - cost_limit <= c /\ c <= cost_limit.

(** Every cost of the two tables is a finite number, within [cost_limit]
    of zero. *)
Definition costs_finite (self : HEFTScheduler) : Prop :=
  (forall ty row nt c,
     Dict.get (exec_costs self) ty = Some row ->
     Dict.get row nt = Some c -> in_float_range c) /\
  (forall k c, Dict.get (comm_costs self) k = Some c -> in_float_range c).

Definition in_float_range_b (c : Q) : bool :=
  Qle_bool (- cost_limit) c && Qle_bool c cost_limit.

(** Executable form of [costs_finite]. *)
Definition costs_finite_b (self : HEFTScheduler) : bool :=
  forallb (fun r => forallb (fun e => in_float_range_b (snd e)) (snd r))
    (exec_costs self)
  && forallb (fun e => in_float_range_b (snd e)) (comm_costs self).

(** ** The average execution cost *)



(** ** Closed graphs *)

(** Every successor id names a registered task. *)
Definition graph_closed (self : HEFTScheduler) : Prop :=
  forall k t s,
    Dict.get (tasks self) k = Some t -> In s (successors t) ->
    exists ts, Dict.get (tasks self) s = Some ts.

(** What ranking needs in order to raise nothing but [RecursionError]. *)
Definition ranking_ready (self : HEFTScheduler) : Prop :=
  graph_closed self /\ rows_complete self.

(** ** Schedules that agree *)

(** The two schedules hold the same entry for every task id of [ids]. *)
Definition agree_on (ids : list string)
  (sch sch' : list (string * (string * Q * Q))) : Prop :=
  forall t, In t ids -> Dict.get sch t = Dict.get sch' t.

(** ** Finite feeds *)

(** Every mean the feed reports is a finite number, within [cost_limit]
    of zero. *)
Definition feed_finite (d : BenchmarkData) : Prop :=
  forall step stats m,
    In (step, stats) (feed_items d) -> mean stats = Some m ->
    in_float_range m.

(** ** Concrete inputs *)

(** [HEFTScheduler()] *)
Definition fresh_default : HEFTScheduler := HEFTScheduler_init None None.

(** The default scheduler after ranking, and after a whole run, with room
    for 10 and for 1000 nested calls. *)
Definition default_ranked : HEFTScheduler :=
  Eval vm_compute in
    match compute_all_ranks 10 (define_dag fresh_default) with
    | inr s => s
    | inl _ => fresh_default
    end.

Definition default_run : list (string * (string * Q * Q)) * HEFTScheduler :=
  Eval vm_compute in
    match run_heft 10 fresh_default with
    | inr out => out
    | inl _ => ([], fresh_default)
    end.

Definition default_run_deep
  : list (string * (string * Q * Q)) * HEFTScheduler :=
  Eval vm_compute in
    match run_heft 1000 fresh_default with
    | inr out => out
    | inl _ => ([], fresh_default)
    end.

(** A registry with a sink [S] and a two-task cycle [A -> B -> A]. *)
Definition cyclic_tasks : list (string * Task) := [
  ("S", mk_task "S" "INITIALIZE" [] []);
  ("A", mk_task "A" "HEALTH_CHECK" ["B"] ["B"]);
  ("B", mk_task "B" "HEALTH_CHECK" ["A"] ["A"])
].

Definition cyclic_scheduler : HEFTScheduler :=
  set_tasks fresh_default cyclic_tasks.

(** A feed with one step, reporting a mean of 100 s for the node
    simulation. *)
Definition sample_feed : BenchmarkData :=
  {| platforms :=
       Some [("argo",
              {| step_statistics :=
                   Some [("node_simulation", {| mean := Some 100 |})] |})] |}.

(** Two feeds that report a negative mean, for the node simulation and for
    the initialisation. *)
Definition negative_node_feed : BenchmarkData :=
  {| platforms :=
       Some [("argo",
              {| step_statistics :=
                   Some [("node_simulation", {| mean := Some (-5) |})] |})] |}.

Definition negative_init_feed : BenchmarkData :=
  {| platforms :=
       Some [("argo",
              {| step_statistics :=
                   Some [("init", {| mean := Some (-5) |})] |})] |}.

(** The run of a scheduler that has loaded [negative_node_feed]. *)
Definition negative_node_run
  : list (string * (string * Q * Q)) * HEFTScheduler :=
  Eval vm_compute in
    match
      run_heft 10 (load_benchmark_data fresh_default (Some negative_node_feed))
    with
    | inr out => out
    | inl _ => ([], fresh_default)
    end.

(** A scheduler that has loaded [negative_init_feed], after ranking. *)
Definition negative_init_ranked : HEFTScheduler :=
  Eval vm_compute in
    match
      compute_all_ranks 10
        (define_dag
           (load_benchmark_data fresh_default (Some negative_init_feed)))
    with
    | inr s => s
    | inl _ => fresh_default
    end.

(** The default scheduler after a run, ranked again for a second run, and
    the second run itself. *)
Definition rerun_ranked : HEFTScheduler :=
  Eval vm_compute in
    match compute_all_ranks 10 (define_dag (snd default_run)) with
    | inr s => s
    | inl _ => fresh_default
    end.

Definition second_run : list (string * (string * Q * Q)) * HEFTScheduler :=
  Eval vm_compute in
    match run_heft 10 (snd default_run) with
    | inr out => out
    | inl _ => ([], fresh_default)
    end.

(** The default scheduler after a run, with the node availability put back
    to that of a new scheduler. *)
Definition used_with_fresh_availability : HEFTScheduler :=
  set_node_availability (snd default_run) (node_availability fresh_default).


(** * Basic facts *)

#[global] Arguments get_exec_cost : simpl never.
#[global] Arguments get_comm_cost : simpl never.
#[global] Arguments avg_exec_cost : simpl never.
#[global] Arguments avg_comm_cost : simpl never.
#[global] Arguments sum_over_nodes : simpl never.
#[global] Arguments py_max : simpl never.
#[global] Arguments py_div : simpl never.

(** ** The error monad *)

Lemma bind_inr {A B} (c : result A) (k : A -> result B) (b : B) :
  bind c k = inr b -> exists a, c = inr a /\ k a = inr b.
Proof. destruct c as [e|a]; simpl; [discriminate | eauto]. Qed.

Lemma bind_inr_intro {A B} (c : result A) (k : A -> result B) a b :
  c = inr a -> k a = inr b -> bind c k = inr b.
Proof. intros -> H; exact H. Qed.

Lemma getitem_inr {V} (d : list (string * V)) (k : string) (v : V) :
  getitem d k = inr v -> Dict.get d k = Some v.
Proof. unfold getitem, ret, raise; destruct (Dict.get d k); congruence. Qed.

Lemma getitem_Some {V} (d : list (string * V)) (k : string) (v : V) :
  Dict.get d k = Some v -> getitem d k = inr v.
Proof. unfold getitem; intros ->; reflexivity. Qed.

(** Inversion of a successful monadic computation, one bind at a time. *)
Ltac inv_ret :=
  match goal with
  | H : raise _ = inr _ |- _ => discriminate H
  | H : inl _ = inr _ |- _ => discriminate H
  | H : ret _ = inr _ |- _ =>
      unfold ret in H; injection H; clear H; intros; subst
  | H : inr _ = inr _ |- _ => injection H; clear H; intros; subst
  end.

Ltac inv_bind H :=
  let a := fresh "a" in
  let Ha := fresh "Hc" in
  cbv beta iota in H;
  apply bind_inr in H; destruct H as (a & Ha & H); cbv beta iota in H.

Lemma for_each_inv {A S} (P : S -> Prop) (body : S -> A -> result S) :
  forall xs s s',
    P s ->
    (forall s0 x s1, In x xs -> P s0 -> body s0 x = inr s1 -> P s1) ->
    for_each body xs s = inr s' -> P s'.
Proof.
  induction xs as [|x xs IH]; simpl; intros s s' Hs Hstep Hrun.
  - inv_ret; assumption.
  - inv_bind Hrun. eapply IH; [ | | exact Hrun ].
    + eapply Hstep; eauto.
    + intros; eapply Hstep; eauto.
Qed.

Lemma for_each_app {A S} (body : S -> A -> result S) xs ys s :
  for_each body (xs ++ ys) s = (s' <- for_each body xs s ;; for_each body ys s').
Proof.
  revert s; induction xs as [|x xs IH]; simpl; intros s; [reflexivity|].
  destruct (body s x); simpl; auto.
Qed.

(** ** Dictionaries *)

(** The key comparisons decide equality. *)
Class EqKeyLaws (K : Type) `{EqKey K} : Type :=
  keqb_spec : forall a b : K, reflect (a = b) (keqb a b).

Lemma pair_eqb_spec (a b : string * string) : reflect (a = b) (pair_eqb a b).
Proof.
  destruct a as [a1 a2], b as [b1 b2]; unfold pair_eqb; simpl.
  destruct (String.eqb_spec a1 b1) as [->|N1]; simpl.
  - destruct (String.eqb_spec a2 b2) as [->|N2]; constructor; congruence.
  - constructor; congruence.
Qed.

#[global] Instance EqKeyLaws_string : EqKeyLaws string := String.eqb_spec.
#[global] Instance EqKeyLaws_pair : EqKeyLaws (string * string) := pair_eqb_spec.

Section DictFacts.
Context {K V : Type} `{EqKeyLaws K}.
Implicit Types (d : list (K * V)) (k : K) (v : V).

Lemma keqb_refl k : keqb k k = true.
Proof. destruct (keqb_spec k k); congruence. Qed.

Lemma keqb_neq k k' : k <> k' -> keqb k k' = false.
Proof. destruct (keqb_spec k k'); congruence. Qed.

Lemma get_set_same d k v : Dict.get (Dict.set d k v) k = Some v.
Proof.
  induction d as [|[k' v'] d IH]; simpl.
  - now rewrite keqb_refl.
  - destruct (keqb_spec k k') as [->|N]; simpl.
    + now rewrite keqb_refl.
    + now rewrite (keqb_neq _ _ N).
Qed.

Lemma get_set_other d k k0 v :
  k0 <> k -> Dict.get (Dict.set d k v) k0 = Dict.get d k0.
Proof.
  intros N; induction d as [|[k' v'] d IH]; simpl.
  - now rewrite (keqb_neq _ _ N).
  - destruct (keqb_spec k k') as [->|N']; simpl.
    + now rewrite (keqb_neq _ _ N).
    + now rewrite IH.
Qed.

Lemma get_In d k v : Dict.get d k = Some v -> In (k, v) d.
Proof.
  induction d as [|[k' v'] d IH]; simpl; [discriminate|].
  destruct (keqb_spec k k') as [->|N]; intros E.
  - left; congruence.
  - right; auto.
Qed.

Lemma get_None_not_In d k : Dict.get d k = None -> ~ In k (Dict.keys d).
Proof.
  induction d as [|[k' v'] d IH]; simpl; [tauto|].
  destruct (keqb_spec k k') as [->|N]; [discriminate|].
  intros E [E'|I]; [congruence | now apply IH].
Qed.

Lemma In_keys_get d k : In k (Dict.keys d) -> exists v, Dict.get d k = Some v.
Proof.
  destruct (Dict.get d k) eqn:E; [eauto|].
  intros I; now apply get_None_not_In in E.
Qed.

Lemma get_In_keys d k v : Dict.get d k = Some v -> In k (Dict.keys d).
Proof. intros E; apply get_In in E. now apply (in_map fst) in E. Qed.

Lemma keys_set_present d k v v0 :
  Dict.get d k = Some v0 -> Dict.keys (Dict.set d k v) = Dict.keys d.
Proof.
  induction d as [|[k' v'] d IH]; simpl; [discriminate|].
  destruct (keqb_spec k k') as [->|N]; simpl; [reflexivity|].
  intros E; f_equal; auto.
Qed.

Lemma In_get_NoDup d k v :
  NoDup (Dict.keys d) -> In (k, v) d -> Dict.get d k = Some v.
Proof.
  induction d as [|[k' v'] d IH]; simpl; [tauto|].
  intros ND [E|I]; inversion ND as [|? ? Hn ND']; subst.
  - injection E as -> ->. now rewrite keqb_refl.
  - destruct (keqb_spec k k') as [->|N]; [|auto].
    exfalso; apply Hn. now apply (in_map fst) in I.
Qed.
End DictFacts.

(** ** Float helpers *)

Lemma py_max_l a b : a <= py_max a b.
Proof.
  unfold py_max; destruct (Qle_bool b a) eqn:E; [apply Qle_refl|].
  destruct (Qlt_le_dec a b) as [L|L]; [now apply Qlt_le_weak|].
  apply Qle_bool_iff in L; congruence.
Qed.

Lemma py_max_r a b : b <= py_max a b.
Proof.
  unfold py_max; destruct (Qle_bool b a) eqn:E; [|apply Qle_refl].
  now apply Qle_bool_iff.
Qed.

Lemma py_div_inr a b c : py_div a b = inr c -> c = a / b /\ ~ b == 0.
Proof.
  unfold py_div; destruct (Qeq_bool b 0) eqn:E; [discriminate|].
  intros [= <-]; split; [reflexivity | now apply Qeq_bool_neq].
Qed.

(** ** The fleet *)

Lemma NODES_capacity_pos n nd : Dict.get NODES n = Some nd -> 0 < capacity nd.
Proof.
  intros E; apply get_In in E.
  assert (F : Forall (fun p => 0 < capacity (snd p)) NODES)
    by (unfold NODES; repeat constructor).
  rewrite Forall_forall in F. exact (F _ E).
Qed.

Lemma NODES_keys_NoDup : NoDup (Dict.keys NODES).
Proof.
  unfold NODES; simpl.
  repeat (constructor; [simpl; intuition discriminate|]). constructor.
Qed.

Lemma NODES_keys_get n : In n (Dict.keys NODES) -> exists nd, Dict.get NODES n = Some nd.
Proof. apply In_keys_get. Qed.

(** * The scheduler core *)

Lemma get_exec_cost_inr self ty n c :
  get_exec_cost self ty n = inr c ->
  exists nd, Dict.get NODES n = Some nd.
Proof.
  unfold get_exec_cost; intros H. inv_bind H.
  apply getitem_inr in Hc; eauto.
Qed.

Lemma get_exec_cost_nonneg self ty n c :
  exec_costs_nonneg self -> get_exec_cost self ty n = inr c -> 0 <= c.
Proof.
  intros NN H; unfold get_exec_cost in H.
  inv_bind H. rename a into nd. apply getitem_inr in Hc.
  inv_bind H. rename a into c0. apply getitem_inr in Hc0.
  apply py_div_inr in H as [-> _].
  pose proof (NODES_capacity_pos _ _ Hc) as Hpos.
  assert (0 <= c0) as Hc0'.
  { unfold Dict.get_default in Hc0.
    destruct (Dict.get (exec_costs self) ty) as [row|] eqn:E.
    - eapply NN; eauto.
    - simpl in Hc0.
      destruct (node_type nd =? "master")%string; [injection Hc0 as <-; lra|].
      destruct (node_type nd =? "worker")%string; [injection Hc0 as <-; lra|].
      discriminate. }
  apply Qle_shift_div_l; [assumption | lra].
Qed.

(** What a successful [get_earliest_finish_time] returns. *)
Lemma get_earliest_finish_time_inr self task node s e :
  get_earliest_finish_time self task node = inr (s, e) ->
  exists node_ready exec_time,
    Dict.get (node_availability self) node = Some node_ready /\
    get_exec_cost self (task_type task) node = inr exec_time /\
    node_ready <= s /\ e = s + exec_time /\
    forall p, In p (predecessors task) ->
      exists pt, Dict.get (tasks self) p = Some pt /\
        forall pn, truthy_node (scheduled_node pt) = Some pn ->
          exists comm, get_comm_cost self pn node = inr comm /\
                       end_time pt + comm <= s.
Proof.
  unfold get_earliest_finish_time; intros H.
  inv_bind H. rename a into node_ready. apply getitem_inr in Hc.
  inv_bind H. rename a into pred_ready.
  inv_bind H. rename a into exec_time. inv_ret.
  exists node_ready, exec_time.
  split; [assumption|]. split; [assumption|].
  split; [apply py_max_l|]. split; [reflexivity|].
  intros p Hp.
  (* the loop leaves a value above every scheduled predecessor's bound *)
  assert (L : forall preds pr0 pr,
    for_each
      (fun pred_ready pred_id =>
         pred_task <- getitem (tasks self) pred_id ;;
         match truthy_node (scheduled_node pred_task) with
         | Some pn =>
             comm <- get_comm_cost self pn node ;;
             ret (py_max pred_ready (end_time pred_task + comm))
         | None => ret pred_ready
         end) preds pr0 = inr pr ->
    pr0 <= pr /\
    forall p, In p preds ->
      exists pt, Dict.get (tasks self) p = Some pt /\
        forall pn, truthy_node (scheduled_node pt) = Some pn ->
          exists comm, get_comm_cost self pn node = inr comm /\
                       end_time pt + comm <= pr).
  { induction preds as [|q preds IH]; simpl; intros pr0 pr Hrun.
    - inv_ret. split; [apply Qle_refl | tauto].
    - inv_bind Hrun. rename a into pr1.
      inv_bind Hc2. rename a into qt. apply getitem_inr in Hc3.
      destruct (IH _ _ Hrun) as [Hle Hall].
      assert (pr0 <= pr1 /\
              forall pn, truthy_node (scheduled_node qt) = Some pn ->
                exists comm, get_comm_cost self pn node = inr comm /\
                             end_time qt + comm <= pr1) as [Hle1 Hq].
      { destruct (truthy_node (scheduled_node qt)) as [pn|].
        - inv_bind Hc2. rename a into comm. inv_ret.
          split; [apply py_max_l|].
          intros pn' [= <-]. exists comm; split; auto using py_max_r.
        - inv_ret. split; [apply Qle_refl | discriminate]. }
      split; [eapply Qle_trans; eauto|].
      intros p' [<-|I]; [|auto].
      exists qt; split; auto.
      intros pn Hpn; destruct (Hq pn Hpn) as (comm & ? & ?).
      exists comm; split; auto. eapply Qle_trans; eauto. }
  destruct (L _ _ _ Hc0) as [_ Hall].
  destruct (Hall p Hp) as (pt & Hpt & Hb).
  exists pt; split; auto.
  intros pn Hpn; destruct (Hb pn Hpn) as (comm & ? & ?).
  exists comm; split; auto.
  eapply Qle_trans; [eassumption | apply py_max_r].
Qed.

(** What a successful [schedule_task] does to the state. *)
Lemma schedule_task_inr self task_id r self' :
  schedule_task self task_id = inr (r, self') ->
  exists task best_node best_start best_end,
    Dict.get (tasks self) task_id = Some task /\
    In best_node (Dict.keys NODES) /\
    get_earliest_finish_time self task best_node = inr (best_start, best_end) /\
    r = (best_node, best_start, best_end) /\
    self' =
      {| exec_costs := exec_costs self;
         comm_costs := comm_costs self;
         tasks := Dict.set (tasks self) task_id
                    (with_assignment task best_node best_start best_end);
         schedule := Dict.set (schedule self) task_id
                       (best_node, best_start, best_end);
         node_availability :=
           Dict.set (node_availability self) best_node best_end |}.
Proof.
  unfold schedule_task; intros H.
  inv_bind H. rename a into task. apply getitem_inr in Hc.
  inv_bind H. rename a into best.
  assert (P : forall n s e, best = Some (n, s, e) ->
            In n (Dict.keys NODES) /\
            get_earliest_finish_time self task n = inr (s, e)).
  { revert Hc0.
    apply (for_each_inv
             (fun b => forall n s e, b = Some (n, s, e) ->
                     In n (Dict.keys NODES) /\
                     get_earliest_finish_time self task n = inr (s, e))).
    - discriminate.
    - intros b0 x b1 Hx Hb0 Hstep n s e ->.
      unfold best_node_step in Hstep. inv_bind Hstep.
      destruct a as [s' e'].
      destruct b0 as [[[n0 s0] e0]|].
      + destruct (Qlt_bool e' e0).
        * inv_ret. auto.
        * inv_ret. apply Hb0; reflexivity.
      + inv_ret. auto. }
  destruct best as [[[bn bs] be]|]; [|discriminate].
  destruct (P _ _ _ eq_refl) as [Hin Heft].
  inv_ret.
  exists task, bn, bs, be. auto 6.
Qed.

Lemma python_only_ret {A} (a : A) : python_only (ret a).
Proof. intros e; discriminate. Qed.

Lemma python_only_bind {A B} (c : result A) (k : A -> result B) :
  python_only c -> (forall a, c = inr a -> python_only (k a)) ->
  python_only (bind c k).
Proof.
  intros Hc Hk e; destruct c as [e0|a]; simpl.
  - intros [= <-]; now apply Hc.
  - now apply Hk.
Qed.

Lemma python_only_for_each {A S} (body : S -> A -> result S) xs :
  (forall s x, python_only (body s x)) ->
  forall s, python_only (for_each body xs s).
Proof.
  intros Hb; induction xs as [|x xs IH]; simpl; intros s.
  - apply python_only_ret.
  - apply python_only_bind; auto.
Qed.

Lemma python_only_getitem {V} (d : list (string * V)) k :
  python_only (getitem d k).
Proof.
  unfold getitem; destruct (Dict.get d k); intros e; unfold ret, raise;
    congruence.
Qed.

Lemma python_only_py_div a b : python_only (py_div a b).
Proof.
  unfold py_div; destruct (Qeq_bool b 0); intros e; unfold ret, raise;
    congruence.
Qed.

Create HintDb pyexn.
#[local] Hint Resolve python_only_ret python_only_getitem python_only_py_div
  : pyexn.

Ltac python_only_step :=
  first [ apply python_only_bind; [|intros ? _]
        | apply python_only_for_each; intros ? ?
        | solve [auto with pyexn] ].

Lemma python_only_get_exec_cost self ty n :
  python_only (get_exec_cost self ty n).
Proof. unfold get_exec_cost; repeat python_only_step. Qed.

Lemma python_only_get_comm_cost self a b :
  python_only (get_comm_cost self a b).
Proof. unfold get_comm_cost; repeat python_only_step. Qed.

#[local] Hint Resolve python_only_get_exec_cost python_only_get_comm_cost
  : pyexn.

Lemma python_only_get_earliest_finish_time self task n :
  python_only (get_earliest_finish_time self task n).
Proof.
  unfold get_earliest_finish_time; repeat python_only_step.
  destruct (truthy_node _); repeat python_only_step.
Qed.

Lemma python_only_best_node_step self task b n :
  python_only (best_node_step self task b n).
Proof.
  unfold best_node_step. apply python_only_bind.
  - apply python_only_get_earliest_finish_time.
  - intros [s e] _. destruct b as [[[? ?] be]|]; [|auto with pyexn].
    destruct (Qlt_bool e be); auto with pyexn.
Qed.

Lemma best_node_loop_Some self task xs :
  forall b r, for_each (best_node_step self task) xs (Some b) = inr r ->
              r <> None.
Proof.
  induction xs as [|x xs IH]; simpl; intros b r Hr.
  - inv_ret; discriminate.
  - inv_bind Hr. unfold best_node_step in Hc. inv_bind Hc.
    destruct a0 as [s0 e0], b as [[n1 s1] e1].
    destruct (Qlt_bool e0 e1); inv_ret; eapply IH; eassumption.
Qed.

(** [EmptyFleet] is never raised: the node loop runs over the non-empty
    fleet and always selects a node. *)
Lemma schedule_task_not_EmptyFleet self task_id :
  python_only (schedule_task self task_id).
Proof.
  unfold schedule_task.
  apply python_only_bind; [apply python_only_getitem|]. intros task _.
  apply python_only_bind.
  - apply python_only_for_each; intros; apply python_only_best_node_step.
  - intros best Hbest.
    change (Dict.keys NODES) with ("master-m001" :: tl (Dict.keys NODES)) in Hbest.
    cbn [for_each] in Hbest. inv_bind Hbest.
    unfold best_node_step in Hc at 1. inv_bind Hc. destruct a0 as [s e].
    inv_ret. apply best_node_loop_Some in Hbest.
    destruct best as [[[? ?] ?]|]; [apply python_only_ret | congruence].
Qed.

(** ** Node availability *)

(** C5, as the code has it.  When the execution costs are non-negative, a
    [schedule_task] call never lowers the availability of any node: the
    selected node's new value is the task's end time, which is its start
    time (itself at least the node's old availability) plus a non-negative
    execution cost; every other node keeps its value. *)
Theorem schedule_task_availability_monotone self task_id r self' :
  exec_costs_nonneg self ->
  schedule_task self task_id = inr (r, self') ->
  forall n a,
    Dict.get (node_availability self) n = Some a ->
    exists a', Dict.get (node_availability self') n = Some a' /\ a <= a'.
Proof.
  intros NN H n a Ha.
  apply schedule_task_inr in H
    as (task & bn & bs & be & Ht & Hin & Heft & -> & ->); simpl.
  apply get_earliest_finish_time_inr in Heft
    as (node_ready & x & Hav & Hx & Hle & -> & _).
  destruct (String.eqb_spec n bn) as [->|N].
  - exists (bs + x); split; [apply get_set_same|].
    assert (a = node_ready) as -> by congruence.
    pose proof (get_exec_cost_nonneg _ _ _ _ NN Hx). lra.
  - exists a; split; [|apply Qle_refl].
    rewrite get_set_other by assumption. assumption.
Qed.

(** ** Consistency of the schedule with the task objects *)

Lemma schedule_task_consistent self task_id r self' :
  exec_costs_nonneg self -> consistent self ->
  schedule_task self task_id = inr (r, self') -> consistent self'.
Proof.
  intros NN C H tid n s e.
  apply schedule_task_inr in H
    as (task & bn & bs & be & Ht & Hin & Heft & -> & ->); simpl.
  apply get_earliest_finish_time_inr in Heft
    as (node_ready & x & Hav & Hx & Hle & -> & _).
  pose proof (get_exec_cost_nonneg _ _ _ _ NN Hx) as Hx0.
  destruct (String.eqb_spec tid task_id) as [->|N].
  - rewrite !get_set_same. intros [= <- <- <-].
    split; [assumption|]. split; [lra|].
    eexists; split; [reflexivity|]. simpl; auto.
  - rewrite !get_set_other by assumption. apply C.
Qed.

Lemma schedule_task_exec_costs self task_id r self' :
  schedule_task self task_id = inr (r, self') ->
  exec_costs self' = exec_costs self /\ comm_costs self' = comm_costs self.
Proof.
  intros H; apply schedule_task_inr in H
    as (task & bn & bs & be & _ & _ & _ & _ & ->); simpl; auto.
Qed.

Lemma schedule_tasks_consistent ts :
  forall self self',
    exec_costs_nonneg self -> consistent self ->
    schedule_tasks ts self = inr self' -> consistent self'.
Proof.
  unfold schedule_tasks.
  induction ts as [|t ts IH]; simpl; intros self self' NN C H.
  - inv_ret; assumption.
  - inv_bind H. inv_bind Hc. destruct a0 as [r s1]. inv_ret.
    eapply IH; [ | | exact H ].
    + destruct (schedule_task_exec_costs _ _ _ _ Hc0) as [E _].
      unfold exec_costs_nonneg; rewrite E; exact NN.
    + eapply schedule_task_consistent; eauto.
Qed.

(** * The rank calculator *)

(** ** What ranking leaves untouched

    Ranking writes [upward_rank] fields and nothing else. *)

Lemma with_upward_rank_same t : with_upward_rank t (upward_rank t) = t.
Proof. destruct t; reflexivity. Qed.

Lemma with_upward_rank_twice t r r' :
  with_upward_rank (with_upward_rank t r) r' = with_upward_rank t r'.
Proof. reflexivity. Qed.

Lemma ranking_frame_refl self : ranking_frame self self.
Proof.
  repeat (split; [reflexivity|]).
  intros k t E; exists (upward_rank t). now rewrite with_upward_rank_same.
Qed.

Lemma ranking_frame_trans s1 s2 s3 :
  ranking_frame s1 s2 -> ranking_frame s2 s3 -> ranking_frame s1 s3.
Proof.
  intros (E1 & C1 & S1 & N1 & K1 & T1) (E2 & C2 & S2 & N2 & K2 & T2).
  repeat (split; [congruence|]).
  intros k t E. destruct (T1 _ _ E) as [r Hr].
  destruct (T2 _ _ Hr) as [r' Hr']. exists r'.
  now rewrite with_upward_rank_twice in Hr'.
Qed.

Lemma ranking_frame_get_back self self' k t' :
  ranking_frame self self' -> Dict.get (tasks self') k = Some t' ->
  exists t, Dict.get (tasks self) k = Some t /\
            t' = with_upward_rank t (upward_rank t').
Proof.
  intros (_ & _ & _ & _ & K & T) E.
  pose proof (get_In_keys _ _ _ E) as I. rewrite K in I.
  apply In_keys_get in I as [t Ht]. exists t; split; [assumption|].
  destruct (T _ _ Ht) as [r Hr]. rewrite Hr in E. injection E as <-.
  reflexivity.
Qed.

Lemma ranking_frame_set self k t r :
  Dict.get (tasks self) k = Some t ->
  ranking_frame self
    (set_tasks self (Dict.set (tasks self) k (with_upward_rank t r))).
Proof.
  intros E. repeat (split; [reflexivity|]). split.
  - simpl. eapply keys_set_present; eassumption.
  - intros k0 t0 E0; simpl.
    destruct (String.eqb_spec k0 k) as [->|N].
    + exists r. rewrite get_set_same. congruence.
    + exists (upward_rank t0).
      rewrite get_set_other, with_upward_rank_same by assumption. assumption.
Qed.

Lemma avg_exec_cost_frame self self' ty :
  exec_costs self' = exec_costs self ->
  avg_exec_cost self' ty = avg_exec_cost self ty.
Proof.
  intros E; unfold avg_exec_cost, get_exec_cost. now rewrite E.
Qed.

Lemma avg_comm_cost_frame self self' :
  comm_costs self' = comm_costs self ->
  avg_comm_cost self' = avg_comm_cost self.
Proof.
  intros E; unfold avg_comm_cost, get_comm_cost. now rewrite E.
Qed.

(** ** The recursion without its memo table

    [rank_of] is [compute_upward_rank] with the memo table and the field
    write erased.  It is used to say what the memoised function computes. *)

Lemma for_each_mono {A S} (body body' : S -> A -> result S) xs :
  (forall s x s', body s x = inr s' -> body' s x = inr s') ->
  forall s s', for_each body xs s = inr s' -> for_each body' xs s = inr s'.
Proof.
  intros Hb; induction xs as [|x xs IH]; simpl; intros s s' H; [assumption|].
  inv_bind H. rewrite (Hb _ _ _ Hc); simpl. auto.
Qed.

Lemma rank_step_mono (rec rec' : string -> result Q) self :
  (forall k r, rec k = inr r -> rec' k = inr r) ->
  forall m x m', rank_step rec self m x = inr m' ->
                 rank_step rec' self m x = inr m'.
Proof.
  intros Hr m x m' H; unfold rank_step in *.
  inv_bind H. rewrite (Hr _ _ Hc); simpl. assumption.
Qed.

Lemma rank_of_unfold depth self task_id :
  rank_of (S depth) self task_id =
  (task <- getitem (tasks self) task_id ;;
   avg_exec <- avg_exec_cost self (task_type task) ;;
   match successors task with
   | [] => ret avg_exec
   | _ =>
       m <- for_each (rank_step (rank_of depth self) self)
              (successors task) 0 ;;
       ret (avg_exec + m)
   end).
Proof. reflexivity. Qed.

Lemma rank_of_S depth self k r :
  rank_of depth self k = inr r -> rank_of (S depth) self k = inr r.
Proof.
  revert k r; induction depth as [|d IH]; intros k r H; [discriminate|].
  rewrite rank_of_unfold in H |- *.
  inv_bind H. rename a into task. rewrite Hc; simpl.
  inv_bind H. rewrite Hc0; simpl.
  destruct (successors task) as [|s0 ss]; [assumption|].
  inv_bind H. inv_ret.
  erewrite for_each_mono; [reflexivity | | exact Hc1].
  apply rank_step_mono. exact IH.
Qed.

Lemma rank_of_le d d' self k r :
  (d <= d')%nat -> rank_of d self k = inr r -> rank_of d' self k = inr r.
Proof.
  intros L; induction L as [|d2 L IH]; [trivial|].
  intros H0; apply rank_of_S; auto.
Qed.

Lemma rank_of_det d1 d2 self k r1 r2 :
  rank_of d1 self k = inr r1 -> rank_of d2 self k = inr r2 -> r1 = r2.
Proof.
  intros H1 H2.
  eapply rank_of_le in H1; [|apply (Nat.le_max_l d1 d2)].
  eapply rank_of_le in H2; [|apply (Nat.le_max_r d1 d2)]. congruence.
Qed.

Lemma for_each_ext {A S} (body body' : S -> A -> result S) xs :
  (forall s x, body s x = body' s x) ->
  forall s, for_each body xs s = for_each body' xs s.
Proof.
  intros Hb; induction xs as [|x xs IH]; simpl; intros s; [reflexivity|].
  rewrite Hb. destruct (body' s x); simpl; auto.
Qed.

Lemma rank_of_frame self self' :
  ranking_frame self self' ->
  forall d k, rank_of d self' k = rank_of d self k.
Proof.
  intros F; pose proof F as (E & C & _ & _ & K & T).
  induction d as [|d IH]; intros k; [reflexivity|].
  rewrite !rank_of_unfold.
  unfold getitem.
  destruct (Dict.get (tasks self) k) as [t|] eqn:Et.
  - destruct (T _ _ Et) as [r ->]. simpl.
    rewrite (avg_exec_cost_frame _ _ _ E).
    destruct (avg_exec_cost self (task_type t)); simpl; [reflexivity|].
    destruct (successors t); [reflexivity|].
    erewrite for_each_ext; [reflexivity|].
    intros m x; unfold rank_step. now rewrite IH, (avg_comm_cost_frame _ _ C).
  - destruct (Dict.get (tasks self') k) as [t'|] eqn:Et'; [|reflexivity].
    apply get_In_keys in Et'. rewrite K in Et'.
    apply In_keys_get in Et' as [t Ht]. congruence.
Qed.

(** ** The memoised recursion computes [rank_of] *)

Lemma compute_upward_rank_unfold depth self task_id memo :
  compute_upward_rank (S depth) self task_id memo =
  match Dict.get memo task_id with
  | Some r => ret (r, memo, self)
  | None =>
      task <- getitem (tasks self) task_id ;;
      avg_exec <- avg_exec_cost self (task_type task) ;;
      ' (rank, memo1, self1) <-
        match successors task with
        | [] => ret (avg_exec, memo, self)
        | _ =>
            ' (max_successor_rank, memo1, self1) <-
              for_each (succ_loop_body (compute_upward_rank depth))
                (successors task) (0, memo, self) ;;
            ret (avg_exec + max_successor_rank, memo1, self1)
        end ;;
      ret (rank, Dict.set memo1 task_id rank,
           set_tasks self1
             (Dict.set (tasks self1) task_id (with_upward_rank task rank)))
  end.
Proof. reflexivity. Qed.

Lemma memo_le_refl memo : memo_le memo memo.
Proof. intros k; trivial. Qed.

Lemma memo_le_trans m1 m2 m3 : memo_le m1 m2 -> memo_le m2 m3 -> memo_le m1 m3.
Proof. intros A B k I; auto. Qed.

Lemma memo_le_set (memo : memo_t) k r : memo_le memo (Dict.set memo k r).
Proof.
  intros k0 I. apply In_keys_get in I as [v Hv].
  destruct (String.eqb_spec k0 k) as [->|N].
  - eapply get_In_keys. apply get_set_same.
  - eapply get_In_keys. rewrite get_set_other; eassumption.
Qed.

Section SuccessorLoop.
Variable rec :
  HEFTScheduler -> string -> memo_t -> result (Q * memo_t * HEFTScheduler).
Hypothesis rec_post :
  forall self t memo out,
    rec self t memo = inr out -> memo_ok self memo -> rank_post self t memo out.

Lemma succ_loop_post succs :
  forall m0 memo0 self0 m memo1 self1,
    for_each (succ_loop_body rec) succs (m0, memo0, self0)
      = inr (m, memo1, self1) ->
    memo_ok self0 memo0 ->
    (exists d, for_each (rank_step (rank_of d self0) self0) succs m0 = inr m) /\
    memo_ok self1 memo1 /\ ranking_frame self0 self1 /\ memo_le memo0 memo1.
Proof.
  induction succs as [|s succs IH]; cbn [for_each];
    intros m0 memo0 self0 m memo1 self1 H OK.
  - inv_ret. split; [exists O; reflexivity|].
    auto using ranking_frame_refl, memo_le_refl.
  - inv_bind H. destruct a as [[m1 memo'] self'].
    unfold succ_loop_body in Hc.
    inv_bind Hc. destruct a as [[rs memo''] self''].
    inv_bind Hc. rename a into c. inv_ret.
    destruct (rec_post _ _ _ _ Hc0 OK) as ((d1 & Hd1) & OK' & F' & L' & _).
    destruct (IH _ _ _ _ _ _ H OK') as ((d2 & Hd2) & OK1 & F1 & L1).
    pose proof F' as (_ & C' & _).
    split; [|eauto using ranking_frame_trans, memo_le_trans].
    exists (Nat.max d1 d2).
    unfold rank_step at 1.
    rewrite (rank_of_le d1 (Nat.max d1 d2) _ _ _ (Nat.le_max_l _ _) Hd1); cbn [bind].
    rewrite <- (avg_comm_cost_frame _ _ C'), Hc1; cbn [bind].
    eapply for_each_mono; [|exact Hd2].
    intros m2 x m3 Hs. unfold rank_step in *.
    inv_bind Hs. rewrite (rank_of_frame _ _ F') in Hc.
    rewrite (rank_of_le d2 (Nat.max d1 d2) _ _ _ (Nat.le_max_r _ _) Hc); cbn [bind].
    now rewrite <- (avg_comm_cost_frame _ _ C').
Qed.
End SuccessorLoop.

(** Storing the rank of [task_id] in the memo table and in the task. *)
Lemma rank_commit self self1 task_id task rank memo memo1 d :
  Dict.get (tasks self) task_id = Some task ->
  rank_of d self task_id = inr rank ->
  memo_ok self1 memo1 -> ranking_frame self self1 -> memo_le memo memo1 ->
  rank_post self task_id memo
    (rank, Dict.set memo1 task_id rank,
     set_tasks self1
       (Dict.set (tasks self1) task_id (with_upward_rank task rank))).
Proof.
  intros Ht Hr OK F L.
  destruct F as (E & C & Sc & N & K & T).
  destruct (T _ _ Ht) as [r0 Ht1].
  assert (F1 : ranking_frame self1
            (set_tasks self1
               (Dict.set (tasks self1) task_id (with_upward_rank task rank)))).
  { rewrite <- (with_upward_rank_twice task r0 rank).
    now apply ranking_frame_set. }
  assert (F : ranking_frame self self1) by (repeat split; assumption).
  assert (F' := ranking_frame_trans _ _ _ F F1).
  unfold rank_post.
  split; [eauto|]. split; [|split; [assumption|split]].
  - intros k r Hk.
    destruct (String.eqb_spec k task_id) as [->|Nk].
    + rewrite get_set_same in Hk. injection Hk as <-. split.
      * exists d. now rewrite (rank_of_frame _ _ F').
      * simpl. rewrite get_set_same. eexists; split; reflexivity.
    + rewrite get_set_other in Hk by assumption.
      destruct (OK _ _ Hk) as ((dk & Hdk) & tk & Htk & Hrk). split.
      * exists dk. now rewrite (rank_of_frame _ _ F1).
      * simpl. rewrite get_set_other by assumption. eauto.
  - eapply memo_le_trans; [exact L | apply memo_le_set].
  - eapply get_In_keys. apply get_set_same.
Qed.

Lemma compute_upward_rank_post depth :
  forall self task_id memo out,
    compute_upward_rank depth self task_id memo = inr out ->
    memo_ok self memo -> rank_post self task_id memo out.
Proof.
  induction depth as [|d IH]; intros self task_id memo out H OK; [discriminate|].
  rewrite compute_upward_rank_unfold in H.
  destruct (Dict.get memo task_id) as [r|] eqn:Em.
  - inv_ret. destruct (OK _ _ Em) as (Hd & _).
    unfold rank_post. split; [assumption|].
    split; [assumption|]. split; [apply ranking_frame_refl|].
    split; [apply memo_le_refl | eapply get_In_keys; eassumption].
  - inv_bind H. rename a into task. apply getitem_inr in Hc.
    inv_bind H. rename a into avg_exec.
    inv_bind H. destruct a as [[rank memo1] self1]. inv_ret.
    destruct (successors task) as [|s0 ss] eqn:Es.
    + inv_ret. apply (rank_commit _ _ _ _ _ _ _ 1%nat); auto.
      * rewrite rank_of_unfold, (getitem_Some _ _ _ Hc); simpl.
        rewrite Hc0; simpl. now rewrite Es.
      * apply ranking_frame_refl.
      * apply memo_le_refl.
    + inv_bind Hc1. destruct a as [[m memo2] self2]. inv_ret.
      destruct (succ_loop_post _ IH _ _ _ _ _ _ _ Hc2 OK)
        as ((d1 & Hd1) & OK1 & F1 & L1).
      apply (rank_commit _ _ _ _ _ _ _ (S d1)); auto.
      rewrite rank_of_unfold, (getitem_Some _ _ _ Hc); simpl.
      rewrite Hc0; simpl. rewrite Es, Hd1. reflexivity.
Qed.

Lemma memo_ok_nil self : memo_ok self [].
Proof. intros k r; discriminate. Qed.

Lemma rank_loop_post depth ks :
  forall memo0 self0 memo1 self1,
    for_each
      (fun st task_id =>
         let '(memo, self0) := st in
         ' (_, memo', self') <- compute_upward_rank depth self0 task_id memo ;;
         ret (memo', self'))
      ks (memo0, self0) = inr (memo1, self1) ->
    memo_ok self0 memo0 ->
    memo_ok self1 memo1 /\ ranking_frame self0 self1 /\ memo_le memo0 memo1 /\
    forall k, In k ks -> In k (Dict.keys memo1).
Proof.
  induction ks as [|k ks IH]; cbn [for_each]; intros memo0 self0 memo1 self1 H OK.
  - inv_ret. split; [assumption|]. split; [apply ranking_frame_refl|].
    split; [apply memo_le_refl | intros ? []].
  - inv_bind H. destruct a as [memo' self'].
    inv_bind Hc. destruct a as [[r memo''] self'']. inv_ret.
    destruct (compute_upward_rank_post _ _ _ _ _ Hc0 OK)
      as (_ & OK' & F' & L' & I').
    destruct (IH _ _ _ _ H OK') as (OK1 & F1 & L1 & I1).
    split; [assumption|]. split; [eauto using ranking_frame_trans|].
    split; [eauto using memo_le_trans|].
    intros k0 [<-|I]; auto.
Qed.

(** After [compute_all_ranks], every task carries the value of the plain
    recursion, and nothing but [upward_rank] fields has changed. *)
Lemma compute_all_ranks_post depth self self' :
  compute_all_ranks depth self = inr self' ->
  ranking_frame self self' /\
  forall k t, Dict.get (tasks self') k = Some t ->
    exists d, rank_of d self' k = inr (upward_rank t).
Proof.
  unfold compute_all_ranks; intros H.
  inv_bind H. destruct a as [memo1 self1]. inv_ret.
  destruct (rank_loop_post _ _ _ _ _ _ Hc (memo_ok_nil self))
    as (OK & F & _ & I).
  split; [assumption|]. intros k t Ht.
  pose proof F as (_ & _ & _ & _ & K & _).
  pose proof (get_In_keys _ _ _ Ht) as Ik. rewrite K in Ik.
  apply I in Ik. apply In_keys_get in Ik as [r Hr].
  destruct (OK _ _ Hr) as (Hd & t0 & Ht0 & <-).
  assert (t0 = t) as -> by congruence. assumption.
Qed.


(** ** Rank lower bound and sink exactness *)



(** ** The rank equation *)

Lemma avg_comm_cost_value self :
  exists c, avg_comm_cost self = inr c /\ c == same_node_mean (comm_costs self).
Proof.
  eexists; split; [reflexivity|].
  unfold same_node_mean, Qsum, pair_cost; cbn -[Qplus Qmult Qdiv Dict.get_default].
  apply Qdiv_comp; [ring | reflexivity].
Qed.

Lemma rank_of_present d self k r :
  rank_of d self k = inr r -> exists t, Dict.get (tasks self) k = Some t.
Proof.
  destruct d as [|d]; [discriminate|]. rewrite rank_of_unfold. intros H.
  inv_bind H. apply getitem_inr in Hc. eauto.
Qed.

Lemma rank_loop_fold self d c succs :
  (forall k t, Dict.get (tasks self) k = Some t ->
     exists d, rank_of d self k = inr (upward_rank t)) ->
  avg_comm_cost self = inr c ->
  forall m0 m,
    for_each (rank_step (rank_of d self) self) succs m0 = inr m ->
    (forall s, In s succs -> exists ts, Dict.get (tasks self) s = Some ts) /\
    m = fold_left (fun m s => py_max m (c + task_rank self s)) succs m0.
Proof.
  intros R C.
  induction succs as [|s succs IH]; cbn [for_each fold_left]; intros m0 m H.
  - inv_ret. split; [intros ? [] | reflexivity].
  - inv_bind H. unfold rank_step in Hc.
    inv_bind Hc. rename a0 into rs. rewrite C in Hc. cbn [bind] in Hc. inv_ret.
    destruct (rank_of_present _ _ _ _ Hc0) as [ts Hts].
    destruct (R _ _ Hts) as [d' Hd'].
    pose proof (rank_of_det _ _ _ _ _ _ Hc0 Hd') as ->.
    destruct (IH _ _ H) as [P E].
    split.
    + intros s' [<-|I]; eauto.
    + rewrite E.
      assert (task_rank self s = upward_rank ts) as ->
        by (unfold task_rank; now rewrite Hts).
      reflexivity.
Qed.

(** The equation every ranked task with successors satisfies. *)
Lemma rank_equation depth self self' task_id task :
  compute_all_ranks depth self = inr self' ->
  Dict.get (tasks self') task_id = Some task ->
  successors task <> [] ->
  exists avg_exec avg_comm,
    avg_exec_cost self' (task_type task) = inr avg_exec /\
    avg_comm_cost self' = inr avg_comm /\
    (forall s, In s (successors task) ->
       exists ts, Dict.get (tasks self') s = Some ts) /\
    upward_rank task =
      avg_exec +
      fold_left (fun m s => py_max m (avg_comm + task_rank self' s))
        (successors task) 0.
Proof.
  intros H Ht Hs.
  destruct (compute_all_ranks_post _ _ _ H) as (_ & R).
  destruct (R _ _ Ht) as [d Hd].
  destruct d as [|d]; [discriminate|].
  rewrite rank_of_unfold, (getitem_Some _ _ _ Ht) in Hd.
  cbn [bind ret] in Hd. inv_bind Hd. rename a into avg_exec.
  destruct (avg_comm_cost_value self') as (c & Hc1 & _).
  exists avg_exec, c.
  destruct (successors task) as [|s0 ss] eqn:Es; [congruence|].
  inv_bind Hd. unfold ret in Hd; injection Hd as <-.
  destruct (rank_loop_fold _ _ _ _ R Hc1 _ _ Hc0) as [P E].
  rewrite <- E. auto 6.
Qed.

(** C3, as the code has it.  For a task with successors the rank is the
    average execution cost plus the largest of [avg_comm + rank(s)] over the
    successors [s] (the running maximum starts at 0), where [avg_comm] is
    the communication cost averaged over the pairs [(n, n)] of a node with
    itself, one pair per node of the fleet. *)
Theorem upward_rank_equation depth self self' task_id task :
  compute_all_ranks depth self = inr self' ->
  Dict.get (tasks self') task_id = Some task ->
  successors task <> [] ->
  exists avg_exec avg_comm,
    avg_exec_cost self' (task_type task) = inr avg_exec /\
    avg_comm_cost self' = inr avg_comm /\
    avg_comm == same_node_mean (comm_costs self') /\
    (forall s, In s (successors task) ->
       exists ts, Dict.get (tasks self') s = Some ts) /\
    upward_rank task =
      avg_exec +
      fold_left (fun m s => py_max m (avg_comm + task_rank self' s))
        (successors task) 0.
Proof.
  intros H Ht Hs.
  destruct (rank_equation _ _ _ _ _ H Ht Hs) as (a & c & Ha & Hc & P & E).
  destruct (avg_comm_cost_value self') as (c' & Hc' & Hmean).
  assert (c' = c) as -> by congruence.
  exists a, c. auto 6.
Qed.

(** ** Cyclic task graphs *)

Lemma rank_loop_all (rec : string -> result Q) self succs :
  forall m0 m,
    for_each (rank_step rec self) succs m0 = inr m ->
    forall s, In s succs -> exists r, rec s = inr r.
Proof.
  induction succs as [|s0 succs IH]; cbn [for_each]; intros m0 m H s; [intros []|].
  inv_bind H. unfold rank_step in Hc. inv_bind Hc.
  intros [<-|I]; eauto.
Qed.

(** A task whose plain recursion returns has no infinite chain of
    successors below it. *)
Lemma rank_of_Acc d :
  forall self k r,
    rank_of d self k = inr r -> Acc (fun v u => succ_edge self u v) k.
Proof.
  induction d as [|d IH]; intros self k r H; [discriminate|].
  rewrite rank_of_unfold in H.
  inv_bind H. rename a into task. apply getitem_inr in Hc.
  inv_bind H.
  constructor. intros v (task' & Ht' & Hv).
  assert (task' = task) as -> by congruence.
  destruct (successors task) as [|s0 ss] eqn:Es; [destruct Hv|].
  inv_bind H.
  destruct (rank_loop_all _ _ _ _ _ Hc1 v Hv) as [rv Hrv].
  eapply IH; eassumption.
Qed.

Lemma clos_trans_flip {A} (R : A -> A -> Prop) x y :
  clos_trans A R x y -> clos_trans A (fun b a => R a b) y x.
Proof.
  induction 1 as [x y H | x y z _ IH1 _ IH2].
  - now apply t_step.
  - eapply t_trans; eassumption.
Qed.

Lemma Acc_no_cycle {A} (R : A -> A -> Prop) x :
  Acc R x -> clos_trans A R x x -> False.
Proof.
  intros HA. apply Acc_clos_trans in HA.
  induction HA as [x _ IH]. intros C. exact (IH x C C).
Qed.

Lemma clos_trans_first {A} (R : A -> A -> Prop) x y :
  clos_trans A R x y -> exists z, R x z.
Proof. induction 1 as [x y H | x y z _ IH1 _ _]; eauto. Qed.

Lemma succ_edge_frame self self' u v :
  ranking_frame self self' -> succ_edge self u v -> succ_edge self' u v.
Proof.
  intros (_ & _ & _ & _ & _ & T) (task & Ht & Hv).
  destruct (T _ _ Ht) as [r Hr].
  exists (with_upward_rank task r); split; assumption.
Qed.

Lemma clos_trans_incl {A} (R R' : A -> A -> Prop) x y :
  (forall a b, R a b -> R' a b) -> clos_trans A R x y -> clos_trans A R' x y.
Proof.
  intros I; induction 1 as [x y H | x y z _ IH1 _ IH2].
  - apply t_step; auto.
  - eapply t_trans; eassumption.
Qed.

Lemma on_cycle_frame self self' t :
  ranking_frame self self' -> on_cycle self t -> on_cycle self' t.
Proof.
  intros F; apply clos_trans_incl.
  intros a b; now apply succ_edge_frame.
Qed.

(** Ranking does not return on a graph with a cycle. *)
Lemma ranking_needs_acyclic depth self task_id :
  on_cycle self task_id ->
  forall self', compute_all_ranks depth self <> inr self'.
Proof.
  intros C self' H.
  destruct (compute_all_ranks_post _ _ _ H) as (F & R).
  pose proof (on_cycle_frame _ _ _ F C) as C'.
  destruct (clos_trans_first _ _ _ C') as (v & task & Ht & _).
  destruct (R _ _ Ht) as [d Hd].
  apply rank_of_Acc in Hd.
  apply (Acc_no_cycle _ _ Hd).
  apply clos_trans_flip. exact C'.
Qed.

(** * Determinism *)

(** ** The result does not depend on the depth limit *)

Lemma succ_loop_body_mono
  (rec rec' : HEFTScheduler -> string -> memo_t
              -> result (Q * memo_t * HEFTScheduler)) :
  (forall self t memo out, rec self t memo = inr out -> rec' self t memo = inr out) ->
  forall st x st', succ_loop_body rec st x = inr st' ->
                   succ_loop_body rec' st x = inr st'.
Proof.
  intros Hr [[m memo0] self0] x st' H. unfold succ_loop_body in *.
  inv_bind H. rewrite (Hr _ _ _ _ Hc). exact H.
Qed.

Lemma compute_upward_rank_S depth :
  forall self task_id memo out,
    compute_upward_rank depth self task_id memo = inr out ->
    compute_upward_rank (S depth) self task_id memo = inr out.
Proof.
  induction depth as [|d IH]; intros self task_id memo out H; [discriminate|].
  rewrite compute_upward_rank_unfold in H.
  rewrite compute_upward_rank_unfold.
  destruct (Dict.get memo task_id); [assumption|].
  inv_bind H. rename a into task. rewrite Hc; cbn [bind].
  inv_bind H. rewrite Hc0; cbn [bind].
  inv_bind H. destruct a0 as [[rank memo1] self1].
  destruct (successors task) as [|s0 ss].
  - rewrite Hc1. exact H.
  - inv_bind Hc1.
    rewrite (for_each_mono _ _ _ (succ_loop_body_mono _ _ IH) _ _ Hc2).
    cbn [bind]. rewrite Hc1. exact H.
Qed.

Lemma compute_upward_rank_le d d' self task_id memo out :
  (d <= d')%nat ->
  compute_upward_rank d self task_id memo = inr out ->
  compute_upward_rank d' self task_id memo = inr out.
Proof.
  intros L; induction L as [|d2 L IH]; [trivial|].
  intros H0; apply compute_upward_rank_S; auto.
Qed.

Lemma compute_all_ranks_le d d' self self' :
  (d <= d')%nat ->
  compute_all_ranks d self = inr self' -> compute_all_ranks d' self = inr self'.
Proof.
  intros L H; unfold compute_all_ranks in *.
  inv_bind H. erewrite for_each_mono; [exact H | | exact Hc].
  intros [memo0 self0] x st' Hs.
  inv_bind Hs. now rewrite (compute_upward_rank_le _ _ _ _ _ _ L Hc0).
Qed.

Lemma run_heft_le d d' self out :
  (d <= d')%nat -> run_heft d self = inr out -> run_heft d' self = inr out.
Proof.
  intros L H; unfold run_heft in *.
  inv_bind H. now rewrite (compute_all_ranks_le _ _ _ _ L Hc).
Qed.

(** * Precedence *)

Lemma get_comm_cost_nonneg self a b c :
  comm_costs_nonneg self -> get_comm_cost self a b = inr c -> 0 <= c.
Proof.
  intros NN H; unfold get_comm_cost in H.
  inv_bind H. inv_bind H. inv_ret.
  unfold Dict.get_default.
  destruct (Dict.get (comm_costs self) (zone a0, zone a1)) as [c|] eqn:E.
  - pose proof (NN _ _ E). lra.
  - lra.
Qed.

Lemma sum_over_nodes_nonneg (f : string -> result Q) s :
  (forall n c, f n = inr c -> 0 <= c) ->
  sum_over_nodes f = inr s -> 0 <= s.
Proof.
  intros Hf. unfold sum_over_nodes.
  apply (for_each_inv (fun acc => 0 <= acc)); [apply Qle_refl|].
  intros acc n acc' _ Hacc Hstep.
  inv_bind Hstep. inv_ret. pose proof (Hf _ _ Hc). lra.
Qed.

Lemma len_nodes_pos : 0 < len_nodes.
Proof. reflexivity. Qed.

Lemma avg_exec_cost_nonneg self ty a :
  exec_costs_nonneg self -> avg_exec_cost self ty = inr a -> 0 <= a.
Proof.
  intros NN H; unfold avg_exec_cost in H. inv_bind H.
  apply py_div_inr in H as [-> _].
  apply Qle_shift_div_l; [apply len_nodes_pos|].
  eapply sum_over_nodes_nonneg in Hc; [lra|].
  intros n c; now apply get_exec_cost_nonneg.
Qed.

Lemma avg_comm_cost_nonneg self c :
  comm_costs_nonneg self -> avg_comm_cost self = inr c -> 0 <= c.
Proof.
  intros NN H; unfold avg_comm_cost in H. inv_bind H.
  apply py_div_inr in H as [-> _].
  apply Qle_shift_div_l; [apply len_nodes_pos|].
  eapply sum_over_nodes_nonneg in Hc; [lra|].
  intros n c; now apply get_comm_cost_nonneg.
Qed.

Lemma fold_py_max_ge (f : string -> Q) succs :
  forall m0, m0 <= fold_left (fun m s => py_max m (f s)) succs m0.
Proof.
  induction succs as [|s succs IH]; cbn [fold_left]; intros m0.
  - apply Qle_refl.
  - eapply Qle_trans; [apply py_max_l | apply IH].
Qed.

Lemma fold_py_max_In (f : string -> Q) succs :
  forall m0 s, In s succs ->
    f s <= fold_left (fun m s => py_max m (f s)) succs m0.
Proof.
  induction succs as [|s0 succs IH]; cbn [fold_left]; intros m0 s; [intros []|].
  intros [<-|I].
  - eapply Qle_trans; [apply py_max_r | apply fold_py_max_ge].
  - now apply IH.
Qed.

(** With non-negative costs a task ranks at least as high as each of its
    successors. *)
Lemma rank_edge_ge depth self self' u task v :
  exec_costs_nonneg self' -> comm_costs_nonneg self' ->
  compute_all_ranks depth self = inr self' ->
  Dict.get (tasks self') u = Some task ->
  In v (successors task) ->
  task_rank self' v <= upward_rank task.
Proof.
  intros NE NC H Ht Hv.
  assert (Hs : successors task <> []) by (intros E; rewrite E in Hv; destruct Hv).
  destruct (rank_equation _ _ _ _ _ H Ht Hs) as (a & c & Ha & Hc & _ & ->).
  pose proof (avg_exec_cost_nonneg _ _ _ NE Ha).
  pose proof (avg_comm_cost_nonneg _ _ NC Hc).
  pose proof (fold_py_max_In (fun s => c + task_rank self' s)
                (successors task) 0 v Hv) as G.
  cbv beta in G. lra.
Qed.

(** Tasks of one type with the same successors get the same rank. *)
Lemma rank_same depth self self' u tu v tv :
  compute_all_ranks depth self = inr self' ->
  Dict.get (tasks self') u = Some tu ->
  Dict.get (tasks self') v = Some tv ->
  task_type tu = task_type tv -> successors tu = successors tv ->
  upward_rank tu = upward_rank tv.
Proof.
  intros H Hu Hv Ety Es.
  destruct (compute_all_ranks_post _ _ _ H) as (_ & R).
  destruct (R _ _ Hu) as [du Hdu]. destruct (R _ _ Hv) as [dv Hdv].
  destruct du as [|du]; [discriminate|]. destruct dv as [|dv]; [discriminate|].
  eapply rank_of_le in Hdu; [|apply (Nat.le_max_l (S du) (S dv))].
  eapply rank_of_le in Hdv; [|apply (Nat.le_max_r (S du) (S dv))].
  cbn [Nat.max] in Hdu, Hdv.
  rewrite rank_of_unfold in Hdu, Hdv.
  rewrite (getitem_Some _ _ _ Hu) in Hdu. rewrite (getitem_Some _ _ _ Hv) in Hdv.
  cbn [bind ret] in Hdu, Hdv. rewrite Ety, Es in Hdu. congruence.
Qed.

(** ** The sort leaves a non-increasing list as it is *)

Lemma insert_desc_head t ts :
  match ts with u :: _ => upward_rank u <= upward_rank t | [] => True end ->
  insert_desc t ts = t :: ts.
Proof.
  destruct ts as [|u ts]; [reflexivity|]. intros L; cbn [insert_desc].
  unfold Qlt_bool. apply Qle_bool_iff in L. now rewrite L.
Qed.

Lemma sorted_desc_non_increasing ts :
  non_increasing ts -> sorted_desc ts = ts.
Proof.
  induction ts as [|t ts IH]; [reflexivity|].
  intros NI. unfold sorted_desc in *; cbn [fold_right].
  destruct ts as [|u ts'].
  - reflexivity.
  - destruct NI as [L NI]. rewrite (IH NI). now apply insert_desc_head.
Qed.

(** ** Scheduling in a topological order *)

Lemma NODES_key_truthy n :
  In n (Dict.keys NODES) -> truthy_node (Some n) = Some n.
Proof.
  intros I; simpl in I.
  repeat (destruct I as [<-|I]; [reflexivity|]). destruct I.
Qed.

Lemma get_comm_cost_frame self self' a b :
  comm_costs self' = comm_costs self ->
  get_comm_cost self' a b = get_comm_cost self a b.
Proof. intros E; unfold get_comm_cost; now rewrite E. Qed.

Lemma sched_step preds succs done s v r s' :
  sched_inv preds succs done s -> ~ In v done ->
  (forall p, In p (preds v) -> In p done) ->
  schedule_task s v = inr (r, s') ->
  sched_inv preds succs (v :: done) s'.
Proof.
  intros (G & SO & PR) Hv Hp H.
  apply schedule_task_inr in H
    as (task & bn & bs & be & Ht & Hin & Heft & -> & ->).
  apply get_earliest_finish_time_inr in Heft
    as (node_ready & x & _ & _ & _ & _ & Hpred).
  destruct (G _ _ Ht) as [Gp Gs].
  assert (Other : forall u, In u done -> u <> v) by (intros u I ->; auto).
  split; [|split].
  - intros k t; cbn [tasks].
    destruct (String.eqb_spec k v) as [->|N].
    + rewrite get_set_same. intros [= <-]. cbn. auto.
    + rewrite get_set_other by assumption. apply G.
  - intros u [<-|I].
    + exists bn, bs, be, (with_assignment task bn bs be); cbn.
      rewrite !get_set_same. auto 6.
    + destruct (SO _ I) as (n & st & e & t & ? & ? & ? & ?).
      exists n, st, e, t; cbn.
      rewrite !get_set_other by auto. auto.
  - intros u p [<-|I] Ip.
    + pose proof (Hp _ Ip) as Idone. split; [now right|].
      destruct (SO _ Idone) as (np & sp & ep & pt & Hsp & Hnp & Htp & Hn & _ & He).
      rewrite <- Gp in Ip.
      destruct (Hpred _ Ip) as (pt' & Htp' & Hb).
      assert (pt' = pt) as -> by congruence.
      rewrite Hn in Hb.
      destruct (Hb _ (NODES_key_truthy _ Hnp)) as (comm & Hcomm & Hle).
      exists np, sp, ep, bn, bs, be, comm; cbn [schedule].
      rewrite get_set_same, get_set_other by auto.
      split; [assumption|]. split; [reflexivity|].
      split; [|now rewrite <- He]. exact Hcomm.
    + destruct (PR _ _ I Ip) as [Idone Pr]. split; [now right|].
      destruct Pr as (np & sp & ep & nv & sv & ev & comm & A & B & C & D).
      exists np, sp, ep, nv, sv, ev, comm; cbn [schedule].
      rewrite !get_set_other by auto. auto.
Qed.

Lemma sched_loop preds succs ts :
  forall done s s',
    sched_inv preds succs done s -> topological preds done (map id ts) ->
    schedule_tasks ts s = inr s' ->
    sched_inv preds succs (rev (map id ts) ++ done) s'.
Proof.
  unfold schedule_tasks.
  induction ts as [|t ts IH]; cbn [for_each map rev topological];
    intros done s s' I T H.
  - inv_ret. exact I.
  - destruct T as (Hv & Hp & T).
    inv_bind H. inv_bind Hc. destruct a0 as [r s1]. inv_ret.
    pose proof (sched_step _ _ _ _ _ _ _ I Hv Hp Hc0) as I1.
    rewrite <- app_assoc. cbn [app]. eapply IH; eassumption.
Qed.

(** ** The built-in DAG *)

Lemma define_dag_fresh ec cc :
  define_dag (HEFTScheduler_init ec cc) =
  set_tasks (HEFTScheduler_init ec cc) dag_tasks.
Proof. reflexivity. Qed.

Lemma frame_shape (l : list (string * Task)) :
  forall l' : list (string * Task),
    Dict.keys l' = Dict.keys l -> NoDup (Dict.keys l) ->
    (forall k t, Dict.get l k = Some t ->
       exists r, Dict.get l' k = Some (with_upward_rank t r)) ->
    exists rs, List.length rs = List.length l /\ l' = with_ranks l rs.
Proof.
  induction l as [|[k t] l IH]; intros l' K ND T.
  - destruct l'; [|discriminate]. exists []; split; reflexivity.
  - destruct l' as [|[k' t'] l']; [discriminate|].
    cbn in K. injection K as -> K.
    inversion ND as [|? ? Hn ND']; subst.
    destruct (T k t) as [r Hr]; [cbn; now rewrite String.eqb_refl|].
    cbn in Hr. rewrite String.eqb_refl in Hr. injection Hr as ->.
    destruct (IH l' K ND') as (rs & Hlen & ->).
    + intros k0 t0 E0.
      assert (k0 <> k) as N
        by (intros ->; apply Hn; eapply get_In_keys; eassumption).
      destruct (T k0 t0) as [r0 Hr0].
      * cbn. apply String.eqb_neq in N. now rewrite N.
      * exists r0. cbn in Hr0. apply String.eqb_neq in N.
        now rewrite N in Hr0.
    + exists (r :: rs); split; [cbn; congruence | reflexivity].
Qed.

Lemma edges_consistent_sound l :
  edges_consistent l = true ->
  forall u tu v,
    Dict.get l u = Some tu -> In v (successors tu) ->
    exists tv, Dict.get l v = Some tv /\ In u (predecessors tv).
Proof.
  unfold edges_consistent; intros E u tu v Hu Hv.
  rewrite forallb_forall in E. specialize (E _ (get_In _ _ _ Hu)).
  rewrite forallb_forall in E. specialize (E _ Hv). cbn [fst] in E.
  destruct (Dict.get l v) as [tv|]; [|discriminate].
  exists tv; split; [reflexivity|].
  apply existsb_exists in E as (x & Ix & Ex).
  apply String.eqb_eq in Ex. now subst.
Qed.

Lemma existsb_eqb_In x l : existsb (String.eqb x) l = true <-> In x l.
Proof.
  rewrite existsb_exists. split.
  - intros (y & I & E). apply String.eqb_eq in E. now subst.
  - intros I; exists x; split; [assumption | apply String.eqb_refl].
Qed.

Lemma topological_b_sound preds ids :
  forall done, topological_b preds done ids = true ->
               topological preds done ids.
Proof.
  induction ids as [|v ids IH]; cbn [topological_b topological]; intros done H;
    [exact I|].
  apply andb_true_iff in H as [H H3]. apply andb_true_iff in H as [H1 H2].
  split; [|split; [|now apply IH]].
  - intros I. apply existsb_eqb_In in I. now rewrite I in H1.
  - intros p Ip. rewrite forallb_forall in H2. now apply existsb_eqb_In, H2.
Qed.

(** With non-negative costs the declared order of the built-in DAG is the
    order [run_heft] schedules in. *)
Lemma ranked_dag_order ec cc depth self2 :
  exec_costs_nonneg (HEFTScheduler_init ec cc) ->
  comm_costs_nonneg (HEFTScheduler_init ec cc) ->
  compute_all_ranks depth (define_dag (HEFTScheduler_init ec cc)) = inr self2 ->
  sorted_desc (Dict.values (tasks self2)) = Dict.values (tasks self2) /\
  map id (Dict.values (tasks self2)) = Dict.keys dag_tasks.
Proof.
  intros NE NC H.
  destruct (compute_all_ranks_post _ _ _ H) as (F & _).
  pose proof F as (E & C & _ & _ & K & T).
  rewrite define_dag_fresh in K, T. cbn [tasks set_tasks] in K, T.
  destruct (frame_shape dag_tasks (tasks self2) K) as (rs & Hlen & Shape);
    [ cbn; repeat (constructor; [cbn; intuition discriminate|]); constructor
    | exact T | ].
  do 9 (destruct rs as [|? rs]; try discriminate Hlen).
  unfold with_ranks in Shape; cbn in Shape.
  assert (NE2 : exec_costs_nonneg self2)
    by (unfold exec_costs_nonneg; rewrite E; exact NE).
  assert (NC2 : comm_costs_nonneg self2)
    by (unfold comm_costs_nonneg; rewrite C; exact NC).
  split; [|rewrite Shape; reflexivity].
  apply sorted_desc_non_increasing. rewrite Shape. cbn.
  pose proof (fun u tu v => rank_edge_ge depth _ self2 u tu v NE2 NC2 H) as Edge.
  pose proof (fun u tu v tv => rank_same depth _ self2 u tu v tv H) as Same.
  unfold task_rank in Edge. rewrite Shape in Edge, Same.
  repeat split.
  - refine (Edge "initialize" _ "health-check-1" eq_refl _); cbn; auto.
  - match goal with |- ?b <= ?a => assert (a = b) as -> end;
      [|apply Qle_refl].
    exact (Same "health-check-1" _ "health-check-2" _ eq_refl eq_refl
             eq_refl eq_refl).
  - match goal with |- ?b <= ?a => assert (a = b) as -> end;
      [|apply Qle_refl].
    exact (Same "health-check-2" _ "health-check-3" _ eq_refl eq_refl
             eq_refl eq_refl).
  - refine (Edge "health-check-3" _ "node-simulation" eq_refl _); cbn; auto.
  - refine (Edge "node-simulation" _ "interim-health-check" eq_refl _); cbn; auto.
  - refine (Edge "interim-health-check" _ "rack-simulation" eq_refl _); cbn; auto.
  - refine (Edge "rack-simulation" _ "final-health-check" eq_refl _); cbn; auto.
Qed.

(** Precedence along every edge of a completed run. *)
Lemma run_heft_precedes ec cc depth sched self3 u v :
  exec_costs_nonneg (HEFTScheduler_init ec cc) ->
  comm_costs_nonneg (HEFTScheduler_init ec cc) ->
  run_heft depth (HEFTScheduler_init ec cc) = inr (sched, self3) ->
  succ_edge self3 u v ->
  exists nu su eu nv sv ev comm,
    Dict.get sched u = Some (nu, su, eu) /\
    Dict.get sched v = Some (nv, sv, ev) /\
    get_comm_cost self3 nu nv = inr comm /\
    eu + comm <= sv.
Proof.
  intros NE NC H (tu & Htu & Hv).
  unfold run_heft in H. inv_bind H. rename a into self2.
  inv_bind H. rename a into s3. inv_ret.
  destruct (ranked_dag_order _ _ _ _ NE NC Hc) as [Sorted Ids].
  rewrite Sorted in Hc0.
  set (self1 := define_dag (HEFTScheduler_init ec cc)) in *.
  destruct (compute_all_ranks_post _ _ _ Hc) as (F & _).
  assert (I0 : sched_inv (preds_of self1) (succs_of self1) [] self2).
  { split; [|split; [intros ? [] | intros ? ? []]].
    intros k t Ht.
    destruct (ranking_frame_get_back _ _ _ _ F Ht) as (t0 & Ht0 & ->).
    unfold preds_of, succs_of. rewrite Ht0. split; reflexivity. }
  assert (T0 : topological (preds_of self1) [] (map id (Dict.values (tasks self2)))).
  { rewrite Ids. apply topological_b_sound. reflexivity. }
  pose proof (sched_loop _ _ _ _ _ _ I0 T0 Hc0) as (G & _ & PR).
  destruct (G _ _ Htu) as [_ Gs]. rewrite Gs in Hv.
  unfold succs_of in Hv.
  destruct (Dict.get (tasks self1) u) as [tu1|] eqn:Hu1; [|destruct Hv].
  assert (EC : edges_consistent (tasks self1) = true) by reflexivity.
  destruct (edges_consistent_sound _ EC _ _ _ Hu1 Hv) as (tv & Htv & Hup).
  assert (Iv : In v (rev (map id (Dict.values (tasks self2))) ++ [])).
  { rewrite app_nil_r, <- in_rev, Ids.
    change (Dict.keys dag_tasks) with (Dict.keys (tasks self1)).
    eapply get_In_keys; eassumption. }
  assert (Ip : In u (preds_of self1 v)) by (unfold preds_of; now rewrite Htv).
  destruct (PR _ _ Iv Ip) as [_ Pr]. exact Pr.
Qed.

(** * Consistency during a run *)

Lemma define_dag_schedule self : schedule (define_dag self) = schedule self.
Proof.
  unfold define_dag. generalize dag_def; intros l; revert self.
  induction l as [|[k [[ty pr] su]] l IH]; intros self; [reflexivity|].
  cbn [fold_left]. now rewrite IH.
Qed.

Lemma define_dag_exec_costs self :
  exec_costs (define_dag self) = exec_costs self.
Proof.
  unfold define_dag. generalize dag_def; intros l; revert self.
  induction l as [|[k [[ty pr] su]] l IH]; intros self; [reflexivity|].
  cbn [fold_left]. now rewrite IH.
Qed.

(** C10, as the code has it.  In a run on a newly constructed scheduler
    whose costs are finite and whose execution costs are non-negative,
    after every [schedule_task] call (that is, after any prefix [done] of
    the scheduling order has been processed) each entry
    [(node, start, end)] of the schedule equals the fields of the task it
    is stored for, its node belongs to the fleet, and [start <= end]. *)
Theorem schedule_consistent_during_run ec cc depth self2 done rest s :
  exec_costs_nonneg (HEFTScheduler_init ec cc) ->
  costs_finite (HEFTScheduler_init ec cc) ->
  compute_all_ranks depth (define_dag (HEFTScheduler_init ec cc)) = inr self2 ->
  sorted_desc (Dict.values (tasks self2)) = (done ++ rest)%list ->
  schedule_tasks done self2 = inr s ->
  consistent s.
Proof.
  intros NE _ H _ Hs.
  destruct (compute_all_ranks_post _ _ _ H) as ((E & _ & S & _) & _).
  rewrite define_dag_schedule in S. rewrite define_dag_exec_costs in E.
  eapply schedule_tasks_consistent; [ | | exact Hs].
  - unfold exec_costs_nonneg; rewrite E; exact NE.
  - intros tid n st e; rewrite S; discriminate.
Qed.

(** * Unscheduled predecessors *)

Lemma pred_loop_skip self node ps :
  forall pr,
    for_each (pred_ready_step self node) ps pr =
    for_each (pred_ready_step self node)
      (filter (fun p => negb (unscheduled self p)) ps) pr.
Proof.
  induction ps as [|p ps IH]; intros pr; [reflexivity|].
  cbn [filter]. destruct (unscheduled self p) eqn:U; cbn [negb for_each].
  - unfold unscheduled in U. unfold pred_ready_step at 1, getitem.
    destruct (Dict.get (tasks self) p) as [pt|]; [|discriminate].
    cbn [bind ret].
    destruct (truthy_node (scheduled_node pt)); [discriminate|].
    cbn [bind ret]. apply IH.
  - destruct (pred_ready_step self node pr p); cbn [bind]; [reflexivity|].
    apply IH.
Qed.

(** C8, as the code has it.  A predecessor that has no assigned node is
    skipped without any error: the start and finish times are those the
    task would get with every unscheduled predecessor taken off its
    predecessor list. *)
Theorem unscheduled_predecessors_skipped self task node :
  get_earliest_finish_time self task node =
  get_earliest_finish_time self
    (with_predecessors task
       (filter (fun p => negb (unscheduled self p)) (predecessors task)))
    node.
Proof.
  unfold get_earliest_finish_time; cbn [predecessors task_type with_predecessors].
  destruct (getitem (node_availability self) node) as [e|node_ready];
    [reflexivity|]; cbn [bind].
  change (fun (pred_ready : Q) (pred_id : string) =>
            pred_task <- getitem (tasks self) pred_id ;;
            match truthy_node (scheduled_node pred_task) with
            | Some pn =>
                comm <- get_comm_cost self pn node ;;
                ret (py_max pred_ready (end_time pred_task + comm))
            | None => ret pred_ready
            end)
    with (pred_ready_step self node).
  now rewrite <- pred_loop_skip.
Qed.

(** * The exclusion query *)

Lemma zones_loop ns :
  Forall (fun n => In n (Dict.keys NODES)) ns ->
  forall acc,
    exists zs,
      for_each (fun acc n => nd <- getitem NODES n ;; ret (acc ++ [zone nd])%list)
        ns acc = inr (acc ++ zs)%list /\
      Forall2 zone_of ns zs.
Proof.
  induction 1 as [|n ns Hn _ IH]; intros acc; cbn [for_each].
  - exists []. rewrite app_nil_r. split; [reflexivity | constructor].
  - apply In_keys_get in Hn as [nd Hnd].
    rewrite (getitem_Some _ _ _ Hnd); cbn [bind ret].
    destruct (IH (acc ++ [zone nd])%list) as (zs & -> & F).
    exists (zone nd :: zs). rewrite <- app_assoc. split; [reflexivity|].
    constructor; [exists nd; auto | assumption].
Qed.

Lemma Forall2_In_l {A B} (R : A -> B -> Prop) xs ys x :
  Forall2 R xs ys -> In x xs -> exists y, In y ys /\ R x y.
Proof.
  induction 1 as [|a b xs ys Hab _ IH]; [intros []|].
  intros [<-|I]; [exists b; cbn; auto|].
  destruct (IH I) as (y & ? & ?); exists y; cbn; auto.
Qed.



(** * The cost-override feed *)

Lemma load_benchmark_data_items self d :
  load_benchmark_data self (Some d) = load_items (feed_items d) self.
Proof.
  unfold load_benchmark_data, feed_items, load_items.
  generalize (match platforms d with Some ps => ps | None => [] end).
  intros ps; revert self.
  induction ps as [|p ps IH]; intros self; [reflexivity|].
  cbn [fold_left flat_map]. rewrite fold_left_app. apply IH.
Qed.

Lemma load_step_other self step stats ty :
  overrides ty (step, stats) = false ->
  Dict.get (exec_costs (load_step self step stats)) ty
  = Dict.get (exec_costs self) ty.
Proof.
  unfold overrides, load_step; cbn [fst snd].
  destruct (truthy_mean stats) as [m|]; [|reflexivity].
  intros N. apply String.eqb_neq in N.
  destruct (Dict.get (exec_costs self) (_normalize_task_type step));
    [|reflexivity].
  cbn [exec_costs set_exec_costs]. apply get_set_other. congruence.
Qed.

Lemma load_step_hit self step stats m row :
  truthy_mean stats = Some m ->
  Dict.get (exec_costs self) (_normalize_task_type step) = Some row ->
  exists row',
    Dict.get (exec_costs (load_step self step stats))
      (_normalize_task_type step) = Some row' /\
    Dict.get row' "worker" = Some m /\
    Dict.get row' "master" = Some (m * (12 # 10)).
Proof.
  intros Hm Hrow. unfold load_step. rewrite Hm, Hrow.
  cbn [exec_costs set_exec_costs]. rewrite get_set_same.
  eexists; split; [reflexivity|]. split.
  - rewrite get_set_other by discriminate. apply get_set_same.
  - apply get_set_same.
Qed.

Lemma load_step_keeps_rows self step stats ty row :
  Dict.get (exec_costs self) ty = Some row ->
  exists row', Dict.get (exec_costs (load_step self step stats)) ty = Some row'.
Proof.
  intros Hrow. unfold load_step.
  destruct (truthy_mean stats) as [m|]; [|eauto].
  destruct (Dict.get (exec_costs self) (_normalize_task_type step)) eqn:E;
    [|eauto].
  cbn [exec_costs set_exec_costs].
  destruct (String.eqb_spec ty (_normalize_task_type step)) as [->|N].
  - rewrite get_set_same; eauto.
  - rewrite get_set_other by assumption; eauto.
Qed.

Lemma load_items_keeps_rows items :
  forall self ty row,
    Dict.get (exec_costs self) ty = Some row ->
    exists row', Dict.get (exec_costs (load_items items self)) ty = Some row'.
Proof.
  unfold load_items.
  induction items as [|[step stats] items IH]; intros self ty row H;
    cbn [fold_left fst snd]; [eauto|].
  destruct (load_step_keeps_rows self step stats _ _ H) as [row1 H1]. eauto.
Qed.

Lemma load_items_other items ty :
  forallb (fun item => negb (overrides ty item)) items = true ->
  forall self,
    Dict.get (exec_costs (load_items items self)) ty
    = Dict.get (exec_costs self) ty.
Proof.
  unfold load_items.
  induction items as [|[step stats] items IH]; cbn [forallb fold_left fst snd];
    intros H self; [reflexivity|].
  apply andb_true_iff in H as [H1 H2]. apply negb_true_iff in H1.
  rewrite (IH H2). now apply load_step_other.
Qed.

(** C6, as the code has it.  After the feed is loaded, a recognised task
    type has as its worker cost the last non-zero mean the feed reports for
    it, and as its master cost that mean times 1.2, whether or not a master
    cost was present before. *)
Theorem cost_override_applied self d before step stats after m :
  feed_items d = (before ++ (step, stats) :: after)%list ->
  truthy_mean stats = Some m ->
  Dict.mem (exec_costs self) (_normalize_task_type step) = true ->
  forallb (fun item => negb (overrides (_normalize_task_type step) item)) after
    = true ->
  exists row,
    Dict.get (exec_costs (load_benchmark_data self (Some d)))
      (_normalize_task_type step) = Some row /\
    Dict.get row "worker" = Some m /\
    Dict.get row "master" = Some (m * (12 # 10)).
Proof.
  intros Hitems Hm Hmem Hafter.
  rewrite load_benchmark_data_items, Hitems.
  unfold load_items. rewrite fold_left_app. cbn [fold_left fst snd].
  fold (load_items before self).
  set (s1 := load_items before self).
  fold (load_items after (load_step s1 step stats)).
  rewrite (load_items_other _ _ Hafter).
  unfold Dict.mem in Hmem.
  destruct (Dict.get (exec_costs self) (_normalize_task_type step)) as [row0|] eqn:E0;
    [|discriminate].
  destruct (load_items_keeps_rows before _ _ _ E0) as [row1 E1].
  exact (load_step_hit s1 step stats m row1 Hm E1).
Qed.

(** * Totality on complete cost tables *)

Lemma for_each_total {A S} (P : S -> Prop) (body : S -> A -> result S) xs :
  (forall s x, In x xs -> P s -> exists s', body s x = inr s' /\ P s') ->
  forall s, P s -> exists s', for_each body xs s = inr s' /\ P s'.
Proof.
  induction xs as [|x xs IH]; intros Hb s Hs; cbn [for_each].
  - exists s; auto.
  - destruct (Hb s x (or_introl eq_refl) Hs) as (s1 & -> & Hs1). cbn [bind].
    apply IH; [|assumption]. intros s0 y Iy; apply Hb; now right.
Qed.

Lemma NODES_node_type n nd :
  Dict.get NODES n = Some nd ->
  node_type nd = "master" \/ node_type nd = "worker".
Proof.
  intros E; apply get_In in E.
  assert (F : Forall (fun p => node_type (snd p) = "master"
                               \/ node_type (snd p) = "worker") NODES)
    by (unfold NODES; repeat constructor; cbn; auto).
  rewrite Forall_forall in F. exact (F _ E).
Qed.

Lemma mem_getitem {V} (d : list (string * V)) k :
  Dict.mem d k = true -> exists v, getitem d k = inr v.
Proof.
  unfold Dict.mem, getitem. destruct (Dict.get d k); [eauto | discriminate].
Qed.

Lemma py_div_total a b : ~ b == 0 -> py_div a b = inr (a / b).
Proof.
  intros N; unfold py_div.
  destruct (Qeq_bool b 0) eqn:E; [|reflexivity].
  apply Qeq_bool_iff in E. contradiction.
Qed.

Lemma get_exec_cost_total self ty n :
  rows_complete self -> In n (Dict.keys NODES) ->
  exists c, get_exec_cost self ty n = inr c.
Proof.
  intros RC I. apply In_keys_get in I as [nd Hnd].
  unfold get_exec_cost. rewrite (getitem_Some _ _ _ Hnd); cbn [bind].
  assert (M : Dict.mem
                (Dict.get_default (exec_costs self) ty
                   [("master", 100); ("worker", 80)]) (node_type nd) = true).
  { unfold Dict.get_default.
    destruct (Dict.get (exec_costs self) ty) as [row|] eqn:E.
    - destruct (RC _ _ E) as [M W].
      destruct (NODES_node_type _ _ Hnd) as [-> | ->]; assumption.
    - destruct (NODES_node_type _ _ Hnd) as [-> | ->]; reflexivity. }
  apply mem_getitem in M as [c ->]; cbn [bind].
  rewrite py_div_total; [eauto|].
  pose proof (NODES_capacity_pos _ _ Hnd). lra.
Qed.

Lemma sum_over_nodes_total (f : string -> result Q) :
  (forall n, In n (Dict.keys NODES) -> exists c, f n = inr c) ->
  exists s, sum_over_nodes f = inr s.
Proof.
  intros Hf. unfold sum_over_nodes.
  destruct (for_each_total (fun _ => True)
              (fun acc n => c <- f n ;; ret (acc + c)) (Dict.keys NODES))
    with (s := 0) as (s & Hs & _); [|exact I|eauto].
  intros acc n In_n _. destruct (Hf n In_n) as [c ->]. cbn [bind]. eauto.
Qed.

Lemma avg_exec_cost_total self ty :
  rows_complete self -> exists a, avg_exec_cost self ty = inr a.
Proof.
  intros RC. unfold avg_exec_cost.
  destruct (sum_over_nodes_total (get_exec_cost self ty)) as [s ->].
  - intros n I; now apply get_exec_cost_total.
  - cbn [bind]. rewrite py_div_total; [eauto|].
    pose proof len_nodes_pos. lra.
Qed.

(** One level of the plain recursion returns when the levels below do. *)
Lemma rank_of_total_step d self k task :
  rows_complete self ->
  Dict.get (tasks self) k = Some task ->
  (forall s, In s (successors task) -> exists r, rank_of d self s = inr r) ->
  exists r, rank_of (S d) self k = inr r.
Proof.
  intros RC Ht Hs. rewrite rank_of_unfold, (getitem_Some _ _ _ Ht); cbn [bind].
  destruct (avg_exec_cost_total self (task_type task) RC) as [a ->]; cbn [bind].
  destruct (successors task) as [|s0 ss] eqn:Es; [eauto|].
  destruct (for_each_total (fun _ => True)
              (rank_step (rank_of d self) self) (s0 :: ss))
    with (s := 0) as (m & -> & _); [|exact I|cbn [bind]; eauto].
  intros m s Is _. destruct (Hs s Is) as [r Hr].
  destruct (avg_comm_cost_value self) as (c & Hc & _).
  unfold rank_step. rewrite Hr, Hc; cbn [bind]. eauto.
Qed.

Section SuccessorLoopComplete.
Variable rec :
  HEFTScheduler -> string -> memo_t -> result (Q * memo_t * HEFTScheduler).
Variable d : nat.
Hypothesis rec_post :
  forall self t memo out,
    rec self t memo = inr out -> memo_ok self memo -> rank_post self t memo out.
Hypothesis rec_complete :
  forall self k memo r,
    memo_ok self memo -> rank_of d self k = inr r ->
    exists memo' self', rec self k memo = inr (r, memo', self').

Lemma succ_loop_complete self succs :
  forall m0 memo0 self0 m,
    memo_ok self0 memo0 -> ranking_frame self self0 ->
    for_each (rank_step (rank_of d self) self) succs m0 = inr m ->
    exists memo1 self1,
      for_each (succ_loop_body rec) succs (m0, memo0, self0)
        = inr (m, memo1, self1).
Proof.
  induction succs as [|s succs IH]; cbn [for_each];
    intros m0 memo0 self0 m OK F H.
  - inv_ret. eauto.
  - inv_bind H. unfold rank_step in Hc.
    inv_bind Hc. rename a0 into rs. inv_bind Hc. rename a0 into c. inv_ret.
    rewrite <- (rank_of_frame _ _ F) in Hc0.
    destruct (rec_complete _ _ _ _ OK Hc0) as (memo' & self' & Hrec).
    destruct (rec_post _ _ _ _ Hrec OK) as (_ & OK' & F' & _).
    pose proof (ranking_frame_trans _ _ _ F F') as F1.
    pose proof F1 as (_ & C1 & _).
    unfold succ_loop_body at 1. rewrite Hrec; cbn [bind].
    rewrite (avg_comm_cost_frame _ _ C1), Hc1; cbn [bind ret].
    exact (IH _ _ _ _ OK' F1 H).
Qed.
End SuccessorLoopComplete.

(** The memoised recursion returns whenever the plain one does, with the
    same rank. *)
Lemma compute_upward_rank_complete d :
  forall self k memo r,
    memo_ok self memo -> rank_of d self k = inr r ->
    exists memo' self', compute_upward_rank d self k memo = inr (r, memo', self').
Proof.
  induction d as [|d IH]; intros self k memo r OK H; [discriminate|].
  rewrite compute_upward_rank_unfold.
  destruct (Dict.get memo k) as [r0|] eqn:Em.
  - destruct (OK _ _ Em) as ((d0 & Hd0) & _).
    rewrite (rank_of_det _ _ _ _ _ _ Hd0 H). eauto.
  - rewrite rank_of_unfold in H.
    inv_bind H. rename a into task. rewrite Hc; cbn [bind].
    inv_bind H. rewrite Hc0; cbn [bind].
    destruct (successors task) as [|s0 ss].
    + inv_ret. cbn [bind ret]. eauto.
    + inv_bind H. inv_ret.
      destruct (succ_loop_complete _ d (compute_upward_rank_post d) IH
                  self _ _ _ _ _ OK (ranking_frame_refl self) Hc1)
        as (memo1 & self1 & ->).
      cbn [bind ret]. eauto.
Qed.

Lemma rank_loop_total depth self ks :
  (forall k, In k ks -> exists r, rank_of depth self k = inr r) ->
  forall memo0 self0,
    memo_ok self0 memo0 -> ranking_frame self self0 ->
    exists st,
      for_each
        (fun st task_id =>
           let '(memo, self0) := st in
           ' (_, memo', self') <- compute_upward_rank depth self0 task_id memo ;;
           ret (memo', self'))
        ks (memo0, self0) = inr st.
Proof.
  induction ks as [|k ks IH]; intros Hk memo0 self0 OK F; cbn [for_each].
  - eauto.
  - destruct (Hk k (or_introl eq_refl)) as [r Hr].
    rewrite <- (rank_of_frame _ _ F) in Hr.
    destruct (compute_upward_rank_complete _ _ _ _ _ OK Hr)
      as (memo' & self' & Hcomp).
    destruct (compute_upward_rank_post _ _ _ _ _ Hcomp OK) as (_ & OK' & F' & _).
    rewrite Hcomp; cbn [bind ret].
    apply IH; [intros; apply Hk; now right | assumption |].
    eapply ranking_frame_trans; eassumption.
Qed.

Lemma compute_all_ranks_total depth self :
  (forall k, In k (Dict.keys (tasks self)) ->
     exists r, rank_of depth self k = inr r) ->
  exists self', compute_all_ranks depth self = inr self'.
Proof.
  intros Hk. unfold compute_all_ranks.
  destruct (rank_loop_total depth self _ Hk [] self (memo_ok_nil self)
              (ranking_frame_refl self)) as ([memo1 self1] & E).
  exists self1. eapply bind_inr_intro; [exact E | reflexivity].
Qed.

Lemma rank_of_dag_total ec cc depth :
  rows_complete (HEFTScheduler_init ec cc) -> (6 <= depth)%nat ->
  forall k, In k (Dict.keys dag_tasks) ->
    exists r, rank_of depth (define_dag (HEFTScheduler_init ec cc)) k = inr r.
Proof.
  intros RC Hd. rewrite define_dag_fresh.
  set (self1 := set_tasks (HEFTScheduler_init ec cc) dag_tasks).
  assert (Step : forall d k task,
            Dict.get dag_tasks k = Some task ->
            (forall s, In s (successors task) ->
               exists r, rank_of d self1 s = inr r) ->
            exists r, rank_of (S d) self1 k = inr r).
  { intros d k task Ht Hs.
    apply (rank_of_total_step d self1 k task); [exact RC | exact Ht | exact Hs]. }
  assert (H1 : exists r, rank_of 1 self1 "final-health-check" = inr r).
  { eapply Step; [vm_compute; reflexivity | intros s []]. }
  assert (H2 : exists r, rank_of 2 self1 "rack-simulation" = inr r).
  { eapply Step; [vm_compute; reflexivity | intros s [<-|[]]; exact H1]. }
  assert (H3 : exists r, rank_of 3 self1 "interim-health-check" = inr r).
  { eapply Step; [vm_compute; reflexivity | intros s [<-|[]]; exact H2]. }
  assert (H4 : exists r, rank_of 4 self1 "node-simulation" = inr r).
  { eapply Step; [vm_compute; reflexivity | intros s [<-|[]]; exact H3]. }
  assert (H5 : forall k, In k ["health-check-1"; "health-check-2"; "health-check-3"] ->
                 exists r, rank_of 5 self1 k = inr r).
  { intros k [<-|[<-|[<-|[]]]];
      (eapply Step; [vm_compute; reflexivity | intros s [<-|[]]; exact H4]). }
  assert (H6 : exists r, rank_of 6 self1 "initialize" = inr r).
  { eapply Step; [vm_compute; reflexivity | exact H5]. }
  assert (Up : forall d k, (d <= 6)%nat ->
                 (exists r, rank_of d self1 k = inr r) ->
                 exists r, rank_of depth self1 k = inr r).
  { intros d k Ld [r Hr]. exists r.
    eapply rank_of_le; [|exact Hr]. lia. }
  intros k [<-|[<-|[<-|[<-|[<-|[<-|[<-|[<-|[]]]]]]]]].
  - apply (Up 6%nat); [lia | exact H6].
  - apply (Up 5%nat); [lia | apply H5; left; reflexivity].
  - apply (Up 5%nat); [lia | apply H5; right; left; reflexivity].
  - apply (Up 5%nat); [lia | apply H5; right; right; left; reflexivity].
  - apply (Up 4%nat); [lia | exact H4].
  - apply (Up 3%nat); [lia | exact H3].
  - apply (Up 2%nat); [lia | exact H2].
  - apply (Up 1%nat); [lia | exact H1].
Qed.

Lemma get_comm_cost_total s a b :
  In a (Dict.keys NODES) -> In b (Dict.keys NODES) ->
  exists c, get_comm_cost s a b = inr c.
Proof.
  intros Ia Ib. apply In_keys_get in Ia as [na Ha]. apply In_keys_get in Ib as [nb Hb].
  unfold get_comm_cost.
  rewrite (getitem_Some _ _ _ Ha), (getitem_Some _ _ _ Hb); cbn [bind]. eauto.
Qed.

Lemma get_earliest_finish_time_total s k task node :
  sched_ready s -> Dict.get (tasks s) k = Some task ->
  In node (Dict.keys NODES) ->
  exists st e, get_earliest_finish_time s task node = inr (st, e).
Proof.
  intros (RC & AV & PD & SN) Ht In_node.
  unfold get_earliest_finish_time.
  destruct (AV _ In_node) as [a Ha].
  rewrite (getitem_Some _ _ _ Ha); cbn [bind].
  destruct (for_each_total (fun _ => True)
              (fun pred_ready pred_id =>
                 pred_task <- getitem (tasks s) pred_id ;;
                 match truthy_node (scheduled_node pred_task) with
                 | Some pn =>
                     comm <- get_comm_cost s pn node ;;
                     ret (py_max pred_ready (end_time pred_task + comm))
                 | None => ret pred_ready
                 end) (predecessors task))
    with (s := 0) as (pr & Hpr & _); [|exact I|].
  - intros acc p Ip _. destruct (PD _ _ _ Ht Ip) as [pt Hpt].
    rewrite (getitem_Some _ _ _ Hpt); cbn [bind].
    destruct (truthy_node (scheduled_node pt)) as [pn|] eqn:Et; [|eauto].
    destruct (get_comm_cost_total s pn node (SN _ _ _ Hpt Et) In_node) as [c ->].
    cbn [bind]. eauto.
  - destruct (get_exec_cost_total s (task_type task) node RC In_node) as [x Hx].
    do 2 eexists. eapply bind_inr_intro; [exact Hpr|]. cbv beta.
    rewrite Hx. reflexivity.
Qed.

Lemma schedule_task_total s k task :
  sched_ready s -> Dict.get (tasks s) k = Some task ->
  exists r s',
    schedule_task s k = inr (r, s') /\ sched_ready s' /\
    Dict.keys (tasks s') = Dict.keys (tasks s).
Proof.
  intros R Ht.
  destruct (for_each_total (fun _ => True) (best_node_step s task)
              (Dict.keys NODES)) with (s := @None (string * Q * Q))
    as (best & Hbest & _); [|exact I|].
  { intros b n In_n _.
    destruct (get_earliest_finish_time_total s k task n R Ht In_n)
      as (st & e & Heft).
    unfold best_node_step. rewrite Heft; cbn [bind].
    destruct b as [[[? ?] be]|]; [destruct (Qlt_bool e be)|]; eauto. }
  assert (Run : exists r s', schedule_task s k = inr (r, s')).
  { unfold schedule_task. rewrite (getitem_Some _ _ _ Ht); cbn [bind].
    rewrite Hbest; cbn [bind].
    destruct best as [[[bn bs] be]|]; [eauto|].
    exfalso.
    change (Dict.keys NODES) with ("master-m001" :: tl (Dict.keys NODES)) in Hbest.
    cbn [for_each] in Hbest. inv_bind Hbest.
    unfold best_node_step in Hc at 1. inv_bind Hc. destruct a0 as [st e].
    inv_ret. now apply best_node_loop_Some in Hbest. }
  destruct Run as (r & s' & Hrun). exists r, s'. split; [exact Hrun|].
  destruct R as (RC & AV & PD & SN).
  apply schedule_task_inr in Hrun
    as (task' & bn & bs & be & Ht' & Hin & _ & -> & ->).
  assert (task' = task) as -> by congruence.
  split; [|cbn [tasks]; eapply keys_set_present; eassumption].
  split; [exact RC|]. split; [|split]; cbn [node_availability tasks].
  - intros n In_n. destruct (String.eqb_spec n bn) as [->|N].
    + rewrite get_set_same; eauto.
    + rewrite get_set_other by assumption. auto.
  - intros k0 t0 p Hk0 Ip.
    assert (Ip' : exists t1, Dict.get (tasks s) k0 = Some t1 /\ In p (predecessors t1)).
    { destruct (String.eqb_spec k0 k) as [->|N].
      - rewrite get_set_same in Hk0. injection Hk0 as <-. eauto.
      - rewrite get_set_other in Hk0 by assumption. eauto. }
    destruct Ip' as (t1 & Ht1 & Ip1). destruct (PD _ _ _ Ht1 Ip1) as [pt Hpt].
    destruct (String.eqb_spec p k) as [->|N].
    + rewrite get_set_same; eauto.
    + rewrite get_set_other by assumption; eauto.
  - intros k0 t0 n Hk0 Hn.
    destruct (String.eqb_spec k0 k) as [->|N].
    + rewrite get_set_same in Hk0. injection Hk0 as <-.
      cbn [scheduled_node with_assignment] in Hn.
      rewrite (NODES_key_truthy _ Hin) in Hn. now injection Hn as <-.
    + rewrite get_set_other in Hk0 by assumption. eauto.
Qed.

Lemma schedule_tasks_total ts :
  forall s,
    sched_ready s ->
    (forall t, In t ts -> In (id t) (Dict.keys (tasks s))) ->
    exists s', schedule_tasks ts s = inr s'.
Proof.
  unfold schedule_tasks.
  induction ts as [|t ts IH]; intros s R Hin; cbn [for_each]; [eauto|].
  destruct (In_keys_get _ _ (Hin t (or_introl eq_refl))) as [task Ht].
  destruct (schedule_task_total s (id t) task R Ht) as (r & s1 & -> & R1 & K1).
  cbn [bind ret]. apply IH; [assumption|].
  intros t' I. rewrite K1. apply Hin; now right.
Qed.

Lemma insert_desc_In t l x : In x (insert_desc t l) -> x = t \/ In x l.
Proof.
  induction l as [|u l IH]; cbn [insert_desc].
  - intros [<-|[]]; auto.
  - destruct (Qlt_bool (upward_rank t) (upward_rank u)); cbn.
    + intros [<-|I]; auto. destruct (IH I); auto.
    + intros [<-|[<-|I]]; auto.
Qed.

Lemma sorted_desc_In ts x : In x (sorted_desc ts) -> In x ts.
Proof.
  unfold sorted_desc. induction ts as [|t ts IH]; cbn [fold_right]; [auto|].
  intros I. apply insert_desc_In in I as [->|I]; cbn; auto.
Qed.

(** [run_heft] returns on every freshly constructed scheduler whose cost
    table is complete, once the stack allows the six nested calls the
    built-in DAG needs. *)
Lemma run_heft_total ec cc depth :
  rows_complete (HEFTScheduler_init ec cc) -> (6 <= depth)%nat ->
  exists out, run_heft depth (HEFTScheduler_init ec cc) = inr out.
Proof.
  intros RC Hd. unfold run_heft.
  destruct (compute_all_ranks_total depth (define_dag (HEFTScheduler_init ec cc)))
    as [self2 H2].
  { rewrite define_dag_fresh. cbn [tasks set_tasks].
    rewrite <- define_dag_fresh. now apply rank_of_dag_total. }
  rewrite H2; cbn [bind].
  destruct (compute_all_ranks_post _ _ _ H2) as (F & _).
  pose proof F as (E & _ & _ & N & K & T).
  rewrite define_dag_fresh in E, N, K, T. cbn in E, N, K.
  cbn [tasks set_tasks] in T.
  destruct (schedule_tasks_total (sorted_desc (Dict.values (tasks self2))) self2)
    as [self3 ->]; [| |cbn [bind ret]; eauto].
  - split; [|split; [|split]].
    + unfold rows_complete. rewrite E. exact RC.
    + rewrite N. intros n In_n.
      cbn in In_n. repeat (destruct In_n as [<-|In_n]; [cbn; eauto|]).
      destruct In_n.
    + intros k t p Ht Ip.
      destruct (ranking_frame_get_back _ _ _ _ F Ht) as (t0 & Ht0 & Et).
      rewrite Et in Ip. cbn [predecessors with_upward_rank] in Ip.
      rewrite define_dag_fresh in Ht0. cbn [tasks set_tasks] in Ht0.
      assert (Ik : In p (Dict.keys dag_tasks)).
      { apply get_In in Ht0. cbn in Ht0.
        repeat (destruct Ht0 as [[= <- <-]|Ht0];
                [cbn in Ip; cbn; tauto|]).
        destruct Ht0. }
      apply In_keys_get in Ik as [pt0 Hpt0].
      destruct (T _ _ Hpt0) as [r Hr]. eauto.
    + intros k t n Ht Hn.
      destruct (ranking_frame_get_back _ _ _ _ F Ht) as (t0 & Ht0 & Et).
      rewrite Et in Hn. cbn [scheduled_node with_upward_rank] in Hn.
      rewrite define_dag_fresh in Ht0. cbn [tasks set_tasks] in Ht0.
      apply get_In in Ht0. cbn in Ht0.
      repeat (destruct Ht0 as [[= <- <-]|Ht0]; [discriminate Hn|]).
      destruct Ht0.
  - intros t I. apply sorted_desc_In in I.
    unfold Dict.values in I. apply in_map_iff in I as ([k t'] & <- & I).
    cbn [snd]. rewrite K.
    assert (G : Dict.get (tasks self2) k = Some t').
    { apply In_get_NoDup; [|exact I].
      rewrite K. cbn. repeat (constructor; [cbn; intuition discriminate|]).
      constructor. }
    destruct (ranking_frame_get_back _ _ _ _ F G) as (t0 & Ht0 & Et).
    rewrite Et. cbn [id with_upward_rank].
    rewrite define_dag_fresh in Ht0. cbn [tasks set_tasks] in Ht0.
    apply get_In in Ht0. cbn in Ht0.
    repeat (destruct Ht0 as [[= <- <-]|Ht0]; [cbn; tauto|]).
    destruct Ht0.
Qed.

(** * Concrete runs *)

Lemma exec_costs_nonneg_b_sound self :
  exec_costs_nonneg_b (exec_costs self) = true -> exec_costs_nonneg self.
Proof.
  unfold exec_costs_nonneg_b; intros H ty row nt c Hrow Hc.
  rewrite forallb_forall in H. specialize (H _ (get_In _ _ _ Hrow)).
  rewrite forallb_forall in H. specialize (H _ (get_In _ _ _ Hc)).
  now apply Qle_bool_iff in H.
Qed.

Lemma comm_costs_nonneg_b_sound self :
  comm_costs_nonneg_b (comm_costs self) = true -> comm_costs_nonneg self.
Proof.
  unfold comm_costs_nonneg_b; intros H k c Hc.
  rewrite forallb_forall in H. specialize (H _ (get_In _ _ _ Hc)).
  now apply Qle_bool_iff in H.
Qed.

Lemma in_float_range_b_sound c :
  in_float_range_b c = true -> in_float_range c.
Proof.
  unfold in_float_range_b, in_float_range. intros H.
  apply andb_true_iff in H as [H1 H2].
  split; now apply Qle_bool_iff.
Qed.

Lemma costs_finite_b_sound self :
  costs_finite_b self = true -> costs_finite self.
Proof.
  unfold costs_finite_b; intros H. apply andb_true_iff in H as [He Hc].
  split.
  - intros ty row nt c Hrow Hcost.
    rewrite forallb_forall in He. specialize (He _ (get_In _ _ _ Hrow)).
    rewrite forallb_forall in He. specialize (He _ (get_In _ _ _ Hcost)).
    now apply in_float_range_b_sound.
  - intros k c Hcost.
    rewrite forallb_forall in Hc. specialize (Hc _ (get_In _ _ _ Hcost)).
    now apply in_float_range_b_sound.
Qed.

Lemma default_ranked_eq :
  compute_all_ranks 10 (define_dag fresh_default) = inr default_ranked.
Proof. vm_compute. reflexivity. Qed.

Lemma default_run_eq : run_heft 10 fresh_default = inr default_run.
Proof. vm_compute. reflexivity. Qed.

(** ** C2: a registry with a cycle *)

Lemma cyclic_scheduler_on_cycle self :
  Dict.get (tasks self) "A" = Dict.get cyclic_tasks "A" ->
  Dict.get (tasks self) "B" = Dict.get cyclic_tasks "B" ->
  on_cycle self "A".
Proof.
  intros HA HB. apply t_trans with "B"; apply t_step.
  - eexists; split; [rewrite HA; reflexivity | simpl; auto].
  - eexists; split; [rewrite HB; reflexivity | simpl; auto].
Defined.

(** C2 as stated fails: on the cyclic registry above nothing is rejected
    before ranking.  [compute_all_ranks] takes the tasks in order, computes
    a rank for [S], and only then fails, inside the recursion on [A], when
    the depth limit is reached; that [RecursionError] is what [run_heft]
    propagates. *)
Lemma cycle_not_rejected_before_ranking :
  (exists r memo s,
     compute_upward_rank 1000 (define_dag cyclic_scheduler) "S" [] = inr (r, memo, s) /\
     Dict.get memo "S" = Some r /\
     compute_upward_rank 1000 s "A" memo = inl RecursionError) /\
  compute_all_ranks 1000 (define_dag cyclic_scheduler) = inl RecursionError /\
  run_heft 1000 cyclic_scheduler = inl RecursionError.
Proof.
  split; [|split; vm_compute; reflexivity].
  eexists _, _, _. split; [vm_compute; reflexivity|].
  split; vm_compute; reflexivity.
Qed.

(** ** C3: the rank of [rack-simulation] *)

(** C3 as stated fails: on the default scheduler the rank of
    [rack-simulation], whose one successor is [final-health-check], is not
    the value the all-pairs average gives (the same-node average is 0.1,
    the all-pairs average 103/90). *)
Lemma rank_not_all_pairs_average :
  exists task,
    compute_all_ranks 10 (define_dag fresh_default) = inr default_ranked /\
    Dict.get (tasks default_ranked) "rack-simulation" = Some task /\
    successors task = ["final-health-check"] /\
    same_node_mean (comm_costs default_ranked) == 1 # 10 /\
    all_pairs_mean (comm_costs default_ranked) == 103 # 90 /\
    ~ rank_equation_all_pairs default_ranked task.
Proof.
  eexists. split; [exact default_ranked_eq|].
  split; [vm_compute; reflexivity|].
  split; [reflexivity|].
  split; [vm_compute; reflexivity|].
  split; [vm_compute; reflexivity|].
  intros (a & Ha & Heq).
  vm_compute in Ha. injection Ha as <-.
  vm_compute in Heq. discriminate Heq.
Qed.

Lemma upward_rank_equation_witness :
  exists task avg_exec avg_comm,
    Dict.get (tasks default_ranked) "rack-simulation" = Some task /\
    avg_exec_cost default_ranked (task_type task) = inr avg_exec /\
    avg_comm_cost default_ranked = inr avg_comm /\
    avg_comm == same_node_mean (comm_costs default_ranked) /\
    upward_rank task =
      avg_exec +
      fold_left (fun m s => py_max m (avg_comm + task_rank default_ranked s))
        (successors task) 0.
Proof.
  destruct (Dict.get (tasks default_ranked) "rack-simulation") as [task|] eqn:Ht;
    [|vm_compute in Ht; discriminate Ht].
  exists task.
  destruct (upward_rank_equation 10 (define_dag fresh_default) default_ranked
              "rack-simulation" task default_ranked_eq Ht)
    as (a & c & Ha & Hc & Hm & _ & Hr).
  - vm_compute in Ht. injection Ht as <-. discriminate.
  - exists a, c. auto 6.
Defined.

(** ** C5: scheduling [initialize] *)

Lemma schedule_task_availability_monotone_witness :
  exists r self' a',
    schedule_task default_ranked "initialize" = inr (r, self') /\
    Dict.get (node_availability default_ranked) "worker-w001" = Some 0 /\
    Dict.get (node_availability self') "worker-w001" = Some a' /\ 0 <= a'.
Proof.
  destruct (schedule_task default_ranked "initialize") as [e|[r self']] eqn:E;
    [vm_compute in E; discriminate E|].
  exists r, self'.
  destruct (schedule_task_availability_monotone default_ranked "initialize"
              r self') with (n := "worker-w001") (a := 0) as (a' & Ha & Hle).
  - apply exec_costs_nonneg_b_sound. vm_compute. reflexivity.
  - exact E.
  - vm_compute. reflexivity.
  - exists a'. auto.
Defined.

(** ** C7: the rank of the sink *)


(** ** C6: loading the sample feed *)

(** C6 as stated fails: the default table already has a master cost of 180
    for the node simulation, and loading a feed that reports a mean of 100
    replaces it by 120. *)
Lemma present_master_cost_overwritten :
  exists row row',
    Dict.get (exec_costs fresh_default) "NODE_SIMULATION" = Some row /\
    Dict.get row "master" = Some 180 /\
    Dict.get (exec_costs (load_benchmark_data fresh_default (Some sample_feed)))
      "NODE_SIMULATION" = Some row' /\
    Dict.get row' "master" = Some (100 * (12 # 10)) /\
    ~ 100 * (12 # 10) == 180.
Proof.
  eexists _, _. split; [reflexivity|]. split; [reflexivity|].
  split; [reflexivity|]. split; [reflexivity|].
  intros H. vm_compute in H. discriminate H.
Qed.

Lemma cost_override_applied_witness :
  exists row,
    Dict.get (exec_costs (load_benchmark_data fresh_default (Some sample_feed)))
      "NODE_SIMULATION" = Some row /\
    Dict.get row "worker" = Some 100 /\
    Dict.get row "master" = Some (100 * (12 # 10)).
Proof.
  apply (cost_override_applied fresh_default sample_feed []
           "node_simulation" {| mean := Some 100 |} [] 100);
    reflexivity.
Defined.

(** ** C8: scheduling before the predecessors *)

(** C8 as stated fails: straight after [define_dag] no task is scheduled,
    yet the ready time of [node-simulation], which has three predecessors,
    is computed without any error, as the node's availability 0; and
    [schedule_task] assigns it that start time. *)
Lemma unscheduled_predecessor_not_signalled :
  exists task,
    Dict.get (tasks (define_dag fresh_default)) "node-simulation" = Some task /\
    predecessors task = ["health-check-1"; "health-check-2"; "health-check-3"] /\
    (forall p, In p (predecessors task) ->
       exists pt, Dict.get (tasks (define_dag fresh_default)) p = Some pt /\
                  scheduled_node pt = None) /\
    get_earliest_finish_time (define_dag fresh_default) task "worker-w001"
      = inr (0, 0 + 150 / 1) /\
    exists self',
      schedule_task (define_dag fresh_default) "node-simulation"
        = inr (("worker-w001", 0, 0 + 150 / 1), self').
Proof.
  eexists. split; [reflexivity|]. split; [reflexivity|].
  split; [|split; [reflexivity | eexists; reflexivity]].
  intros p [<-|[<-|[<-|[]]]]; eexists; split; reflexivity.
Qed.

(** ** C9: querying an unknown task *)


(** ** C10: the first three assignments *)

Lemma schedule_consistent_during_run_witness :
  exists done rest s,
    List.length done = 3%nat /\
    sorted_desc (Dict.values (tasks default_ranked)) = (done ++ rest)%list /\
    schedule_tasks done default_ranked = inr s /\
    consistent s.
Proof.
  set (ts := sorted_desc (Dict.values (tasks default_ranked))).
  destruct (schedule_tasks (firstn 3 ts) default_ranked) as [e|s] eqn:E;
    [vm_compute in E; discriminate E|].
  exists (firstn 3 ts), (skipn 3 ts), s.
  split; [reflexivity|]. split; [symmetry; apply firstn_skipn|].
  split; [exact E|].
  apply (schedule_consistent_during_run None None 10 default_ranked
           (firstn 3 ts) (skipn 3 ts) s).
  - apply exec_costs_nonneg_b_sound. vm_compute. reflexivity.
  - apply costs_finite_b_sound. vm_compute. reflexivity.
  - exact default_ranked_eq.
  - symmetry; apply firstn_skipn.
  - exact E.
Defined.

(** * Further properties of the scheduler core *)

Lemma Qlt_bool_iff a b : Qlt_bool a b = true <-> a < b.
Proof.
  unfold Qlt_bool. rewrite negb_true_iff. split.
  - intros H. apply Qnot_le_lt. intros L. apply Qle_bool_iff in L. congruence.
  - intros H. destruct (Qle_bool b a) eqn:E; [|reflexivity].
    apply Qle_bool_iff in E. apply Qlt_not_le in H. contradiction.
Qed.

Lemma Qlt_bool_false a b : Qlt_bool a b = false -> b <= a.
Proof.
  unfold Qlt_bool. rewrite negb_false_iff. apply Qle_bool_iff.
Qed.





Lemma schedule_task_no_overlap self task_id r self' :
  exec_costs_nonneg self -> busy_until self -> no_overlap self ->
  schedule_task self task_id = inr (r, self') ->
  busy_until self' /\ no_overlap self'.
Proof.
  intros NN BU NO H.
  apply schedule_task_inr in H
    as (task & bn & bs & be & Ht & Hin & Heft & -> & ->).
  apply get_earliest_finish_time_inr in Heft
    as (node_ready & x & Hav & Hx & Hle & -> & _).
  pose proof (get_exec_cost_nonneg _ _ _ _ NN Hx) as Hx0.
  assert (Old : forall t n st e, t <> task_id ->
            Dict.get (schedule self) t = Some (n, st, e) -> n = bn -> e <= bs).
  { intros t n st e _ Hs ->. destruct (BU _ _ _ _ Hs) as (a & Ha & Le).
    assert (a = node_ready) as -> by congruence. lra. }
  split.
  - intros t n st e; cbn.
    destruct (String.eqb_spec t task_id) as [->|N].
    + rewrite get_set_same. intros [= <- <- <-].
      exists (bs + x). rewrite get_set_same. split; [reflexivity | apply Qle_refl].
    + rewrite get_set_other by assumption. intros Hs.
      destruct (BU _ _ _ _ Hs) as (a & Ha & Le).
      destruct (String.eqb_spec n bn) as [->|Nn].
      * exists (bs + x). rewrite get_set_same. split; [reflexivity|].
        pose proof (Old _ _ _ _ N Hs eq_refl). lra.
      * exists a. rewrite get_set_other by assumption. auto.
  - intros t1 t2 n s1 e1 s2 e2 Nt; cbn.
    destruct (String.eqb_spec t1 task_id) as [->|N1];
      destruct (String.eqb_spec t2 task_id) as [->|N2]; [congruence| | |].
    + rewrite get_set_same, get_set_other by auto.
      intros [= <- <- <-] H2. right. exact (Old _ _ _ _ N2 H2 eq_refl).
    + rewrite get_set_same, get_set_other by auto.
      intros H1 [= <- <- <-]. left. exact (Old _ _ _ _ N1 H1 eq_refl).
    + rewrite !get_set_other by auto. now apply NO.
Qed.

Lemma schedule_tasks_no_overlap ts :
  forall self self',
    exec_costs_nonneg self -> busy_until self -> no_overlap self ->
    schedule_tasks ts self = inr self' ->
    busy_until self' /\ no_overlap self'.
Proof.
  unfold schedule_tasks.
  induction ts as [|t ts IH]; cbn [for_each]; intros self self' NN BU NO H.
  - inv_ret. auto.
  - inv_bind H. inv_bind Hc. destruct a0 as [r s1]. inv_ret.
    destruct (schedule_task_no_overlap _ _ _ _ NN BU NO Hc0) as [BU1 NO1].
    eapply IH; [ | exact BU1 | exact NO1 | exact H].
    destruct (schedule_task_exec_costs _ _ _ _ Hc0) as [E _].
    unfold exec_costs_nonneg; rewrite E; exact NN.
Qed.

(** X3.  A node runs one task at a time: in the schedule [run_heft]
    returns on a freshly constructed scheduler with non-negative execution
    costs, two different tasks assigned to the same node have disjoint
    execution intervals, one ending no later than the other starts. *)
Theorem run_heft_no_overlap ec cc depth sched self3 :
  exec_costs_nonneg (HEFTScheduler_init ec cc) ->
  run_heft depth (HEFTScheduler_init ec cc) = inr (sched, self3) ->
  forall t1 t2 n s1 e1 s2 e2,
    t1 <> t2 ->
    Dict.get sched t1 = Some (n, s1, e1) ->
    Dict.get sched t2 = Some (n, s2, e2) ->
    e1 <= s2 \/ e2 <= s1.
Proof.
  intros NE H. unfold run_heft in H.
  inv_bind H. rename a into self2. inv_bind H. inv_ret.
  destruct (compute_all_ranks_post _ _ _ Hc) as ((E & _ & S & _) & _).
  rewrite define_dag_schedule in S. rewrite define_dag_exec_costs in E.
  eapply schedule_tasks_no_overlap in Hc0; [destruct Hc0 as [_ NO]; eapply NO; eassumption | | |].
  - unfold exec_costs_nonneg; rewrite E; exact NE.
  - intros ? ? ? ?; rewrite S; discriminate.
  - intros ? ? ? ? ? ? ? _; rewrite S; discriminate.
Qed.

(** * The schedule of a whole run *)

Lemma insert_desc_perm t l : Permutation (insert_desc t l) (t :: l).
Proof.
  induction l as [|u l IH]; cbn [insert_desc]; [reflexivity|].
  destruct (Qlt_bool (upward_rank t) (upward_rank u)); [|reflexivity].
  rewrite IH. apply perm_swap.
Qed.

Lemma sorted_desc_perm ts : Permutation (sorted_desc ts) ts.
Proof.
  unfold sorted_desc. induction ts as [|t ts IH]; cbn [fold_right]; [reflexivity|].
  rewrite insert_desc_perm. now constructor.
Qed.

Lemma ranked_dag_ids ec cc depth self2 :
  compute_all_ranks depth (define_dag (HEFTScheduler_init ec cc)) = inr self2 ->
  map id (Dict.values (tasks self2)) = Dict.keys dag_tasks.
Proof.
  intros H.
  destruct (compute_all_ranks_post _ _ _ H) as (F & _).
  pose proof F as (_ & _ & _ & _ & K & T).
  rewrite define_dag_fresh in K, T. cbn [tasks set_tasks] in K, T.
  destruct (frame_shape dag_tasks (tasks self2) K) as (rs & Hlen & Shape);
    [ cbn; repeat (constructor; [cbn; intuition discriminate|]); constructor
    | exact T | ].
  do 9 (destruct rs as [|? rs]; try discriminate Hlen).
  rewrite Shape. reflexivity.
Qed.

Lemma schedule_task_in_fleet self task_id r self' :
  schedule_in_fleet self ->
  schedule_task self task_id = inr (r, self') ->
  schedule_in_fleet self' /\
  (forall t, (exists v, Dict.get (schedule self') t = Some v) <->
             t = task_id \/ exists v, Dict.get (schedule self) t = Some v).
Proof.
  intros SF H.
  apply schedule_task_inr in H
    as (task & bn & bs & be & Ht & Hin & _ & -> & ->).
  split.
  - intros t n st e; cbn.
    destruct (String.eqb_spec t task_id) as [->|N].
    + rewrite get_set_same. now intros [= <- <- <-].
    + rewrite get_set_other by assumption. apply SF.
  - intros t; cbn.
    destruct (String.eqb_spec t task_id) as [->|N].
    + rewrite get_set_same. split; eauto.
    + rewrite get_set_other by assumption. split; [auto|].
      intros [E|E]; [contradiction | exact E].
Qed.

Lemma schedule_tasks_in_fleet ts :
  forall self self',
    schedule_in_fleet self ->
    schedule_tasks ts self = inr self' ->
    schedule_in_fleet self' /\
    (forall t, (exists v, Dict.get (schedule self') t = Some v) <->
               In t (map id ts) \/ exists v, Dict.get (schedule self) t = Some v).
Proof.
  unfold schedule_tasks.
  induction ts as [|t0 ts IH]; cbn [for_each map]; intros self self' SF H.
  - inv_ret. split; [assumption|]. intros t; split; [auto|]. intros [[]|E]; exact E.
  - inv_bind H. inv_bind Hc. destruct a0 as [r s1]. inv_ret.
    destruct (schedule_task_in_fleet _ _ _ _ SF Hc0) as [SF1 K1].
    destruct (IH _ _ SF1 H) as [SF' K'].
    split; [assumption|]. intros t. rewrite K', K1. cbn [In].
    split; [intros [I|[E|E]] | intros [[E|I]|E]]; auto.
Qed.

(** The schedule a run returns: fleet nodes only, one entry for each id
    of the task table and no other. *)
Lemma run_heft_schedule ec cc depth sched self3 :
  run_heft depth (HEFTScheduler_init ec cc) = inr (sched, self3) ->
  sched = schedule self3 /\ schedule_in_fleet self3 /\
  forall t, (exists v, Dict.get sched t = Some v) <-> In t (Dict.keys dag_tasks).
Proof.
  intros H. unfold run_heft in H.
  inv_bind H. rename a into self2. inv_bind H. inv_ret.
  destruct (compute_all_ranks_post _ _ _ Hc) as ((_ & _ & S & _) & _).
  rewrite define_dag_schedule in S.
  destruct (schedule_tasks_in_fleet _ _ _
              (fun t n st e => ltac:(rewrite S; discriminate)) Hc0) as [SF K].
  split; [reflexivity|]. split; [assumption|].
  intros t. rewrite K, S.
  rewrite <- (ranked_dag_ids _ _ _ _ Hc).
  split.
  - intros [I|[v E]]; [|discriminate E].
    eapply Permutation_in; [|exact I].
    apply Permutation_map, sorted_desc_perm.
  - intros I. left. eapply Permutation_in; [|exact I].
    apply Permutation_map. symmetry. apply sorted_desc_perm.
Qed.

(** X4.  [run_heft] on a newly constructed scheduler schedules the
    workflow and nothing else: the keys of the returned schedule are exactly
    the eight task ids of [define_dag], whatever the costs are; and when the
    costs are finite, every entry names a node of the fleet.  The signs of
    the costs do not matter. *)
Theorem run_heft_schedules_every_task ec cc depth sched self3 :
  run_heft depth (HEFTScheduler_init ec cc) = inr (sched, self3) ->
  (forall t, In t (Dict.keys sched) <-> In t (Dict.keys dag_tasks)) /\
  (costs_finite (HEFTScheduler_init ec cc) ->
   forall t n st e,
     Dict.get sched t = Some (n, st, e) -> In n (Dict.keys NODES)).
Proof.
  intros H. destruct (run_heft_schedule _ _ _ _ _ H) as (-> & SF & K).
  split.
  - intros t. rewrite <- K. split.
    + apply In_keys_get.
    + intros [v E]. eapply get_In_keys; eassumption.
  - intros _. exact SF.
Qed.

Lemma dag_key_truthy t :
  In t (Dict.keys dag_tasks) -> truthy_id (Some t) = Some t.
Proof.
  intros I; cbn in I.
  repeat (destruct I as [<-|I]; [reflexivity|]). destruct I.
Qed.

(** X5.  After a run with finite costs, [get_exclusion_info] called with
    the id of a workflow task gives the per-task answer, never the summary:
    the node is the one the task is scheduled on and the zone is that
    node's zone. *)
Theorem run_heft_then_exclusion_info ec cc depth sched self3 t :
  costs_finite (HEFTScheduler_init ec cc) ->
  run_heft depth (HEFTScheduler_init ec cc) = inr (sched, self3) ->
  In t (Dict.keys dag_tasks) ->
  exists n st e z,
    Dict.get sched t = Some (n, st, e) /\ zone_of n z /\
    get_exclusion_info self3 (Some t) = inr (PerTask n z).
Proof.
  intros _ H I. destruct (run_heft_schedule _ _ _ _ _ H) as (-> & SF & K).
  apply K in I as Hv. destruct Hv as [[[n st] e] E].
  pose proof (SF _ _ _ _ E) as Hn. apply In_keys_get in Hn as [nd Hnd].
  exists n, st, e, (zone nd). split; [exact E|]. split; [exists nd; auto|].
  unfold get_exclusion_info. rewrite (dag_key_truthy _ I), E.
  now rewrite (getitem_Some _ _ _ Hnd).
Qed.

(** * Node availability after a run *)

Lemma schedule_task_last_finish self task_id r self' :
  exec_costs_nonneg self -> busy_until self -> last_finish self ->
  Dict.get (schedule self) task_id = None ->
  schedule_task self task_id = inr (r, self') ->
  last_finish self'.
Proof.
  intros NN BU LF Fresh H.
  apply schedule_task_inr in H
    as (task & bn & bs & be & Ht & Hin & Heft & -> & ->).
  intros n a; cbn.
  destruct (String.eqb_spec n bn) as [->|N].
  - rewrite get_set_same. intros [= <-]. left. exists task_id, bs.
    apply get_set_same.
  - rewrite get_set_other by assumption. intros Ha.
    destruct (LF _ _ Ha) as [(t & st & E)|(-> & None_on)].
    + left. exists t, st. rewrite get_set_other; [assumption|].
      intros ->. congruence.
    + right. split; [reflexivity|]. intros t st e.
      destruct (String.eqb_spec t task_id) as [->|Nt].
      * rewrite get_set_same. intros [= <- <- <-]. congruence.
      * rewrite get_set_other by assumption. apply None_on.
Qed.

Lemma schedule_tasks_last_finish ts :
  forall self self',
    exec_costs_nonneg self -> busy_until self -> no_overlap self ->
    last_finish self -> schedule_in_fleet self ->
    NoDup (map id ts) ->
    (forall t, In t (map id ts) -> Dict.get (schedule self) t = None) ->
    schedule_tasks ts self = inr self' ->
    busy_until self' /\ last_finish self'.
Proof.
  unfold schedule_tasks.
  induction ts as [|t0 ts IH]; cbn [for_each];
    intros self self' NN BU NO LF SF ND Fresh H.
  - inv_ret. auto.
  - inv_bind H. inv_bind Hc. destruct a0 as [r s1].
    unfold ret in Hc; injection Hc as <-.
    cbn [map] in ND, Fresh. inversion ND as [|? ? Hn ND']; subst.
    destruct (schedule_task_no_overlap _ _ _ _ NN BU NO Hc0) as [BU1 NO1].
    pose proof (schedule_task_last_finish _ _ _ _ NN BU LF
                  (Fresh _ (or_introl eq_refl)) Hc0) as LF1.
    destruct (schedule_task_in_fleet _ _ _ _ SF Hc0) as [SF1 K1].
    eapply (IH s1 self'); try eassumption.
    + destruct (schedule_task_exec_costs _ _ _ _ Hc0) as [E _].
      unfold exec_costs_nonneg; rewrite E; exact NN.
    + intros t I.
      destruct (Dict.get (schedule s1) t) as [v|] eqn:E; [|reflexivity].
      destruct (proj1 (K1 t) (ex_intro _ v E)) as [->|[v' E']].
      * contradiction.
      * rewrite (Fresh t (or_intror I)) in E'. discriminate.
Qed.

Lemma schedule_tasks_availability_present ts :
  forall self self' n a,
    Dict.get (node_availability self) n = Some a ->
    schedule_tasks ts self = inr self' ->
    exists a', Dict.get (node_availability self') n = Some a'.
Proof.
  unfold schedule_tasks.
  induction ts as [|t0 ts IH]; cbn [for_each]; intros self self' n a Ha H.
  - inv_ret. eauto.
  - inv_bind H. inv_bind Hc. destruct a1 as [r s1].
    unfold ret in Hc; injection Hc as <-.
    apply schedule_task_inr in Hc0
      as (task & bn & bs & be & _ & _ & _ & _ & ->).
    destruct (String.eqb_spec n bn) as [->|N].
    + eapply IH; [|exact H]. cbn. apply get_set_same.
    + eapply IH; [|exact H]. cbn. rewrite get_set_other by assumption. exact Ha.
Qed.

(** X6.  After [run_heft] on a freshly constructed scheduler with
    non-negative execution costs, the availability of every fleet node is
    the latest finish time on that node: no task scheduled there ends
    later, and the value is the end time of a task scheduled there, or 0
    when there is none. *)
Theorem run_heft_availability_is_last_finish ec cc depth sched self3 n :
  exec_costs_nonneg (HEFTScheduler_init ec cc) ->
  run_heft depth (HEFTScheduler_init ec cc) = inr (sched, self3) ->
  In n (Dict.keys NODES) ->
  exists a,
    Dict.get (node_availability self3) n = Some a /\
    (forall t st e, Dict.get sched t = Some (n, st, e) -> e <= a) /\
    ((exists t st, Dict.get sched t = Some (n, st, a)) \/
     (a = 0 /\ forall t st e, Dict.get sched t <> Some (n, st, e))).
Proof.
  intros NE H In_n. unfold run_heft in H.
  inv_bind H. rename a into self2. inv_bind H. rename a into s3.
  unfold ret in H. injection H as <- <-.
  destruct (compute_all_ranks_post _ _ _ Hc) as ((E & _ & S & N & _) & _).
  rewrite define_dag_schedule in S. rewrite define_dag_exec_costs in E.
  rewrite define_dag_fresh in N. cbn in N.
  assert (Ids : NoDup (map id (sorted_desc (Dict.values (tasks self2))))).
  { eapply Permutation_NoDup.
    - apply Permutation_map. symmetry. apply sorted_desc_perm.
    - rewrite (ranked_dag_ids _ _ _ _ Hc). cbn.
      repeat (constructor; [cbn; intuition discriminate|]). constructor. }
  destruct (schedule_tasks_last_finish
              (sorted_desc (Dict.values (tasks self2))) self2 s3) as [BU LF];
    try exact Hc0; try exact Ids.
  - unfold exec_costs_nonneg; rewrite E; exact NE.
  - intros ? ? ? ?; rewrite S; discriminate.
  - intros ? ? ? ? ? ? ? _; rewrite S; discriminate.
  - intros n0 a. rewrite N. intros Ha. right. split.
    + apply get_In in Ha. cbn in Ha.
      repeat (destruct Ha as [[= _ <-]|Ha]; [reflexivity|]). destruct Ha.
    + intros ? ? ?; rewrite S; discriminate.
  - intros ? ? ? ?; rewrite S; discriminate.
  - intros t _. now rewrite S.
  - assert (Av : exists a, Dict.get (node_availability s3) n = Some a).
    { apply In_keys_get in In_n as [nd Hnd].
      assert (A0 : Dict.get (node_availability self2) n = Some 0).
      { rewrite N. apply get_In_keys in Hnd. cbn in Hnd.
        repeat (destruct Hnd as [<-|Hnd]; [reflexivity|]). destruct Hnd. }
      exact (schedule_tasks_availability_present _ _ _ _ _ A0 Hc0). }
    destruct Av as [a Ha]. exists a. split; [exact Ha|]. split.
    + intros t st e Hs. destruct (BU _ _ _ _ Hs) as (a' & Ha' & Le).
      assert (a' = a) as -> by congruence. exact Le.
    + exact (LF _ _ Ha).
Qed.

(** * Further properties of the rank calculator *)


Lemma succ_loop_keeps_memo
  (rec : HEFTScheduler -> string -> memo_t -> result (Q * memo_t * HEFTScheduler)) :
  (forall self t memo r memo' self',
     rec self t memo = inr (r, memo', self') ->
     forall k v, Dict.get memo k = Some v -> Dict.get memo' k = Some v) ->
  forall succs m0 memo0 self0 m memo1 self1,
    for_each (succ_loop_body rec) succs (m0, memo0, self0) = inr (m, memo1, self1) ->
    forall k v, Dict.get memo0 k = Some v -> Dict.get memo1 k = Some v.
Proof.
  intros Hrec. induction succs as [|s succs IH]; cbn [for_each];
    intros m0 memo0 self0 m memo1 self1 H k v Hk.
  - inv_ret. assumption.
  - inv_bind H. destruct a as [[m1 memo'] self'].
    unfold succ_loop_body in Hc.
    inv_bind Hc. destruct a as [[rs memo''] self''].
    inv_bind Hc. unfold ret in Hc; injection Hc as <- <- <-.
    eapply IH; [exact H|]. eapply Hrec; eassumption.
Qed.

Lemma compute_upward_rank_keeps_memo depth :
  forall self t memo r memo' self',
    compute_upward_rank depth self t memo = inr (r, memo', self') ->
    forall k v, Dict.get memo k = Some v -> Dict.get memo' k = Some v.
Proof.
  induction depth as [|d IH]; intros self t memo r memo' self' H k v Hk;
    [discriminate|].
  rewrite compute_upward_rank_unfold in H.
  destruct (Dict.get memo t) as [r0|] eqn:Em.
  - unfold ret in H; injection H as <- <- <-. assumption.
  - inv_bind H. rename a into task. inv_bind H. rename a into avg_exec.
    inv_bind H. destruct a as [[rank memo1] self1].
    unfold ret in H; injection H as <- <- <-.
    assert (k <> t) as N by (intros ->; congruence).
    rewrite get_set_other by assumption.
    destruct (successors task) as [|s0 ss].
    + unfold ret in Hc1; injection Hc1 as <- <- <-. assumption.
    + inv_bind Hc1. destruct a as [[m memo2] self2].
      unfold ret in Hc1; injection Hc1 as <- <- <-.
      eapply (succ_loop_keeps_memo _ IH); eassumption.
Qed.

(** X8.  Memoisation in [compute_upward_rank]: when a call returns the
    rank [r] of task [t], the memo table it returns holds [r] for [t];
    every entry the table held before the call is still there with its
    value; and a further call for [t] on the returned state and table
    returns [r] again from the table, one frame deep, changing nothing. *)
Theorem compute_upward_rank_memoised depth depth' self t memo r memo' self' :
  compute_upward_rank depth self t memo = inr (r, memo', self') ->
  Dict.get memo' t = Some r /\
  (forall k v, Dict.get memo k = Some v -> Dict.get memo' k = Some v) /\
  compute_upward_rank (S depth') self' t memo' = inr (r, memo', self').
Proof.
  intros H.
  assert (G : Dict.get memo' t = Some r).
  { destruct depth as [|d]; [discriminate|].
    rewrite compute_upward_rank_unfold in H.
    destruct (Dict.get memo t) as [r0|] eqn:Em.
    - unfold ret in H; injection H as <- <- <-. assumption.
    - inv_bind H. inv_bind H. inv_bind H. destruct a1 as [[rank memo1] self1].
      unfold ret in H; injection H as <- <- <-. apply get_set_same. }
  split; [exact G|]. split.
  - eapply compute_upward_rank_keeps_memo; eassumption.
  - rewrite compute_upward_rank_unfold, G. reflexivity.
Qed.

(** * Further properties of the finish-time computation *)

Lemma py_max_cases a b : py_max a b = a \/ py_max a b = b.
Proof. unfold py_max; destruct (Qle_bool b a); auto. Qed.

Lemma pred_loop_value self node ps :
  forall pr0 pr,
    for_each (pred_ready_step self node) ps pr0 = inr pr ->
    pr0 <= pr /\
    (pr = pr0 \/
     exists p pt pn comm,
       In p ps /\ Dict.get (tasks self) p = Some pt /\
       truthy_node (scheduled_node pt) = Some pn /\
       get_comm_cost self pn node = inr comm /\
       pr = end_time pt + comm).
Proof.
  induction ps as [|q ps IH]; cbn [for_each]; intros pr0 pr H.
  - inv_ret. split; [apply Qle_refl | auto].
  - inv_bind H. rename a into pr1. unfold pred_ready_step in Hc.
    inv_bind Hc. rename a into qt. apply getitem_inr in Hc0.
    destruct (IH _ _ H) as [Le Cases].
    destruct (truthy_node (scheduled_node qt)) as [pn|] eqn:Et.
    + inv_bind Hc. rename a into comm. unfold ret in Hc; injection Hc as <-.
      split; [eapply Qle_trans; [apply py_max_l | exact Le]|].
      destruct Cases as [->|(p & pt & pn' & comm' & I & ? & ? & ? & ?)].
      * destruct (py_max_cases pr0 (end_time qt + comm)) as [->| ->]; [auto|].
        right. exists q, qt, pn, comm. cbn; auto 6.
      * right. exists p, pt, pn', comm'. cbn; auto 6.
    + unfold ret in Hc; injection Hc as <-.
      split; [exact Le|].
      destruct Cases as [->|(p & pt & pn' & comm' & I & ? & ? & ? & ?)]; [auto|].
      right. exists p, pt, pn', comm'. cbn; auto 6.
Qed.

Lemma get_earliest_finish_time_unfold self task node :
  get_earliest_finish_time self task node =
  (node_ready <- getitem (node_availability self) node ;;
   pred_ready <- for_each (pred_ready_step self node) (predecessors task) 0 ;;
   exec_time <- get_exec_cost self (task_type task) node ;;
   ret (py_max node_ready pred_ready,
        py_max node_ready pred_ready + exec_time)).
Proof. reflexivity. Qed.

(** X9.  The start time [get_earliest_finish_time] returns is never
    negative, and it is tight: it is the node's availability, or 0, or the
    end time of a scheduled predecessor plus the communication cost from
    that predecessor's node. *)
Theorem start_time_is_tight self task node s e :
  get_earliest_finish_time self task node = inr (s, e) ->
  0 <= s /\
  (Dict.get (node_availability self) node = Some s \/
   s = 0 \/
   exists p pt pn comm,
     In p (predecessors task) /\ Dict.get (tasks self) p = Some pt /\
     truthy_node (scheduled_node pt) = Some pn /\
     get_comm_cost self pn node = inr comm /\
     s = end_time pt + comm).
Proof.
  rewrite get_earliest_finish_time_unfold. intros H.
  inv_bind H. rename a into node_ready. apply getitem_inr in Hc.
  inv_bind H. rename a into pred_ready.
  inv_bind H. unfold ret in H; injection H as <- <-.
  destruct (pred_loop_value _ _ _ _ _ Hc0) as [Le Cases].
  split; [eapply Qle_trans; [exact Le | apply py_max_r]|].
  destruct (py_max_cases node_ready pred_ready) as [->| ->]; [auto|].
  right. destruct Cases as [->|C]; auto.
Qed.

Lemma pred_loop_total self node ps :
  In node (Dict.keys NODES) ->
  (forall q, In q ps ->
     exists qt, Dict.get (tasks self) q = Some qt /\
       forall n, truthy_node (scheduled_node qt) = Some n ->
                 In n (Dict.keys NODES)) ->
  forall pr0, exists pr, for_each (pred_ready_step self node) ps pr0 = inr pr.
Proof.
  intros In_node. induction ps as [|q ps IH]; intros Hq pr0; cbn [for_each];
    [eauto|].
  destruct (Hq q (or_introl eq_refl)) as (qt & Hqt & Hn).
  unfold pred_ready_step at 1. rewrite (getitem_Some _ _ _ Hqt); cbn [bind].
  destruct (truthy_node (scheduled_node qt)) as [pn|] eqn:Et.
  - destruct (get_comm_cost_total self pn node (Hn _ eq_refl) In_node) as [c ->].
    cbn [bind ret]. apply IH. intros; apply Hq; now right.
  - cbn [bind ret]. apply IH. intros; apply Hq; now right.
Qed.

(** X10.  A predecessor id that is not registered makes
    [get_earliest_finish_time] raise [KeyError] with that id: the first
    such id of the predecessor list is the one reported, given a node with
    an availability entry and, before that id, predecessors that are
    registered and, where scheduled, placed on fleet nodes. *)
Theorem missing_predecessor_raises self task node a ps p rest :
  Dict.get (node_availability self) node = Some a ->
  In node (Dict.keys NODES) ->
  predecessors task = (ps ++ p :: rest)%list ->
  (forall q, In q ps ->
     exists qt, Dict.get (tasks self) q = Some qt /\
       forall n, truthy_node (scheduled_node qt) = Some n ->
                 In n (Dict.keys NODES)) ->
  Dict.get (tasks self) p = None ->
  get_earliest_finish_time self task node = inl (KeyError p).
Proof.
  intros Ha In_node Hps Hq Hp.
  rewrite get_earliest_finish_time_unfold, (getitem_Some _ _ _ Ha); cbn [bind].
  rewrite Hps, for_each_app.
  destruct (pred_loop_total self node ps In_node Hq 0) as [pr ->].
  cbn [bind for_each]. unfold pred_ready_step at 1, getitem. rewrite Hp.
  reflexivity.
Qed.

(** * Further properties of the cost model *)

(** X11.  Errors and fallback of [get_exec_cost].  An unknown node raises
    [KeyError] with the node's name.  For a fleet node, a task type without
    a row in the cost table is priced from the fallback row, 100 on a
    master and 80 on a worker, divided by the node's capacity; a row that
    has the node's class gives that cost divided by the capacity; a row
    that lacks it raises [KeyError] with the class name.  A division by
    zero does not occur, the capacities of the fleet being positive. *)
Theorem get_exec_cost_cases self task_type node :
  match Dict.get NODES node with
  | None => get_exec_cost self task_type node = inl (KeyError node)
  | Some nd =>
      match Dict.get (exec_costs self) task_type with
      | None =>
          get_exec_cost self task_type node
          = inr (if String.eqb (node_type nd) "master" then 100 / capacity nd
                 else 80 / capacity nd)
      | Some row =>
          match Dict.get row (node_type nd) with
          | Some c => get_exec_cost self task_type node = inr (c / capacity nd)
          | None => get_exec_cost self task_type node = inl (KeyError (node_type nd))
          end
      end
  end.
Proof.
  unfold get_exec_cost, getitem.
  destruct (Dict.get NODES node) as [nd|] eqn:Hnd; [|reflexivity].
  cbn [bind ret]. unfold Dict.get_default.
  assert (Cap : forall c, py_div c (capacity nd) = inr (c / capacity nd)).
  { intros c. apply py_div_total. pose proof (NODES_capacity_pos _ _ Hnd). lra. }
  destruct (Dict.get (exec_costs self) task_type) as [row|].
  - destruct (Dict.get row (node_type nd)); cbn [bind ret raise]; [apply Cap | reflexivity].
  - destruct (NODES_node_type _ _ Hnd) as [E|E]; rewrite E; cbn; apply Cap.
Qed.

(** * Step names *)

Lemma upper_ascii_idem c : upper_ascii (upper_ascii c) = upper_ascii c.
Proof.
  destruct c as [[] [] [] [] [] [] [] []]; vm_compute; reflexivity.
Qed.

Lemma upper_idem s : upper (upper s) = upper s.
Proof.
  induction s as [|c s IH]; cbn [upper]; [reflexivity|].
  now rewrite upper_ascii_idem, IH.
Qed.

Lemma normalize_task_type_upper s :
  _normalize_task_type (upper s) = _normalize_task_type s.
Proof. unfold _normalize_task_type. now rewrite upper_idem. Qed.

Lemma normalize_task_type_cases s :
  In (_normalize_task_type s) known_task_types \/
  (_normalize_task_type s = upper s /\
   _normalize_task_type (upper s) = upper s).
Proof.
  rewrite normalize_task_type_upper.
  unfold _normalize_task_type, known_task_types.
  destruct (contains "HEALTH_CHECK_1" (upper s) || contains "HEALTH_CHECK_2" (upper s)
            || contains "HEALTH_CHECK_3" (upper s)); [cbn; auto|].
  destruct (contains "NODE" (upper s) && contains "SIM" (upper s)); [cbn; auto|].
  destruct (contains "RACK" (upper s) && contains "SIM" (upper s)); [cbn; auto|].
  destruct (contains "INTERIM" (upper s)); [cbn; auto 6|].
  destruct (contains "FINAL" (upper s)); [cbn; auto 7|].
  destruct (contains "INIT" (upper s)); [cbn; auto 8|].
  right; split; reflexivity.
Qed.

(** X12.  [_normalize_task_type] does not depend on the case of the
    letters of the step name, returns a string in upper case, gives the
    same result when applied to its own result, and keeps each of the six
    task-type names it can produce.  (Step names are ASCII, as in [upper].) *)
Theorem normalize_task_type_canonical s :
  _normalize_task_type (upper s) = _normalize_task_type s /\
  upper (_normalize_task_type s) = _normalize_task_type s /\
  _normalize_task_type (_normalize_task_type s) = _normalize_task_type s /\
  (forall ty, In ty known_task_types -> _normalize_task_type ty = ty).
Proof.
  split; [apply normalize_task_type_upper|].
  assert (K : forall ty, In ty known_task_types ->
              upper ty = ty /\ _normalize_task_type ty = ty).
  { intros ty I; cbn in I.
    repeat (destruct I as [<-|I]; [split; vm_compute; reflexivity|]).
    destruct I. }
  destruct (normalize_task_type_cases s) as [I|[E1 E2]].
  - destruct (K _ I) as [U N]. split; [exact U|]. split; [exact N|].
    intros ty Hty; apply K; assumption.
  - rewrite E1. split; [apply upper_idem|]. split; [exact E2|].
    intros ty Hty; apply K; assumption.
Qed.

(** * The workflow DAG *)

Lemma set_tasks_get l :
  NoDup (map fst l) ->
  forall self k,
    Dict.get
      (tasks
         (fold_left
            (fun s item =>
               let '(task_id, (ty, pred, succ)) := item in
               set_tasks s (Dict.set (tasks s) task_id
                                     (mk_task task_id ty pred succ)))
            l self)) k
    = match Dict.get
              (map (fun item =>
                      let '(task_id, (ty, pred, succ)) := item in
                      (task_id, mk_task task_id ty pred succ)) l) k with
      | Some t => Some t
      | None => Dict.get (tasks self) k
      end.
Proof.
  induction l as [|[task_id [[ty pr] su]] l IH]; intros ND self k;
    [reflexivity|].
  inversion ND as [|? ? Hn ND']; subst.
  cbn [fold_left map]. rewrite (IH ND'). cbn [tasks set_tasks Dict.get].
  change (@keqb string EqKey_string k task_id) with (String.eqb k task_id).
  destruct (String.eqb_spec k task_id) as [->|N].
  - rewrite get_set_same.
    destruct (Dict.get _ task_id) eqn:E; [|reflexivity].
    exfalso. apply Hn. apply get_In_keys in E.
    unfold Dict.keys in E. rewrite map_map in E.
    erewrite map_ext; [exact E|]. intros [a [[b c] d]]; reflexivity.
  - rewrite get_set_other by assumption. reflexivity.
Qed.

Lemma define_dag_comm_costs self : comm_costs (define_dag self) = comm_costs self.
Proof.
  unfold define_dag. generalize dag_def; intros l; revert self.
  induction l as [|[k [[ty pr] su]] l IH]; intros self; [reflexivity|].
  cbn [fold_left]. now rewrite IH.
Qed.

Lemma define_dag_node_availability self :
  node_availability (define_dag self) = node_availability self.
Proof.
  unfold define_dag. generalize dag_def; intros l; revert self.
  induction l as [|[k [[ty pr] su]] l IH]; intros self; [reflexivity|].
  cbn [fold_left]. now rewrite IH.
Qed.

Lemma set_get_id {V} (d : list (string * V)) k v :
  Dict.get d k = Some v -> Dict.set d k v = d.
Proof.
  induction d as [|[k' v'] d IH]; cbn [Dict.get Dict.set]; [discriminate|].
  change (@keqb string EqKey_string k k') with (String.eqb k k').
  destruct (String.eqb k k'); intros E; [congruence|].
  now rewrite IH.
Qed.

Lemma set_tasks_again l :
  forall self,
    (forall task_id ty pred succ,
       In (task_id, (ty, pred, succ)) l ->
       Dict.get (tasks self) task_id = Some (mk_task task_id ty pred succ)) ->
    tasks
      (fold_left
         (fun s item =>
            let '(task_id, (ty, pred, succ)) := item in
            set_tasks s (Dict.set (tasks s) task_id
                                  (mk_task task_id ty pred succ)))
         l self)
    = tasks self.
Proof.
  induction l as [|[task_id [[ty pr] su]] l IH]; intros self Hl;
    [reflexivity|].
  cbn [fold_left].
  assert (E : Dict.set (tasks self) task_id (mk_task task_id ty pr su)
              = tasks self)
    by (apply set_get_id, Hl; now left).
  rewrite IH; cbn [tasks set_tasks]; rewrite E; [reflexivity|].
  intros; apply Hl; now right.
Qed.

(** X13.  [define_dag] registers the eight workflow tasks in their initial
    state (rank 0, no node, times 0), replacing whatever task object was
    stored under these ids, and keeps the tasks registered under other ids.
    It does not touch the schedule, the node availability or the cost
    tables, so the assignments of an earlier run stay in the schedule while
    the task objects forget them.  Calling it twice gives the same task
    table as calling it once. *)
Theorem define_dag_resets_workflow_tasks self :
  (forall k,
     Dict.get (tasks (define_dag self)) k
     = match Dict.get dag_tasks k with
       | Some t => Some t
       | None => Dict.get (tasks self) k
       end) /\
  (forall k t, Dict.get dag_tasks k = Some t ->
     id t = k /\ upward_rank t = 0 /\ scheduled_node t = None /\
     start_time t = 0 /\ end_time t = 0) /\
  schedule (define_dag self) = schedule self /\
  node_availability (define_dag self) = node_availability self /\
  exec_costs (define_dag self) = exec_costs self /\
  comm_costs (define_dag self) = comm_costs self /\
  tasks (define_dag (define_dag self)) = tasks (define_dag self).
Proof.
  assert (G : forall s k,
     Dict.get (tasks (define_dag s)) k
     = match Dict.get dag_tasks k with
       | Some t => Some t
       | None => Dict.get (tasks s) k
       end).
  { intros s k. unfold define_dag, dag_tasks. apply set_tasks_get.
    vm_compute. repeat constructor; cbn; intuition discriminate. }
  split; [apply G|]. split.
  { intros k t Ht. apply get_In in Ht. unfold dag_tasks in Ht. cbn in Ht.
    repeat (destruct Ht as [Ht|Ht];
            [injection Ht as <- <-; cbn; repeat split; reflexivity|]).
    destruct Ht. }
  split; [apply define_dag_schedule|].
  split; [apply define_dag_node_availability|].
  split; [apply define_dag_exec_costs|].
  split; [apply define_dag_comm_costs|].
  unfold define_dag at 1. apply set_tasks_again.
  intros task_id ty pred succ I. rewrite G.
  assert (E : Dict.get dag_tasks task_id = Some (mk_task task_id ty pred succ)).
  { apply In_get_NoDup.
    - vm_compute. repeat constructor; cbn; intuition discriminate.
    - unfold dag_tasks.
      apply (in_map (fun item : string * (string * list string * list string) =>
                       let '(task_id, (ty, pred, succ)) := item in
                       (task_id, mk_task task_id ty pred succ)) _ _ I). }
  now rewrite E.
Qed.

(** * The cost-override feed *)

Lemma load_step_frame self step stats :
  Dict.keys (exec_costs (load_step self step stats)) = Dict.keys (exec_costs self) /\
  comm_costs (load_step self step stats) = comm_costs self /\
  tasks (load_step self step stats) = tasks self /\
  schedule (load_step self step stats) = schedule self /\
  node_availability (load_step self step stats) = node_availability self.
Proof.
  unfold load_step.
  destruct (truthy_mean stats) as [m|]; [|repeat split].
  destruct (Dict.get (exec_costs self) (_normalize_task_type step)) eqn:E;
    [|repeat split].
  cbn [exec_costs comm_costs tasks schedule node_availability set_exec_costs].
  repeat split. eapply keys_set_present; eassumption.
Qed.

Lemma load_step_row self step stats ty row' nt c :
  Dict.get (exec_costs (load_step self step stats)) ty = Some row' ->
  Dict.get row' nt = Some c ->
  (exists row, Dict.get (exec_costs self) ty = Some row /\
               Dict.get row nt = Some c) \/
  (exists m, truthy_mean stats = Some m /\ _normalize_task_type step = ty /\
             ((nt = "worker" /\ c = m) \/
              (nt = "master" /\ c = m * (12 # 10)))).
Proof.
  unfold load_step.
  destruct (truthy_mean stats) as [m|]; [|eauto].
  destruct (Dict.get (exec_costs self) (_normalize_task_type step))
    as [row|] eqn:E; [|eauto].
  cbn [exec_costs set_exec_costs].
  destruct (String.eqb_spec ty (_normalize_task_type step)) as [->|N].
  - rewrite get_set_same. intros [= <-].
    destruct (String.eqb_spec nt "master") as [->|Nm].
    + rewrite get_set_same. intros [= <-]. right; exists m; auto 6.
    + rewrite get_set_other by assumption.
      destruct (String.eqb_spec nt "worker") as [->|Nw].
      * rewrite get_set_same. intros [= <-]. right; exists m; auto 6.
      * rewrite get_set_other by assumption. eauto.
  - rewrite get_set_other by assumption. eauto.
Qed.

Lemma load_step_row_keys self step stats ty row nt :
  Dict.get (exec_costs self) ty = Some row ->
  Dict.mem row nt = true ->
  exists row', Dict.get (exec_costs (load_step self step stats)) ty = Some row' /\
               Dict.mem row' nt = true.
Proof.
  intros Hrow Hnt. unfold load_step.
  destruct (truthy_mean stats) as [m|]; [|eauto].
  destruct (Dict.get (exec_costs self) (_normalize_task_type step))
    as [row0|] eqn:E; [|eauto].
  cbn [exec_costs set_exec_costs].
  destruct (String.eqb_spec ty (_normalize_task_type step)) as [->|N].
  - rewrite get_set_same. eexists; split; [reflexivity|].
    assert (row0 = row) by congruence; subst row0.
    unfold Dict.mem in *.
    destruct (String.eqb_spec nt "master") as [->|Nm];
      [now rewrite get_set_same|].
    rewrite get_set_other by assumption.
    destruct (String.eqb_spec nt "worker") as [->|Nw];
      [now rewrite get_set_same|].
    now rewrite get_set_other by assumption.
  - rewrite get_set_other by assumption. eauto.
Qed.

Lemma load_benchmark_data_rows self data :
  Dict.keys (exec_costs (load_benchmark_data self data))
  = Dict.keys (exec_costs self) /\
  comm_costs (load_benchmark_data self data) = comm_costs self /\
  tasks (load_benchmark_data self data) = tasks self /\
  schedule (load_benchmark_data self data) = schedule self /\
  node_availability (load_benchmark_data self data) = node_availability self /\
  (forall ty row nt,
     Dict.get (exec_costs self) ty = Some row ->
     Dict.mem row nt = true ->
     exists row',
       Dict.get (exec_costs (load_benchmark_data self data)) ty = Some row' /\
       Dict.mem row' nt = true).
Proof.
  destruct data as [d|]; [|cbn [load_benchmark_data]; repeat split; eauto].
  rewrite load_benchmark_data_items. unfold load_items.
  generalize (feed_items d); intros items; revert self.
  induction items as [|[step stats] items IH]; intros self;
    cbn [fold_left fst snd]; [repeat split; eauto|].
  destruct (IH (load_step self step stats)) as (K & C & T & S & A & R).
  destruct (load_step_frame self step stats) as (K1 & C1 & T1 & S1 & A1).
  split; [congruence|]. split; [congruence|]. split; [congruence|].
  split; [congruence|]. split; [congruence|].
  intros ty row nt Hrow Hnt.
  destruct (load_step_row_keys self step stats _ _ _ Hrow Hnt)
    as (row1 & Hrow1 & Hnt1).
  eapply R; eassumption.
Qed.

Lemma load_benchmark_data_rows_complete self data :
  rows_complete self -> rows_complete (load_benchmark_data self data).
Proof.
  intros RC ty row' H'.
  destruct (load_benchmark_data_rows self data) as (K & _ & _ & _ & _ & R).
  assert (I : In ty (Dict.keys (exec_costs self)))
    by (rewrite <- K; eapply get_In_keys; eassumption).
  apply In_keys_get in I as [row Hrow].
  destruct (RC _ _ Hrow) as [M W].
  destruct (R _ _ _ Hrow M) as (r1 & E1 & M1).
  destruct (R _ _ _ Hrow W) as (r2 & E2 & W1).
  rewrite H' in E1, E2. injection E1 as <-. injection E2 as <-. auto.
Qed.

(** X14.  [load_benchmark_data] only rewrites cost rows.  It neither adds
    nor removes a task type and leaves the communication costs, the tasks,
    the schedule and the node availability as they are.  A row never loses
    a node class, so a table that prices both classes in every row still
    does after loading.  A task type to which no step with a usable mean
    normalises keeps its row, and an unreadable file changes nothing. *)
Theorem load_benchmark_data_frame self data :
  Dict.keys (exec_costs (load_benchmark_data self data))
  = Dict.keys (exec_costs self) /\
  comm_costs (load_benchmark_data self data) = comm_costs self /\
  tasks (load_benchmark_data self data) = tasks self /\
  schedule (load_benchmark_data self data) = schedule self /\
  node_availability (load_benchmark_data self data) = node_availability self /\
  (forall ty row nt,
     Dict.get (exec_costs self) ty = Some row ->
     Dict.mem row nt = true ->
     exists row',
       Dict.get (exec_costs (load_benchmark_data self data)) ty = Some row' /\
       Dict.mem row' nt = true) /\
  (rows_complete self -> rows_complete (load_benchmark_data self data)) /\
  match data with
  | Some d =>
      forall ty,
        forallb (fun item => negb (overrides ty item)) (feed_items d) = true ->
        Dict.get (exec_costs (load_benchmark_data self data)) ty
        = Dict.get (exec_costs self) ty
  | None => load_benchmark_data self data = self
  end.
Proof.
  destruct (load_benchmark_data_rows self data) as (K & C & T & S & A & R).
  split; [exact K|]. split; [exact C|]. split; [exact T|]. split; [exact S|].
  split; [exact A|]. split; [exact R|].
  split; [apply load_benchmark_data_rows_complete|].
  destruct data as [d|]; [|reflexivity].
  intros ty N. rewrite load_benchmark_data_items. now apply load_items_other.
Qed.

(** X15.  Loading a feed whose means are non-negative keeps the
    execution-cost table non-negative, so what is proved of runs with
    non-negative costs applies after loading such a feed. *)
Theorem load_benchmark_data_keeps_costs_nonneg self d :
  exec_costs_nonneg self ->
  (forall step stats m,
     In (step, stats) (feed_items d) -> mean stats = Some m -> 0 <= m) ->
  exec_costs_nonneg (load_benchmark_data self (Some d)).
Proof.
  rewrite load_benchmark_data_items. unfold load_items.
  generalize (feed_items d); intros items; revert self.
  induction items as [|[step stats] items IH]; intros self NE Hm;
    cbn [fold_left fst snd]; [assumption|].
  apply IH; [|intros; eapply Hm; [right|]; eassumption].
  intros ty row' nt c Hrow' Hc.
  destruct (load_step_row _ _ _ _ _ _ _ Hrow' Hc)
    as [(row & Hrow & Hc0)|(m & Tm & _ & Cases)].
  - eapply NE; eassumption.
  - assert (0 <= m) as Pm.
    { unfold truthy_mean in Tm.
      destruct (mean stats) as [m0|] eqn:Em; [|discriminate].
      destruct (Qeq_bool m0 0); [discriminate|]. injection Tm as <-.
      eapply Hm; [left; reflexivity | exact Em]. }
    destruct Cases as [[_ ->]|[_ ->]]; [assumption|].
    apply Qmult_le_0_compat; [assumption | discriminate].
Qed.

(** * The span of a run *)

Lemma get_earliest_finish_time_start_nonneg self task node s e :
  get_earliest_finish_time self task node = inr (s, e) -> 0 <= s.
Proof.
  rewrite get_earliest_finish_time_unfold. intros H.
  inv_bind H. inv_bind H. inv_bind H. unfold ret in H; injection H as <- <-.
  destruct (pred_loop_value _ _ _ _ _ Hc0) as [Le _].
  eapply Qle_trans; [exact Le | apply py_max_r].
Qed.

Lemma schedule_tasks_starts_nonneg ts :
  forall self self',
    starts_nonneg self -> schedule_tasks ts self = inr self' ->
    starts_nonneg self'.
Proof.
  unfold schedule_tasks.
  induction ts as [|t ts IH]; cbn [for_each]; intros self self' SN H.
  - unfold ret in H; injection H as <-. exact SN.
  - inv_bind H. inv_bind Hc. destruct a0 as [r s1].
    unfold ret in Hc; injection Hc as <-.
    eapply IH; [|exact H].
    apply schedule_task_inr in Hc0
      as (task & bn & bs & be & Ht & Hin & Heft & -> & ->).
    intros k n st e. cbn [schedule].
    destruct (String.eqb_spec k (id t)) as [->|N].
    + rewrite get_set_same. intros [= <- <- <-].
      eapply get_earliest_finish_time_start_nonneg; eassumption.
    + rewrite get_set_other by assumption. apply SN.
Qed.

Lemma schedule_tasks_cost_tables ts :
  forall self self',
    schedule_tasks ts self = inr self' ->
    exec_costs self' = exec_costs self /\ comm_costs self' = comm_costs self.
Proof.
  unfold schedule_tasks.
  induction ts as [|t ts IH]; cbn [for_each]; intros self self' H.
  - unfold ret in H; injection H as <-. split; reflexivity.
  - inv_bind H. inv_bind Hc. destruct a0 as [r s1].
    unfold ret in Hc; injection Hc as <-.
    destruct (IH _ _ H) as [E1 E2].
    destruct (schedule_task_exec_costs _ _ _ _ Hc0) as [E3 E4].
    split; congruence.
Qed.

Lemma run_heft_consistent ec cc depth sched self3 :
  exec_costs_nonneg (HEFTScheduler_init ec cc) ->
  run_heft depth (HEFTScheduler_init ec cc) = inr (sched, self3) ->
  sched = schedule self3 /\ consistent self3 /\ starts_nonneg self3 /\
  comm_costs self3 = comm_costs (HEFTScheduler_init ec cc).
Proof.
  intros NE H. unfold run_heft in H.
  inv_bind H. rename a into self2. inv_bind H.
  unfold ret in H; injection H as <- <-.
  destruct (compute_all_ranks_post _ _ _ Hc) as ((E & C & S & _) & _).
  rewrite define_dag_schedule in S. rewrite define_dag_exec_costs in E.
  rewrite define_dag_comm_costs in C.
  split; [reflexivity|]. split; [|split].
  - eapply schedule_tasks_consistent; [| |exact Hc0].
    + unfold exec_costs_nonneg; rewrite E; exact NE.
    + intros ? ? ? ?; rewrite S; discriminate.
  - eapply schedule_tasks_starts_nonneg; [|exact Hc0].
    intros ? ? ? ?; rewrite S; discriminate.
  - rewrite <- C. now destruct (schedule_tasks_cost_tables _ _ _ Hc0).
Qed.

Lemma run_heft_graph ec cc depth sched self3 :
  exec_costs_nonneg (HEFTScheduler_init ec cc) ->
  comm_costs_nonneg (HEFTScheduler_init ec cc) ->
  run_heft depth (HEFTScheduler_init ec cc) = inr (sched, self3) ->
  graph_ok (preds_of (define_dag (HEFTScheduler_init ec cc)))
           (succs_of (define_dag (HEFTScheduler_init ec cc))) self3.
Proof.
  intros NE NC H.
  unfold run_heft in H. inv_bind H. rename a into self2.
  inv_bind H. rename a into s3. unfold ret in H; injection H as <- <-.
  destruct (ranked_dag_order _ _ _ _ NE NC Hc) as [Sorted Ids].
  rewrite Sorted in Hc0.
  set (self1 := define_dag (HEFTScheduler_init ec cc)) in *.
  destruct (compute_all_ranks_post _ _ _ Hc) as (F & _).
  assert (I0 : sched_inv (preds_of self1) (succs_of self1) [] self2).
  { split; [|split; [intros ? [] | intros ? ? []]].
    intros k t Ht.
    destruct (ranking_frame_get_back _ _ _ _ F Ht) as (t0 & Ht0 & ->).
    unfold preds_of, succs_of. rewrite Ht0. split; reflexivity. }
  assert (T0 : topological (preds_of self1) [] (map id (Dict.values (tasks self2)))).
  { rewrite Ids. apply topological_b_sound. reflexivity. }
  pose proof (sched_loop _ _ _ _ _ _ I0 T0 Hc0) as (G & _ & _). exact G.
Qed.

Lemma run_heft_edge_end_le ec cc depth sched self3 u v nu su eu nv sv ev :
  exec_costs_nonneg (HEFTScheduler_init ec cc) ->
  comm_costs_nonneg (HEFTScheduler_init ec cc) ->
  run_heft depth (HEFTScheduler_init ec cc) = inr (sched, self3) ->
  In v (succs_of (define_dag (HEFTScheduler_init ec cc)) u) ->
  Dict.get sched u = Some (nu, su, eu) ->
  Dict.get sched v = Some (nv, sv, ev) ->
  eu <= ev.
Proof.
  intros NE NC H Hv Hu Hv'.
  destruct (run_heft_consistent _ _ _ _ _ NE H) as (-> & C & _ & CC).
  pose proof (run_heft_graph _ _ _ _ _ NE NC H) as G.
  destruct (C _ _ _ _ Hu) as (_ & _ & tu & Htu & _).
  destruct (G _ _ Htu) as [_ Gs].
  assert (SE : succ_edge self3 u v) by (exists tu; split; [exact Htu | now rewrite Gs]).
  destruct (run_heft_precedes _ _ _ _ _ _ _ NE NC H SE)
    as (nu' & su' & eu' & nv' & sv' & ev' & comm & Hu2 & Hv2 & Hcomm & Le).
  rewrite Hu in Hu2; injection Hu2 as <- <- <-.
  rewrite Hv' in Hv2; injection Hv2 as <- <- <-.
  destruct (C _ _ _ _ Hv') as (_ & Lv & _).
  assert (0 <= comm).
  { eapply get_comm_cost_nonneg; [|exact Hcomm].
    unfold comm_costs_nonneg. rewrite CC. exact NC. }
  lra.
Qed.

(** X16.  The span of a run.  In the schedule [run_heft] returns on a
    newly constructed scheduler with finite, non-negative costs, no task
    starts before time 0, no task ends before it starts, and no task ends
    after [final-health-check]: the makespan is the end time of the final
    health check. *)
Theorem run_heft_makespan ec cc depth sched self3 :
  exec_costs_nonneg (HEFTScheduler_init ec cc) ->
  comm_costs_nonneg (HEFTScheduler_init ec cc) ->
  costs_finite (HEFTScheduler_init ec cc) ->
  run_heft depth (HEFTScheduler_init ec cc) = inr (sched, self3) ->
  exists nf sf ef,
    Dict.get sched "final-health-check" = Some (nf, sf, ef) /\
    forall t n s e,
      Dict.get sched t = Some (n, s, e) -> 0 <= s /\ s <= e /\ e <= ef.
Proof.
  intros NE NC _ H.
  destruct (run_heft_consistent _ _ _ _ _ NE H) as (Es & C & SN & _).
  destruct (run_heft_schedule _ _ _ _ _ H) as (_ & _ & K).
  pose proof (fun u v => run_heft_edge_end_le ec cc depth sched self3 u v) as Edge.
  assert (Entry : forall t, In t (Dict.keys dag_tasks) ->
            exists n s e, Dict.get sched t = Some (n, s, e)).
  { intros t I. apply K in I as [[[n s] e] Hv]. eauto. }
  destruct (Entry "final-health-check") as (nf & sf & ef & Hf); [cbn; auto 10|].
  destruct (Entry "rack-simulation") as (nr & sr & er & Hr); [cbn; auto 10|].
  destruct (Entry "interim-health-check") as (ni & si & ei & Hi); [cbn; auto 10|].
  destruct (Entry "node-simulation") as (nn & sn & en & Hn); [cbn; auto 10|].
  destruct (Entry "health-check-1") as (n1 & s1 & e1 & H1); [cbn; auto 10|].
  destruct (Entry "health-check-2") as (n2 & s2 & e2 & H2); [cbn; auto 10|].
  destruct (Entry "health-check-3") as (n3 & s3 & e3 & H3); [cbn; auto 10|].
  destruct (Entry "initialize") as (n0 & s0 & e0 & H0); [cbn; auto 10|].
  assert (Lr : er <= ef)
    by (eapply (Edge "rack-simulation" "final-health-check"); try eassumption; cbn; auto).
  assert (Li : ei <= er)
    by (eapply (Edge "interim-health-check" "rack-simulation"); try eassumption; cbn; auto).
  assert (Ln : en <= ei)
    by (eapply (Edge "node-simulation" "interim-health-check"); try eassumption; cbn; auto).
  assert (L1 : e1 <= en)
    by (eapply (Edge "health-check-1" "node-simulation"); try eassumption; cbn; auto).
  assert (L2 : e2 <= en)
    by (eapply (Edge "health-check-2" "node-simulation"); try eassumption; cbn; auto).
  assert (L3 : e3 <= en)
    by (eapply (Edge "health-check-3" "node-simulation"); try eassumption; cbn; auto).
  assert (L0 : e0 <= e1)
    by (eapply (Edge "initialize" "health-check-1"); try eassumption; cbn; auto).
  exists nf, sf, ef. split; [exact Hf|].
  intros t n s e Ht.
  split; [subst sched; eapply SN; eassumption|].
  split; [subst sched; now destruct (C _ _ _ _ Ht) as (_ & Le & _)|].
  assert (I : In t (Dict.keys dag_tasks)) by (apply K; eauto).
  cbn in I.
  repeat (destruct I as [<-|I];
          [rewrite Ht in *;
           repeat match goal with
                  | E : Some _ = Some _ |- _ => injection E as <- <- <-
                  end; lra|]).
  destruct I.
Qed.

(** * The report *)

Lemma insert_asc_perm {A} (lt : A -> A -> bool) x l :
  Permutation (insert_asc lt x l) (x :: l).
Proof.
  induction l as [|y l IH]; cbn [insert_asc]; [reflexivity|].
  destruct (lt y x); [|reflexivity].
  rewrite IH. apply perm_swap.
Qed.

Lemma sorted_asc_perm {A} (lt : A -> A -> bool) l :
  Permutation (sorted_asc lt l) l.
Proof.
  induction l as [|x l IH]; cbn [sorted_asc fold_right]; [reflexivity|].
  fold (sorted_asc lt l). rewrite insert_asc_perm. now constructor.
Qed.

Lemma insert_asc_sorted {A} (key : A -> Q) x l :
  StronglySorted (fun a b => key a <= key b) l ->
  StronglySorted (fun a b => key a <= key b) (insert_asc (key_lt key) x l).
Proof.
  induction 1 as [|y l S IH F]; cbn [insert_asc].
  - repeat constructor.
  - unfold key_lt at 1. destruct (Qlt_bool (key y) (key x)) eqn:E.
    + apply Qlt_bool_iff in E. constructor; [exact IH|].
      rewrite (insert_asc_perm _ x l). constructor; [lra | exact F].
    + apply Qlt_bool_false in E.
      constructor; [constructor; assumption|].
      constructor; [exact E|].
      eapply Forall_impl; [|exact F]. cbv beta; intros a Ha; lra.
Qed.

Lemma sorted_asc_sorted {A} (key : A -> Q) l :
  StronglySorted (fun a b => key a <= key b) (sorted_asc (key_lt key) l).
Proof.
  induction l as [|x l IH]; cbn [sorted_asc fold_right]; [constructor|].
  now apply insert_asc_sorted.
Qed.

Lemma StronglySorted_keys {A B} (f : A -> Q) (g : B -> Q) l l' :
  map f l = map g l' ->
  StronglySorted (fun a b => f a <= f b) l ->
  StronglySorted (fun a b => g a <= g b) l'.
Proof.
  intros E S; revert l' E.
  induction S as [|a l S IH F]; intros l' E.
  - destruct l'; [constructor | discriminate].
  - destruct l' as [|b l']; [discriminate|].
    cbn [map] in E. injection E as Eab E.
    constructor; [now apply IH|].
    apply Forall_forall. intros b' I.
    apply (in_map g) in I. rewrite <- E in I.
    apply in_map_iff in I as (a' & Ea & Ia).
    rewrite Forall_forall in F. specialize (F _ Ia). cbv beta in F.
    rewrite <- Eab, <- Ea. exact F.
Qed.

Lemma fold_py_max_spec es :
  forall e,
    (forall x, In x (e :: es) -> x <= fold_left py_max es e) /\
    In (fold_left py_max es e) (e :: es).
Proof.
  induction es as [|y es IH]; intros e; cbn [fold_left].
  - split; [intros x [<-|[]]; apply Qle_refl | now left].
  - destruct (IH (py_max e y)) as [Le I]. split.
    + intros x [<-|[<-|Ix]].
      * eapply Qle_trans; [apply py_max_l | apply Le; now left].
      * eapply Qle_trans; [apply py_max_r | apply Le; now left].
      * apply Le; now right.
    + destruct I as [E|I]; [|now right; right].
      rewrite <- E. destruct (py_max_cases e y) as [-> | ->];
        [now left | now right; left].
Qed.

Lemma keyed_loop self ks :
  (forall t, In t ks -> exists v, Dict.get (schedule self) t = Some v) ->
  forall acc,
    exists keyed,
      for_each
        (fun acc t =>
           ' (_, start, _) <- getitem (schedule self) t ;;
           ret (acc ++ [(t, start)])%list)
        ks acc = inr (acc ++ keyed)%list /\
      map fst keyed = ks /\
      forall t s, In (t, s) keyed ->
        exists n e, Dict.get (schedule self) t = Some (n, s, e).
Proof.
  induction ks as [|k ks IH]; intros Hk acc; cbn [for_each].
  - exists []. rewrite app_nil_r. split; [reflexivity|].
    split; [reflexivity | intros ? ? []].
  - destruct (Hk k (or_introl eq_refl)) as [[[n s] e] Hv].
    rewrite (getitem_Some _ _ _ Hv); cbn [bind ret].
    destruct (IH (fun t I => Hk t (or_intror I)) (acc ++ [(k, s)])%list)
      as (keyed & E & Ek & Hkeyed).
    exists ((k, s) :: keyed).
    split; [rewrite <- app_assoc in E; exact E|]. split; [cbn; now rewrite Ek|].
    intros t s' [[= <- <-]|I]; eauto.
Qed.

Lemma rows_loop self l :
  reportable self ->
  (forall t s, In (t, s) l ->
     exists n e, Dict.get (schedule self) t = Some (n, s, e)) ->
  forall acc,
    exists rows,
      for_each
        (fun acc ts =>
           let task_id := fst ts in
           ' (node, start, end_) <- getitem (schedule self) task_id ;;
           task <- getitem (tasks self) task_id ;;
           nd <- getitem NODES node ;;
           ret (acc ++ [{| row_task := task_id; row_node := node;
                           row_zone := zone nd; row_start := start;
                           row_end := end_;
                           row_rank := upward_rank task |}])%list)
        l acc = inr (acc ++ rows)%list /\
      map row_task rows = map fst l /\
      map row_start rows = map (@snd string Q) l /\
      Forall (row_ok self) rows.
Proof.
  intros R. induction l as [|[t s] l IH]; intros Hl acc; cbn [for_each].
  - exists []. rewrite app_nil_r. repeat split; constructor.
  - destruct (Hl t s (or_introl eq_refl)) as (n & e & Hv).
    destruct (R _ _ _ _ Hv) as (In_n & task & Ht).
    apply In_keys_get in In_n as [nd Hnd].
    cbn [fst]. rewrite (getitem_Some _ _ _ Hv); cbn [bind].
    rewrite (getitem_Some _ _ _ Ht); cbn [bind].
    rewrite (getitem_Some _ _ _ Hnd); cbn [bind ret].
    match goal with
    | |- context [(acc ++ [?r])%list] =>
        destruct (IH (fun t s I => Hl t s (or_intror I)) (acc ++ [r])%list)
          as (rows & E & E1 & E2 & F);
        exists (r :: rows)
    end.
    split; [rewrite <- app_assoc in E; exact E|].
    split; [cbn; now rewrite E1|]. split; [cbn; now rewrite E2|].
    constructor; [|exact F].
    split; [exact Hv|]. split; [exists nd; auto|].
    exists task; auto.
Qed.

Lemma print_rows_spec self :
  reportable self ->
  exists rows,
    print_rows self = inr rows /\
    Permutation (map row_task rows) (Dict.keys (schedule self)) /\
    StronglySorted (fun r1 r2 => row_start r1 <= row_start r2) rows /\
    Forall (row_ok self) rows.
Proof.
  intros R.
  destruct (keyed_loop self (Dict.keys (schedule self))
              (fun t I => In_keys_get _ _ I) []) as (keyed & EK & Ek & Hk).
  set (order := sorted_asc (key_lt snd) keyed).
  assert (P : Permutation order keyed) by apply sorted_asc_perm.
  destruct (rows_loop self order R) with (acc := @nil Row)
    as (rows & ER & E1 & E2 & F).
  { intros t s I. apply Hk. eapply Permutation_in; eassumption. }
  exists rows. split.
  { unfold print_rows. rewrite EK; cbn [bind app]. exact ER. }
  split; [rewrite E1, <- Ek; now apply Permutation_map|].
  split; [|exact F].
  eapply StronglySorted_keys; [symmetry; exact E2|].
  apply sorted_asc_sorted.
Qed.

(** X17.  [print_schedule] on a state whose scheduled tasks are registered
    and placed on fleet nodes.  With an empty schedule it raises
    [ValueError], from [max] of an empty sequence.  Otherwise it prints one
    line for each scheduled task, in order of non-decreasing start time,
    each line showing the task's schedule entry, the zone of its node and
    the task's rank; and the makespan it prints is the largest end time of
    the schedule. *)
Theorem print_schedule_table self :
  reportable self ->
  match schedule self with
  | [] => print_schedule self = inl ValueError
  | _ :: _ =>
      exists rows makespan,
        print_schedule self = inr (rows, makespan) /\
        Permutation (map row_task rows) (Dict.keys (schedule self)) /\
        StronglySorted (fun r1 r2 => row_start r1 <= row_start r2) rows /\
        (forall r, In r rows -> row_ok self r) /\
        (forall t n s e, In (t, (n, s, e)) (schedule self) -> e <= makespan) /\
        (exists t n s, In (t, (n, s, makespan)) (schedule self))
  end.
Proof.
  intros R.
  destruct (print_rows_spec self R) as (rows & EP & P & S & F).
  unfold print_schedule. rewrite EP.
  destruct (schedule self) as [|[t0 [[n0 s0] e0]] sched] eqn:Es;
    [reflexivity|].
  cbn [Dict.values map snd].
  destruct (fold_py_max_spec
              (map (fun s : string * Q * Q => snd s) (map snd sched)) e0)
    as [Le I].
  eexists rows, _. split; [reflexivity|].
  split; [exact P|]. split; [exact S|].
  split; [now apply Forall_forall|].
  split.
  - intros t n s e [[= <- <- <- <-]|It]; apply Le; [now left|right].
    apply in_map_iff. exists (n, s, e). split; [reflexivity|].
    apply in_map_iff. exists (t, (n, s, e)). auto.
  - destruct I as [E|I].
    + exists t0, n0, s0. left. now rewrite <- E.
    + apply in_map_iff in I as ([[n s] e] & E & I). cbn in E.
      apply in_map_iff in I as ([t v] & Ev & I). cbn in Ev. subst v.
      exists t, n, s. right. now rewrite <- E.
Qed.

(** * The driver *)

Lemma keys_set_NoDup {V} (d : list (string * V)) k v :
  NoDup (Dict.keys d) -> NoDup (Dict.keys (Dict.set d k v)).
Proof.
  intros ND. destruct (Dict.get d k) as [v0|] eqn:E.
  - now rewrite (keys_set_present _ _ _ _ E).
  - revert ND E. induction d as [|[k' v'] d IH]; cbn [Dict.set Dict.get Dict.keys map fst].
    + intros _ _. repeat constructor. intros [].
    + change (@keqb string EqKey_string k k') with (String.eqb k k').
      destruct (String.eqb_spec k k') as [->|N]; [discriminate|].
      intros ND E. inversion ND as [|? ? Hn ND']; subst.
      cbn [map fst]. constructor; [|now apply IH].
      intros I. apply In_keys_get in I as [v1 H1].
      rewrite get_set_other in H1 by congruence.
      apply Hn. eapply get_In_keys; eassumption.
Qed.

Lemma schedule_tasks_registered ts :
  forall self self',
    scheduled_registered self -> NoDup (Dict.keys (schedule self)) ->
    schedule_tasks ts self = inr self' ->
    scheduled_registered self' /\ NoDup (Dict.keys (schedule self')).
Proof.
  unfold schedule_tasks.
  induction ts as [|t ts IH]; cbn [for_each]; intros self self' SR ND H.
  - unfold ret in H; injection H as <-. auto.
  - inv_bind H. inv_bind Hc. destruct a0 as [r s1].
    unfold ret in Hc; injection Hc as <-.
    eapply IH; [| |exact H];
      apply schedule_task_inr in Hc0
        as (task & bn & bs & be & Ht & Hin & Heft & -> & ->).
    + intros k v. cbn [schedule tasks].
      destruct (String.eqb_spec k (id t)) as [->|N].
      * rewrite !get_set_same. eauto.
      * rewrite !get_set_other by assumption. apply SR.
    + cbn [schedule]. now apply keys_set_NoDup.
Qed.

Lemma dag_keys_NoDup : NoDup (Dict.keys dag_tasks).
Proof. vm_compute. repeat constructor; cbn; intuition discriminate. Qed.

Lemma run_heft_report ec cc depth sched self3 :
  run_heft depth (HEFTScheduler_init ec cc) = inr (sched, self3) ->
  sched = schedule self3 /\ reportable self3 /\
  NoDup (Dict.keys sched) /\
  Permutation (Dict.keys sched) (Dict.keys dag_tasks).
Proof.
  intros H.
  destruct (run_heft_schedule _ _ _ _ _ H) as (Es & SF & K).
  unfold run_heft in H. inv_bind H. rename a into self2. inv_bind H.
  unfold ret in H; injection H as E1 E2. subst a.
  destruct (compute_all_ranks_post _ _ _ Hc) as ((_ & _ & S & _) & _).
  rewrite define_dag_schedule in S.
  destruct (schedule_tasks_registered _ _ _
              (fun t v => ltac:(rewrite S; discriminate))
              ltac:(rewrite S; constructor) Hc0) as [SR ND].
  split; [exact Es|]. split.
  - intros t n s e Ht. split; [eapply SF; eassumption | eapply SR; eassumption].
  - subst sched. split; [exact ND|].
    apply NoDup_Permutation; [exact ND | apply dag_keys_NoDup|].
    intros t. rewrite <- K. split.
    + apply In_keys_get.
    + intros [v Hv]. eapply get_In_keys; eassumption.
Qed.

Lemma rows_complete_fresh_default : rows_complete fresh_default.
Proof.
  intros ty row H. apply get_In in H. cbn in H.
  repeat (destruct H as [H|H]; [injection H as <- <-; split; reflexivity|]).
  destruct H.
Qed.

Lemma main_scheduler_ready argv1 :
  let scheduler1 :=
    match argv1 with
    | Some data => load_benchmark_data (HEFTScheduler_init None None) data
    | None => HEFTScheduler_init None None
    end in
  exists ec, scheduler1 = HEFTScheduler_init ec None /\ rows_complete scheduler1.
Proof.
  destruct argv1 as [data|]; cbv zeta;
    [|exists None; split; [reflexivity | apply rows_complete_fresh_default]].
  destruct (load_benchmark_data_rows (HEFTScheduler_init None None) data)
    as (K & C & T & S & A & R).
  set (L := load_benchmark_data (HEFTScheduler_init None None) data) in *.
  exists (Some (exec_costs L)). split.
  - destruct L as [ec cc ts sc na].
    cbn [exec_costs comm_costs tasks schedule node_availability] in *.
    subst cc ts sc na. unfold HEFTScheduler_init.
    destruct ec as [|x ec]; [discriminate K | reflexivity].
  - apply load_benchmark_data_rows_complete, rows_complete_fresh_default.
Qed.

Lemma zone_of_fun n z z' : zone_of n z -> zone_of n z' -> z = z'.
Proof. intros (nd & H & <-) (nd' & H' & <-). congruence. Qed.

Lemma per_task_loop self l :
  schedule_in_fleet self ->
  (forall t, In t l -> truthy_id (Some t) = Some t /\
                       exists v, Dict.get (schedule self) t = Some v) ->
  forall acc,
    exists per,
      for_each (per_task_line self) l acc = inr (acc ++ per)%list /\
      map (fun x => fst (fst x)) per = l /\
      forall t n z, In (t, n, z) per ->
        zone_of n z /\ exists s e, Dict.get (schedule self) t = Some (n, s, e).
Proof.
  intros SF. induction l as [|t l IH]; intros Hl acc; cbn [for_each].
  - exists []. rewrite app_nil_r. split; [reflexivity|].
    split; [reflexivity | intros ? ? ? []].
  - destruct (Hl t (or_introl eq_refl)) as (Tr & [[n s] e] & Hv).
    pose proof (SF _ _ _ _ Hv) as In_n.
    apply In_keys_get in In_n as [nd Hnd].
    unfold per_task_line at 1, get_exclusion_info.
    rewrite Tr, Hv, (getitem_Some _ _ _ Hnd). cbn [bind ret].
    destruct (IH (fun t I => Hl t (or_intror I)) (acc ++ [(t, n, zone nd)])%list)
      as (per & E & Em & Hper).
    exists ((t, n, zone nd) :: per).
    split; [rewrite <- app_assoc in E; exact E|].
    split; [cbn; now rewrite Em|].
    intros t' n' z' [[= <- <- <-]|I]; [|now apply Hper].
    split; [exists nd; auto | eauto].
Qed.

Lemma exclusion_summary_spec self :
  schedule_in_fleet self -> NoDup (Dict.keys (schedule self)) ->
  exists ns zs,
    get_exclusion_info self None = inr (Summary ns zs) /\
    forall t n s e z,
      Dict.get (schedule self) t = Some (n, s, e) -> zone_of n z ->
      In n ns /\ In z zs.
Proof.
  intros SF ND. cbn [get_exclusion_info truthy_id truthy_node].
  unfold exclusion_summary.
  set (ns := py_set _).
  assert (Hns : forall t n s e,
             Dict.get (schedule self) t = Some (n, s, e) -> In n ns).
  { intros t n s e Hv. unfold ns, py_set, Dict.values.
    rewrite nodup_In, map_map, in_map_iff.
    exists (t, (n, s, e)). split; [reflexivity | now apply get_In]. }
  assert (F : Forall (fun n => In n (Dict.keys NODES)) ns).
  { apply Forall_forall. intros n I. unfold ns, py_set, Dict.values in I.
    rewrite nodup_In, map_map, in_map_iff in I.
    destruct I as ([t [[n' s] e]] & <- & I). cbn [fst snd].
    eapply SF. apply In_get_NoDup; eassumption. }
  destruct (zones_loop ns F []) as (zs & -> & F2). cbn [bind ret app].
  exists ns, (py_set zs). split; [reflexivity|].
  intros t n s e z Hv Z. split; [eapply Hns; eassumption|].
  unfold py_set. rewrite nodup_In.
  destruct (Forall2_In_l _ _ _ _ F2 (Hns _ _ _ _ Hv)) as (z' & Iz & Z').
  now rewrite (zone_of_fun _ _ _ Z Z').
Qed.

(** X18.  [main] runs to completion for every command line (no cost file,
    an unreadable one, or a feed whose means are finite numbers, of either
    sign) when six nested calls are allowed.  The table and the per-task
    list each name exactly the eight workflow tasks; every per-task line
    shows the node and the zone of the task's line in the table, and both
    occur in the summary lists; and the makespan printed is the largest end
    time in the table. *)
Theorem main_runs depth argv1 :
  (6 <= depth)%nat ->
  (forall d, argv1 = Some (Some d) -> feed_finite d) ->
  exists out,
    main depth argv1 = inr out /\
    Permutation (map row_task (out_table out)) (Dict.keys dag_tasks) /\
    Permutation (map (fun x => fst (fst x)) (out_per_task out))
                (Dict.keys dag_tasks) /\
    (forall t n z, In (t, n, z) (out_per_task out) ->
       In n (out_exclude_nodes out) /\ In z (out_exclude_zones out) /\
       exists r, In r (out_table out) /\
                 row_task r = t /\ row_node r = n /\ row_zone r = z) /\
    (forall r, In r (out_table out) -> row_end r <= out_makespan out) /\
    (exists r, In r (out_table out) /\ row_end r = out_makespan out).
Proof.
  intros Hd _. unfold main.
  destruct (main_scheduler_ready argv1) as (ec & E1 & RC). cbv zeta in E1, RC.
  rewrite E1 in *.
  destruct (run_heft_total ec None depth RC Hd) as [[sched self3] H].
  rewrite H.
  destruct (run_heft_report _ _ _ _ _ H) as (Es & R & ND & P).
  destruct (run_heft_schedule _ _ _ _ _ H) as (_ & SF & K).
  subst sched.
  destruct (print_rows_spec self3 R) as (rows & EP & PR & _ & F).
  rewrite Forall_forall in F.
  unfold print_schedule. rewrite EP.
  destruct (schedule self3) as [|[t0 [[n0 s0] e0]] sched] eqn:Esched.
  { apply Permutation_nil in P. discriminate P. }
  rewrite <- Esched in *.
  assert (Ev : map (fun s : string * Q * Q => snd s) (Dict.values (schedule self3))
               = e0 :: map (fun s : string * Q * Q => snd s) (map snd sched))
    by (rewrite Esched; reflexivity).
  rewrite Ev.
  destruct (fold_py_max_spec
              (map (fun s : string * Q * Q => snd s) (map snd sched)) e0)
    as [Le I].
  rewrite <- Ev in Le, I.
  set (makespan := fold_left py_max _ e0) in *.
  destruct (exclusion_summary_spec self3 SF ND) as (ns & zs & EX & Hex).
  rewrite EX. cbn [bind].
  set (order := sorted_asc String.ltb (Dict.keys (schedule self3))).
  assert (PO : Permutation order (Dict.keys (schedule self3)))
    by apply sorted_asc_perm.
  destruct (per_task_loop self3 order SF) with (acc := @nil (string * string * string))
    as (per & EL & Em & Hper).
  { intros t It. assert (Ik : In t (Dict.keys (schedule self3)))
      by (eapply Permutation_in; eassumption).
    split; [|now apply In_keys_get].
    apply dag_key_truthy. eapply Permutation_in; eassumption. }
  rewrite EL. cbn [bind ret app].
  eexists. split; [reflexivity|].
  cbn [out_table out_makespan out_exclude_nodes out_exclude_zones out_per_task].
  assert (Row_of : forall t n s e,
            Dict.get (schedule self3) t = Some (n, s, e) ->
            exists r, In r rows /\ row_task r = t /\ row_node r = n /\
                      row_start r = s /\ row_end r = e).
  { intros t n s e Hv.
    assert (It : In t (map row_task rows)).
    { eapply Permutation_in; [symmetry; exact PR|].
      eapply get_In_keys; eassumption. }
    apply in_map_iff in It as (r & Er & Ir).
    destruct (F _ Ir) as (Hr & _). rewrite Er, Hv in Hr.
    injection Hr as En Es' Ee. exists r. auto. }
  split; [eapply Permutation_trans; eassumption|].
  split; [rewrite Em; eapply Permutation_trans; eassumption|].
  split; [|split].
  - intros t n z Ip. destruct (Hper _ _ _ Ip) as (Z & s & e & Hv).
    destruct (Hex _ _ _ _ _ Hv Z) as [In_n In_z].
    split; [exact In_n|]. split; [exact In_z|].
    destruct (Row_of _ _ _ _ Hv) as (r & Ir & Et & En & _).
    exists r. split; [exact Ir|]. split; [exact Et|]. split; [exact En|].
    destruct (F _ Ir) as (_ & Zr & _). rewrite En in Zr.
    eapply zone_of_fun; eassumption.
  - intros r Ir. destruct (F _ Ir) as (Hr & _).
    apply Le. apply in_map_iff. exists (row_node r, row_start r, row_end r).
    split; [reflexivity|]. apply in_map_iff.
    exists (row_task r, (row_node r, row_start r, row_end r)).
    split; [reflexivity | now apply get_In].
  - apply in_map_iff in I as ([[n s] e] & E & I). cbn [snd] in E.
    apply in_map_iff in I as ([t v] & Ev' & I). cbn [snd] in Ev'. subst v.
    apply In_get_NoDup in I; [|exact ND].
    destruct (Row_of _ _ _ _ I) as (r & Ir & _ & _ & _ & Ee).
    exists r. split; [exact Ir | congruence].
Qed.

(** * The further properties on concrete inputs *)

Lemma default_run_pair :
  run_heft 10 (HEFTScheduler_init None None)
  = inr (fst default_run, snd default_run).
Proof. vm_compute. reflexivity. Qed.

Lemma fresh_default_exec_costs_nonneg :
  exec_costs_nonneg (HEFTScheduler_init None None).
Proof. apply exec_costs_nonneg_b_sound. vm_compute. reflexivity. Qed.

Lemma fresh_default_comm_costs_nonneg :
  comm_costs_nonneg (HEFTScheduler_init None None).
Proof. apply comm_costs_nonneg_b_sound. vm_compute. reflexivity. Qed.

Lemma fresh_default_costs_finite :
  costs_finite (HEFTScheduler_init None None).
Proof. apply costs_finite_b_sound. vm_compute. reflexivity. Qed.

(** ** X1, X2: scheduling [initialize] on the ranked default DAG *)



(** ** X3, X4, X5, X6, X16: the default run *)

Lemma run_heft_no_overlap_witness :
  exists n s1 e1 s2 e2,
    Dict.get (fst default_run) "node-simulation" = Some (n, s1, e1) /\
    Dict.get (fst default_run) "rack-simulation" = Some (n, s2, e2) /\
    (e1 <= s2 \/ e2 <= s1).
Proof.
  destruct (Dict.get (fst default_run) "node-simulation")
    as [[[n s1] e1]|] eqn:E1; [|vm_compute in E1; discriminate E1].
  destruct (Dict.get (fst default_run) "rack-simulation")
    as [[[n' s2] e2]|] eqn:E2; [|vm_compute in E2; discriminate E2].
  assert (n' = n) as ->.
  { vm_compute in E1, E2. injection E1 as <- _ _. injection E2 as <- _ _.
    reflexivity. }
  exists n, s1, e1, s2, e2. split; [reflexivity|]. split; [reflexivity|].
  apply (run_heft_no_overlap None None 10 (fst default_run) (snd default_run)
           fresh_default_exec_costs_nonneg default_run_pair
           "node-simulation" "rack-simulation" n s1 e1 s2 e2);
    [discriminate | exact E1 | exact E2].
Defined.

Lemma run_heft_schedules_every_task_witness :
  (forall t, In t (Dict.keys (fst default_run)) <-> In t (Dict.keys dag_tasks)) /\
  (forall t n st e,
     Dict.get (fst default_run) t = Some (n, st, e) -> In n (Dict.keys NODES)).
Proof.
  destruct (run_heft_schedules_every_task None None 10
              (fst default_run) (snd default_run) default_run_pair)
    as [K F].
  split; [exact K|]. apply F. exact fresh_default_costs_finite.
Defined.

Lemma run_heft_then_exclusion_info_witness :
  exists n st e z,
    Dict.get (fst default_run) "rack-simulation" = Some (n, st, e) /\
    zone_of n z /\
    get_exclusion_info (snd default_run) (Some "rack-simulation")
    = inr (PerTask n z).
Proof.
  apply (run_heft_then_exclusion_info None None 10
           (fst default_run) (snd default_run) "rack-simulation"
           fresh_default_costs_finite default_run_pair).
  vm_compute. tauto.
Defined.

Lemma run_heft_availability_is_last_finish_witness :
  exists a,
    Dict.get (node_availability (snd default_run)) "master-m001" = Some a /\
    (forall t st e,
       Dict.get (fst default_run) t = Some ("master-m001", st, e) -> e <= a) /\
    ((exists t st, Dict.get (fst default_run) t = Some ("master-m001", st, a)) \/
     (a = 0 /\
      forall t st e,
        Dict.get (fst default_run) t <> Some ("master-m001", st, e))).
Proof.
  apply (run_heft_availability_is_last_finish None None 10
           (fst default_run) (snd default_run) "master-m001"
           fresh_default_exec_costs_nonneg default_run_pair).
  vm_compute. tauto.
Defined.

Lemma run_heft_makespan_witness :
  exists nf sf ef,
    Dict.get (fst default_run) "final-health-check" = Some (nf, sf, ef) /\
    forall t n s e,
      Dict.get (fst default_run) t = Some (n, s, e) ->
      0 <= s /\ s <= e /\ e <= ef.
Proof.
  exact (run_heft_makespan None None 10 (fst default_run) (snd default_run)
           fresh_default_exec_costs_nonneg fresh_default_comm_costs_nonneg
           fresh_default_costs_finite default_run_pair).
Defined.

(** ** X7, X8: ranks of the default DAG *)


Lemma compute_upward_rank_memoised_witness :
  exists r memo' self',
    compute_upward_rank 10 (define_dag fresh_default) "rack-simulation" []
    = inr (r, memo', self') /\
    Dict.get memo' "rack-simulation" = Some r /\
    compute_upward_rank 1 self' "rack-simulation" memo' = inr (r, memo', self').
Proof.
  destruct (compute_upward_rank 10 (define_dag fresh_default)
              "rack-simulation" []) as [e|[[r memo'] self']] eqn:E;
    [vm_compute in E; discriminate E|].
  destruct (compute_upward_rank_memoised 10 0 (define_dag fresh_default)
              "rack-simulation" [] r memo' self' E) as (H1 & _ & H2).
  exists r, memo', self'. auto.
Defined.

(** ** X9, X10: finish times *)

Lemma start_time_is_tight_witness :
  exists task s e,
    Dict.get (tasks (snd default_run)) "final-health-check" = Some task /\
    get_earliest_finish_time (snd default_run) task "master-m001" = inr (s, e) /\
    0 <= s.
Proof.
  destruct (Dict.get (tasks (snd default_run)) "final-health-check")
    as [task|] eqn:Ht; [|vm_compute in Ht; discriminate Ht].
  destruct (get_earliest_finish_time (snd default_run) task "master-m001")
    as [x|[s e]] eqn:E.
  { vm_compute in Ht. injection Ht as <-. vm_compute in E. discriminate E. }
  destruct (start_time_is_tight (snd default_run) task "master-m001" s e E)
    as [H _].
  exists task, s, e. auto.
Defined.

Lemma missing_predecessor_raises_witness :
  get_earliest_finish_time (define_dag fresh_default)
    (mk_task "audit" "HEALTH_CHECK" ["initialize"; "warm-up"] [])
    "worker-w001"
  = inl (KeyError "warm-up").
Proof.
  apply (missing_predecessor_raises (define_dag fresh_default)
           (mk_task "audit" "HEALTH_CHECK" ["initialize"; "warm-up"] [])
           "worker-w001" 0 ["initialize"] "warm-up" []).
  - reflexivity.
  - vm_compute. tauto.
  - reflexivity.
  - intros q [<-|[]]. eexists. split; [reflexivity|].
    intros n E. vm_compute in E. discriminate E.
  - reflexivity.
Defined.

(** ** X15: the sample feed *)

Lemma load_benchmark_data_keeps_costs_nonneg_witness :
  exec_costs_nonneg (load_benchmark_data fresh_default (Some sample_feed)).
Proof.
  apply (load_benchmark_data_keeps_costs_nonneg fresh_default sample_feed).
  - exact fresh_default_exec_costs_nonneg.
  - intros step stats m [E|[]] Em. injection E as <- <-.
    cbn in Em. injection Em as <-. vm_compute. discriminate.
Defined.

(** ** X17, X18: the report and the driver *)

Lemma default_run_reportable : reportable (snd default_run).
Proof.
  intros t n s e H. apply get_In in H. cbn in H.
  repeat (destruct H as [H|H];
          [injection H as <- <- <- <-;
           split; [vm_compute; tauto | eexists; reflexivity]|]).
  destruct H.
Qed.

Lemma print_schedule_table_witness :
  exists rows makespan,
    print_schedule (snd default_run) = inr (rows, makespan) /\
    Permutation (map row_task rows) (Dict.keys (schedule (snd default_run))) /\
    StronglySorted (fun r1 r2 => row_start r1 <= row_start r2) rows /\
    (forall r, In r rows -> row_ok (snd default_run) r) /\
    (forall t n s e,
       In (t, (n, s, e)) (schedule (snd default_run)) -> e <= makespan) /\
    (exists t n s, In (t, (n, s, makespan)) (schedule (snd default_run))).
Proof.
  exact (print_schedule_table (snd default_run) default_run_reportable).
Defined.

Lemma main_runs_witness :
  exists out,
    main 1000 (Some (Some sample_feed)) = inr out /\
    Permutation (map row_task (out_table out)) (Dict.keys dag_tasks).
Proof.
  destruct (main_runs 1000 (Some (Some sample_feed)))
    as (out & H1 & H2 & _).
  - lia.
  - intros d E. injection E as <-.
    intros step stats m [E|[]] Em. injection E as <- <-.
    cbn in Em. injection Em as <-.
    apply in_float_range_b_sound. vm_compute. reflexivity.
  - exists out. auto.
Defined.

(** * The exception that ends the ranking of a cyclic graph *)

Lemma ranking_ready_frame self self' :
  ranking_frame self self' -> ranking_ready self -> ranking_ready self'.
Proof.
  intros F [GC RC]. pose proof F as (E & _ & _ & _ & _ & T). split.
  - intros k t s Ht Is.
    destruct (ranking_frame_get_back _ _ _ _ F Ht) as (t0 & Ht0 & Et).
    rewrite Et in Is. cbn [successors with_upward_rank] in Is.
    destruct (GC _ _ _ Ht0 Is) as [ts Hts].
    destruct (T _ _ Hts) as [r Hr]. eauto.
  - unfold rows_complete. rewrite E. exact RC.
Qed.

Lemma registered_frame self self' k t :
  ranking_frame self self' -> Dict.get (tasks self) k = Some t ->
  exists t', Dict.get (tasks self') k = Some t'.
Proof. intros (_ & _ & _ & _ & _ & T) H. destruct (T _ _ H); eauto. Qed.

Section SuccessorLoopRaises.
Variable rec :
  HEFTScheduler -> string -> memo_t -> result (Q * memo_t * HEFTScheduler).
Hypothesis rec_post :
  forall self t memo out,
    rec self t memo = inr out -> memo_ok self memo -> rank_post self t memo out.
Hypothesis rec_raises :
  forall self t memo e,
    memo_ok self memo -> ranking_ready self ->
    (exists task, Dict.get (tasks self) t = Some task) ->
    rec self t memo = inl e -> e = RecursionError.

Lemma succ_loop_raises succs :
  forall m memo0 self0 e,
    memo_ok self0 memo0 -> ranking_ready self0 ->
    (forall s, In s succs -> exists ts, Dict.get (tasks self0) s = Some ts) ->
    for_each (succ_loop_body rec) succs (m, memo0, self0) = inl e ->
    e = RecursionError.
Proof.
  induction succs as [|s succs IH]; cbn [for_each];
    intros m memo0 self0 e OK RR Reg H; [discriminate H|].
  unfold succ_loop_body at 1 in H.
  destruct (rec self0 s memo0) as [e'|[[rs memo'] self']] eqn:R;
    cbn [bind] in H.
  - injection H as <-.
    eapply rec_raises; [exact OK | exact RR | | exact R].
    apply Reg. now left.
  - destruct (avg_comm_cost_value self') as (c & Hc & _).
    rewrite Hc in H. cbn [bind ret] in H.
    destruct (rec_post _ _ _ _ R OK) as (_ & OK' & F' & _).
    eapply IH; [exact OK' | | | exact H].
    + eapply ranking_ready_frame; eassumption.
    + intros s' I. destruct (Reg s' (or_intror I)) as [ts Hts].
      eapply registered_frame; eassumption.
Qed.
End SuccessorLoopRaises.

Lemma compute_upward_rank_raises depth :
  forall self t memo e,
    memo_ok self memo -> ranking_ready self ->
    (exists task, Dict.get (tasks self) t = Some task) ->
    compute_upward_rank depth self t memo = inl e -> e = RecursionError.
Proof.
  induction depth as [|d IH]; intros self t memo e OK RR [task Ht] H.
  - cbn in H. injection H as <-. reflexivity.
  - rewrite compute_upward_rank_unfold in H.
    destruct (Dict.get memo t) as [r|]; [discriminate H|].
    rewrite (getitem_Some _ _ _ Ht) in H. cbn [bind] in H.
    destruct (avg_exec_cost_total self (task_type task) (proj2 RR)) as [a Ha].
    rewrite Ha in H. cbn [bind] in H.
    destruct (successors task) as [|s0 ss] eqn:Es; [discriminate H|].
    destruct (for_each (succ_loop_body (compute_upward_rank d)) (s0 :: ss)
                (0, memo, self)) as [e'|[[m memo1] self1]] eqn:L;
      cbn [bind ret] in H; [|discriminate H].
    injection H as <-.
    eapply (succ_loop_raises _ (compute_upward_rank_post d) IH);
      [exact OK | exact RR | | exact L].
    intros s I. destruct RR as [GC _]. eapply GC; [exact Ht|].
    now rewrite Es.
Qed.

Lemma rank_loop_raises depth ks :
  forall memo0 self0 e,
    memo_ok self0 memo0 -> ranking_ready self0 ->
    (forall k, In k ks -> exists t, Dict.get (tasks self0) k = Some t) ->
    for_each
      (fun st task_id =>
         let '(memo, self0) := st in
         ' (_, memo', self') <- compute_upward_rank depth self0 task_id memo ;;
         ret (memo', self'))
      ks (memo0, self0) = inl e ->
    e = RecursionError.
Proof.
  induction ks as [|k ks IH]; cbn [for_each]; intros memo0 self0 e OK RR Reg H;
    [discriminate H|].
  destruct (compute_upward_rank depth self0 k memo0)
    as [e'|[[r memo'] self']] eqn:R; cbn [bind ret] in H.
  - injection H as <-.
    eapply compute_upward_rank_raises; [exact OK | exact RR | | exact R].
    apply Reg. now left.
  - destruct (compute_upward_rank_post _ _ _ _ _ R OK) as (_ & OK' & F' & _).
    eapply IH; [exact OK' | | | exact H].
    + eapply ranking_ready_frame; eassumption.
    + intros k' I. destruct (Reg k' (or_intror I)) as [t Ht].
      eapply registered_frame; eassumption.
Qed.

(** Ranking a closed graph with complete cost rows raises nothing but
    [RecursionError]. *)
Lemma compute_all_ranks_raises depth self e :
  ranking_ready self -> compute_all_ranks depth self = inl e ->
  e = RecursionError.
Proof.
  intros RR H. unfold compute_all_ranks in H.
  match type of H with
  | bind ?c _ = _ => destruct c as [e'|[memo1 self1]] eqn:L
  end; cbn [bind ret] in H; [|discriminate H].
  injection H as <-.
  eapply rank_loop_raises; [apply memo_ok_nil | exact RR | | exact L].
  intros k I. now apply In_keys_get.
Qed.

(** C2, as the code has it.  There is no validation step: on a task graph
    with a cycle the scheduler goes straight into rank computation, and
    that computation cannot return, whatever depth the call stack allows:
    it ends in an exception raised from inside the recursion.  When every
    successor id is registered and every cost row prices both node classes
    the exception is [RecursionError], raised at the depth limit (a
    successor that is not registered, or a missing cost, can raise
    [KeyError] before that).  So [run_heft], which ranks before it
    schedules, never reaches scheduling and returns no schedule. *)
Theorem cyclic_graph_ranking_never_returns depth self task_id :
  (on_cycle self task_id ->
   (forall self', compute_all_ranks depth self <> inr self') /\
   (ranking_ready self -> compute_all_ranks depth self = inl RecursionError)) /\
  (on_cycle (define_dag self) task_id ->
   (forall out, run_heft depth self <> inr out) /\
   (ranking_ready (define_dag self) -> run_heft depth self = inl RecursionError)).
Proof.
  split; intros C.
  - split; [now apply (ranking_needs_acyclic depth _ task_id)|].
    intros RR.
    destruct (compute_all_ranks depth self) as [e|self'] eqn:H.
    + f_equal. eapply compute_all_ranks_raises; eassumption.
    + exfalso. exact (ranking_needs_acyclic depth _ _ C _ H).
  - split.
    + intros out H. unfold run_heft in H. inv_bind H.
      exact (ranking_needs_acyclic depth _ _ C _ Hc).
    + intros RR. unfold run_heft.
      destruct (compute_all_ranks depth (define_dag self)) as [e|self'] eqn:H.
      * cbn [bind]. f_equal. eapply compute_all_ranks_raises; eassumption.
      * exfalso. exact (ranking_needs_acyclic depth _ _ C _ H).
Qed.

(** * What a run depends on *)

(** ** Ranking and scheduling never read the schedule *)

Lemma succ_loop_set_schedule
  (rec : HEFTScheduler -> string -> memo_t -> result (Q * memo_t * HEFTScheduler))
  sch :
  (forall s t memo,
     rec (set_schedule s sch) t memo =
     match rec s t memo with
     | inr (r, m, s') => inr (r, m, set_schedule s' sch)
     | inl e => inl e
     end) ->
  forall succs m memo s,
    for_each (succ_loop_body rec) succs (m, memo, set_schedule s sch) =
    match for_each (succ_loop_body rec) succs (m, memo, s) with
    | inr (m', memo', s') => inr (m', memo', set_schedule s' sch)
    | inl e => inl e
    end.
Proof.
  intros Hrec. induction succs as [|x succs IH]; intros m memo s;
    cbn [for_each]; [reflexivity|].
  unfold succ_loop_body at 1 3. rewrite Hrec.
  destruct (rec s x memo) as [e|[[r m'] s']]; cbn [bind]; [reflexivity|].
  change (avg_comm_cost (set_schedule s' sch)) with (avg_comm_cost s').
  destruct (avg_comm_cost s') as [e|c]; cbn [bind ret]; [reflexivity|].
  apply IH.
Qed.

Lemma compute_upward_rank_set_schedule sch d :
  forall s t memo,
    compute_upward_rank d (set_schedule s sch) t memo =
    match compute_upward_rank d s t memo with
    | inr (r, m, s') => inr (r, m, set_schedule s' sch)
    | inl e => inl e
    end.
Proof.
  induction d as [|d IH]; intros s t memo; [reflexivity|].
  rewrite !compute_upward_rank_unfold.
  destruct (Dict.get memo t) as [r|]; [reflexivity|].
  change (tasks (set_schedule s sch)) with (tasks s).
  destruct (getitem (tasks s) t) as [e|task]; cbn [bind]; [reflexivity|].
  change (avg_exec_cost (set_schedule s sch) (task_type task))
    with (avg_exec_cost s (task_type task)).
  destruct (avg_exec_cost s (task_type task)) as [e|a]; cbn [bind];
    [reflexivity|].
  destruct (successors task) as [|s0 ss]; [reflexivity|].
  rewrite (succ_loop_set_schedule _ sch IH).
  destruct (for_each _ (s0 :: ss) (0, memo, s)) as [e|[[m memo1] s1]];
    reflexivity.
Qed.

Lemma compute_all_ranks_set_schedule sch d s :
  compute_all_ranks d (set_schedule s sch) =
  match compute_all_ranks d s with
  | inr s' => inr (set_schedule s' sch)
  | inl e => inl e
  end.
Proof.
  unfold compute_all_ranks.
  change (tasks (set_schedule s sch)) with (tasks s).
  generalize (Dict.keys (tasks s)) (@nil (string * Q)).
  intros ks; revert s.
  induction ks as [|k ks IH]; intros s memo; cbn [for_each]; [reflexivity|].
  rewrite compute_upward_rank_set_schedule.
  destruct (compute_upward_rank d s k memo) as [e|[[r m] s']]; cbn [bind ret];
    [reflexivity|].
  apply IH.
Qed.

Lemma schedule_task_set_schedule s sch task_id :
  schedule_task (set_schedule s sch) task_id =
  match schedule_task s task_id with
  | inr (r, s') => inr (r, set_schedule s' (Dict.set sch task_id r))
  | inl e => inl e
  end.
Proof.
  unfold schedule_task.
  change (tasks (set_schedule s sch)) with (tasks s).
  destruct (getitem (tasks s) task_id) as [e|task]; cbn [bind]; [reflexivity|].
  change (best_node_step (set_schedule s sch) task)
    with (best_node_step s task).
  destruct (for_each (best_node_step s task) (Dict.keys NODES) None)
    as [e|[[[bn bs] be]|]]; reflexivity.
Qed.

Lemma schedule_tasks_set_schedule ts :
  forall s sch done x,
    agree_on done sch (schedule s) ->
    schedule_tasks ts (set_schedule s sch) = inr x ->
    exists s',
      schedule_tasks ts s = inr s' /\
      tasks x = tasks s' /\ node_availability x = node_availability s' /\
      agree_on (map id ts ++ done) (schedule x) (schedule s').
Proof.
  unfold schedule_tasks.
  induction ts as [|t ts IH]; intros s sch done x A H; cbn [for_each] in *.
  - unfold ret in H; injection H as <-. exists s. auto.
  - rewrite schedule_task_set_schedule in H.
    destruct (schedule_task s (id t)) as [e|[r s1]] eqn:E; [discriminate H|].
    cbn [bind ret] in H |- *.
    assert (S1 : schedule s1 = Dict.set (schedule s) (id t) r).
    { apply schedule_task_inr in E
        as (task & bn & bs & be & _ & _ & _ & -> & ->). reflexivity. }
    destruct (IH s1 (Dict.set sch (id t) r) (id t :: done) x) as (s' & Hs' & T & N & A').
    + intros k Ik. rewrite S1.
      destruct (String.eqb_spec k (id t)) as [->|Nk].
      * now rewrite !get_set_same.
      * rewrite !get_set_other by assumption.
        destruct Ik as [Ek|Ik]; [congruence | now apply A].
    + exact H.
    + exists s'. split; [exact Hs'|]. split; [exact T|]. split; [exact N|].
      intros k Ik. apply A'. cbn [map app] in Ik.
      destruct Ik as [<-|Ik]; apply in_or_app; [right; now left|].
      apply in_app_or in Ik as [Ik|Ik]; [now left | right; now right].
Qed.

(** ** Runs that start from any state holding the workflow *)

Lemma ranked_ids_from depth self1 self2 :
  tasks self1 = dag_tasks ->
  compute_all_ranks depth self1 = inr self2 ->
  map id (Dict.values (tasks self2)) = Dict.keys dag_tasks.
Proof.
  intros D H.
  destruct (compute_all_ranks_post _ _ _ H) as (F & _).
  pose proof F as (_ & _ & _ & _ & K & T).
  rewrite D in K, T.
  destruct (frame_shape dag_tasks (tasks self2) K) as (rs & Hlen & Shape);
    [ cbn; repeat (constructor; [cbn; intuition discriminate|]); constructor
    | exact T | ].
  do 9 (destruct rs as [|? rs]; try discriminate Hlen).
  rewrite Shape. reflexivity.
Qed.

Lemma set_schedule_eta (a b : HEFTScheduler) :
  exec_costs a = exec_costs b -> comm_costs a = comm_costs b ->
  tasks a = tasks b -> node_availability a = node_availability b ->
  b = set_schedule a (schedule b).
Proof.
  destruct a, b; cbn; intros; subst; reflexivity.
Qed.

(** C4, as the code has it.  [run_heft] reads the cost tables, the node
    availability and the task table it finds, and nothing else.  Two runs
    that start from the same cost tables, the same node availability and
    the same DAG (as the runs of two newly constructed schedulers do) give
    every task the same [(node, start, end)], whatever depth each has
    available and whatever schedule entries and task fields an earlier run
    has left; they also leave the same task table and the same node
    availability, and return equal schedules when the schedules they
    started from are equal.  The node availability does matter: see
    [second_run_differs]. *)
Theorem run_heft_determined_by_costs_and_availability
  d1 d2 s1 s2 sched1 s1' sched2 s2' :
  exec_costs s1 = exec_costs s2 ->
  comm_costs s1 = comm_costs s2 ->
  node_availability s1 = node_availability s2 ->
  tasks (define_dag s1) = dag_tasks ->
  tasks (define_dag s2) = dag_tasks ->
  run_heft d1 s1 = inr (sched1, s1') ->
  run_heft d2 s2 = inr (sched2, s2') ->
  (forall t, In t (Dict.keys dag_tasks) ->
     Dict.get sched1 t = Dict.get sched2 t) /\
  tasks s1' = tasks s2' /\
  node_availability s1' = node_availability s2' /\
  (schedule s1 = schedule s2 -> sched1 = sched2).
Proof.
  intros E C N T1 T2 H1 H2.
  apply (run_heft_le _ (Nat.max d1 d2)) in H1; [|apply Nat.le_max_l].
  apply (run_heft_le _ (Nat.max d1 d2)) in H2; [|apply Nat.le_max_r].
  set (d := Nat.max d1 d2) in *.
  assert (B : define_dag s2 = set_schedule (define_dag s1) (schedule s2)).
  { rewrite <- (define_dag_schedule s2). apply set_schedule_eta.
    - now rewrite !define_dag_exec_costs.
    - now rewrite !define_dag_comm_costs.
    - congruence.
    - now rewrite !define_dag_node_availability. }
  unfold run_heft in H1, H2.
  rewrite B, compute_all_ranks_set_schedule in H2.
  destruct (compute_all_ranks d (define_dag s1)) as [e|self2] eqn:R;
    [discriminate H1|].
  cbn [bind] in H1, H2.
  change (tasks (set_schedule self2 (schedule s2))) with (tasks self2) in H2.
  set (ts := sorted_desc (Dict.values (tasks self2))) in *.
  destruct (schedule_tasks ts self2) as [e|x1] eqn:S1; [discriminate H1|].
  destruct (schedule_tasks ts (set_schedule self2 (schedule s2)))
    as [e|x2] eqn:S2; [discriminate H2|].
  cbn [bind ret] in H1, H2.
  unfold ret in H1, H2. injection H1 as <- <-. injection H2 as <- <-.
  destruct (schedule_tasks_set_schedule ts self2 (schedule s2) [] x2)
    as (s' & Hs' & T & A & G); [intros ? [] | exact S2 |].
  rewrite S1 in Hs'. injection Hs' as <-.
  split; [|split; [congruence|split; [congruence|]]].
  - intros t I. symmetry. apply G. apply in_or_app. left.
    unfold ts.
    eapply Permutation_in;
      [apply Permutation_map; symmetry; apply sorted_desc_perm|].
    now rewrite (ranked_ids_from _ _ _ T1 R).
  - intros Es. assert (Eq : set_schedule self2 (schedule s2) = self2).
    { destruct (compute_all_ranks_post _ _ _ R) as ((_ & _ & Sc & _) & _).
      rewrite define_dag_schedule in Sc. rewrite <- Es, <- Sc.
      destruct self2; reflexivity. }
    rewrite Eq in S2. congruence.
Qed.

(** * Precedence from any starting state *)

Lemma ranked_order_from depth self1 self2 :
  exec_costs_nonneg self1 -> comm_costs_nonneg self1 ->
  tasks self1 = dag_tasks ->
  compute_all_ranks depth self1 = inr self2 ->
  sorted_desc (Dict.values (tasks self2)) = Dict.values (tasks self2) /\
  map id (Dict.values (tasks self2)) = Dict.keys dag_tasks.
Proof.
  intros NE NC D H.
  destruct (compute_all_ranks_post _ _ _ H) as (F & _).
  pose proof F as (E & C & _ & _ & K & T).
  rewrite D in K, T.
  destruct (frame_shape dag_tasks (tasks self2) K) as (rs & Hlen & Shape);
    [ cbn; repeat (constructor; [cbn; intuition discriminate|]); constructor
    | exact T | ].
  do 9 (destruct rs as [|? rs]; try discriminate Hlen).
  unfold with_ranks in Shape; cbn in Shape.
  assert (NE2 : exec_costs_nonneg self2)
    by (unfold exec_costs_nonneg; rewrite E; exact NE).
  assert (NC2 : comm_costs_nonneg self2)
    by (unfold comm_costs_nonneg; rewrite C; exact NC).
  split; [|rewrite Shape; reflexivity].
  apply sorted_desc_non_increasing. rewrite Shape. cbn.
  pose proof (fun u tu v => rank_edge_ge depth _ self2 u tu v NE2 NC2 H) as Edge.
  pose proof (fun u tu v tv => rank_same depth _ self2 u tu v tv H) as Same.
  unfold task_rank in Edge. rewrite Shape in Edge, Same.
  repeat split.
  - refine (Edge "initialize" _ "health-check-1" eq_refl _); cbn; auto.
  - match goal with |- ?b <= ?a => assert (a = b) as -> end;
      [|apply Qle_refl].
    exact (Same "health-check-1" _ "health-check-2" _ eq_refl eq_refl
             eq_refl eq_refl).
  - match goal with |- ?b <= ?a => assert (a = b) as -> end;
      [|apply Qle_refl].
    exact (Same "health-check-2" _ "health-check-3" _ eq_refl eq_refl
             eq_refl eq_refl).
  - refine (Edge "health-check-3" _ "node-simulation" eq_refl _); cbn; auto.
  - refine (Edge "node-simulation" _ "interim-health-check" eq_refl _); cbn; auto.
  - refine (Edge "interim-health-check" _ "rack-simulation" eq_refl _); cbn; auto.
  - refine (Edge "rack-simulation" _ "final-health-check" eq_refl _); cbn; auto.
Qed.

(** Precedence along every edge of a completed run, whatever state the
    run started from. *)
Lemma run_heft_precedes_from self depth sched self3 u v :
  exec_costs_nonneg self -> comm_costs_nonneg self ->
  tasks (define_dag self) = dag_tasks ->
  run_heft depth self = inr (sched, self3) ->
  succ_edge self3 u v ->
  exists nu su eu nv sv ev comm,
    Dict.get sched u = Some (nu, su, eu) /\
    Dict.get sched v = Some (nv, sv, ev) /\
    get_comm_cost self3 nu nv = inr comm /\
    eu + comm <= sv.
Proof.
  intros NE NC D H (tu & Htu & Hv).
  unfold run_heft in H. inv_bind H. rename a into self2.
  inv_bind H. rename a into s3. inv_ret.
  set (self1 := define_dag self) in *.
  assert (NE1 : exec_costs_nonneg self1)
    by (unfold exec_costs_nonneg, self1; rewrite define_dag_exec_costs; exact NE).
  assert (NC1 : comm_costs_nonneg self1)
    by (unfold comm_costs_nonneg, self1; rewrite define_dag_comm_costs; exact NC).
  destruct (ranked_order_from _ _ _ NE1 NC1 D Hc) as [Sorted Ids].
  rewrite Sorted in Hc0.
  destruct (compute_all_ranks_post _ _ _ Hc) as (F & _).
  assert (I0 : sched_inv (preds_of self1) (succs_of self1) [] self2).
  { split; [|split; [intros ? [] | intros ? ? []]].
    intros k t Ht.
    destruct (ranking_frame_get_back _ _ _ _ F Ht) as (t0 & Ht0 & ->).
    unfold preds_of, succs_of. rewrite Ht0. split; reflexivity. }
  assert (T0 : topological (preds_of self1) [] (map id (Dict.values (tasks self2)))).
  { rewrite Ids. apply topological_b_sound.
    unfold preds_of. rewrite D. reflexivity. }
  pose proof (sched_loop _ _ _ _ _ _ I0 T0 Hc0) as (G & _ & PR).
  destruct (G _ _ Htu) as [_ Gs]. rewrite Gs in Hv.
  unfold succs_of in Hv.
  destruct (Dict.get (tasks self1) u) as [tu1|] eqn:Hu1; [|destruct Hv].
  assert (EC : edges_consistent (tasks self1) = true) by (rewrite D; reflexivity).
  destruct (edges_consistent_sound _ EC _ _ _ Hu1 Hv) as (tv & Htv & Hup).
  assert (Iv : In v (rev (map id (Dict.values (tasks self2))) ++ [])).
  { rewrite app_nil_r, <- in_rev, Ids. rewrite <- D.
    eapply get_In_keys; eassumption. }
  assert (Ip : In u (preds_of self1 v)) by (unfold preds_of; now rewrite Htv).
  destruct (PR _ _ Iv Ip) as [_ Pr]. exact Pr.
Qed.

(** C1, as the code has it.  After [run_heft] on a scheduler that holds the
    workflow DAG and whose costs are finite and non-negative, every edge
    [u -> v] of the DAG has both ends scheduled and
    [finish(u) + communicationCost(node(u), node(v))] is at most
    [start(v)]; this holds for a new scheduler and for one that has run
    before.  On a new scheduler the run does complete when the cost table
    prices both node classes for each of its task types and the stack
    allows six nested calls. *)
Theorem precedence_preserved self depth :
  exec_costs_nonneg self ->
  comm_costs_nonneg self ->
  costs_finite self ->
  tasks (define_dag self) = dag_tasks ->
  (forall ec cc,
     self = HEFTScheduler_init ec cc -> rows_complete self ->
     (6 <= depth)%nat ->
     exists out, run_heft depth self = inr out) /\
  forall sched self3 u v,
    run_heft depth self = inr (sched, self3) ->
    succ_edge self3 u v ->
    exists nu su eu nv sv ev comm,
      Dict.get sched u = Some (nu, su, eu) /\
      Dict.get sched v = Some (nv, sv, ev) /\
      get_comm_cost self3 nu nv = inr comm /\
      eu + comm <= sv.
Proof.
  intros NE NC _ D. split.
  - intros ec cc -> RC Hd. now apply run_heft_total.
  - intros sched self3 u v H SE.
    eapply run_heft_precedes_from; eassumption.
Qed.

(** * Further concrete runs *)

Lemma second_run_eq : run_heft 10 (snd default_run) = inr second_run.
Proof. vm_compute. reflexivity. Qed.

Lemma rerun_ranked_eq :
  compute_all_ranks 10 (define_dag (snd default_run)) = inr rerun_ranked.
Proof. vm_compute. reflexivity. Qed.

Lemma negative_node_run_eq :
  run_heft 10 (load_benchmark_data fresh_default (Some negative_node_feed))
  = inr negative_node_run.
Proof. vm_compute. reflexivity. Qed.

Lemma negative_init_ranked_eq :
  compute_all_ranks 10
    (define_dag (load_benchmark_data fresh_default (Some negative_init_feed)))
  = inr negative_init_ranked.
Proof. vm_compute. reflexivity. Qed.

(** ** C1: precedence in a second run, and its failure with a negative
    cost *)

Lemma precedence_preserved_witness :
  exists nu su eu nv sv ev comm,
    Dict.get (fst second_run) "rack-simulation" = Some (nu, su, eu) /\
    Dict.get (fst second_run) "final-health-check" = Some (nv, sv, ev) /\
    get_comm_cost (snd second_run) nu nv = inr comm /\
    eu + comm <= sv.
Proof.
  destruct (precedence_preserved (snd default_run) 10) as [_ P].
  - apply exec_costs_nonneg_b_sound. vm_compute. reflexivity.
  - apply comm_costs_nonneg_b_sound. vm_compute. reflexivity.
  - apply costs_finite_b_sound. vm_compute. reflexivity.
  - vm_compute. reflexivity.
  - apply (P (fst second_run) (snd second_run)
             "rack-simulation" "final-health-check").
    + vm_compute. reflexivity.
    + eexists. split; [vm_compute; reflexivity | simpl; auto].
Defined.

(** C1 as stated fails: nothing keeps a cost from being negative.  After
    the feed [negative_node_feed] is loaded the node simulation costs -5
    on a worker and -6 on a master, its rank falls below that of its
    successor [interim-health-check], and the successor is scheduled
    first, at time 0, while the node simulation ends at 31.1. *)
Lemma precedence_fails_with_negative_cost :
  exists sched self3 task nu su eu nv sv ev comm,
    run_heft 10 (load_benchmark_data fresh_default (Some negative_node_feed))
    = inr (sched, self3) /\
    Dict.get (tasks self3) "node-simulation" = Some task /\
    In "interim-health-check" (successors task) /\
    Dict.get sched "node-simulation" = Some (nu, su, eu) /\
    Dict.get sched "interim-health-check" = Some (nv, sv, ev) /\
    get_comm_cost self3 nu nv = inr comm /\
    sv < eu + comm.
Proof.
  exists (fst negative_node_run), (snd negative_node_run).
  eexists _, _, _, _, _, _, _, _.
  split; [exact negative_node_run_eq|].
  split; [vm_compute; reflexivity|].
  split; [cbn; auto|].
  split; [vm_compute; reflexivity|].
  split; [vm_compute; reflexivity|].
  split; [vm_compute; reflexivity|].
  vm_compute. reflexivity.
Qed.

(** ** C2: a registry with a cycle *)

Lemma cyclic_scheduler_ranking_ready :
  ranking_ready cyclic_scheduler /\ ranking_ready (define_dag cyclic_scheduler).
Proof.
  split; (split; [|exact rows_complete_fresh_default]);
    intros k t s Ht Is; apply get_In in Ht; vm_compute in Ht;
    repeat (destruct Ht as [Ht|Ht];
            [injection Ht as <- <-; cbn in Is;
             repeat (destruct Is as [<-|Is]; [eexists; reflexivity|]);
             destruct Is|]);
    destruct Ht.
Qed.

Lemma cyclic_graph_ranking_never_returns_witness :
  ((forall self', compute_all_ranks 1000 cyclic_scheduler <> inr self') /\
   compute_all_ranks 1000 cyclic_scheduler = inl RecursionError) /\
  ((forall out, run_heft 1000 cyclic_scheduler <> inr out) /\
   run_heft 1000 cyclic_scheduler = inl RecursionError).
Proof.
  destruct (cyclic_graph_ranking_never_returns 1000 cyclic_scheduler "A")
    as [H1 H2].
  destruct cyclic_scheduler_ranking_ready as [R1 R2].
  split.
  - destruct H1 as [A B]; [apply cyclic_scheduler_on_cycle; reflexivity|].
    split; [exact A | exact (B R1)].
  - destruct H2 as [A B]; [apply cyclic_scheduler_on_cycle; reflexivity|].
    split; [exact A | exact (B R2)].
Defined.

(** ** C4: a new scheduler, a used one, and a second run *)

Lemma run_heft_determined_by_costs_and_availability_witness :
  exists sched2 s2',
    run_heft 10 used_with_fresh_availability = inr (sched2, s2') /\
    (forall t, In t (Dict.keys dag_tasks) ->
       Dict.get (fst default_run) t = Dict.get sched2 t) /\
    tasks (snd default_run) = tasks s2' /\
    node_availability (snd default_run) = node_availability s2'.
Proof.
  destruct (run_heft 10 used_with_fresh_availability)
    as [e|[sched2 s2']] eqn:E; [vm_compute in E; discriminate E|].
  destruct (run_heft_determined_by_costs_and_availability
              1000 10 fresh_default used_with_fresh_availability
              (fst default_run) (snd default_run) sched2 s2')
    as (H1 & H2 & H3 & _).
  - reflexivity.
  - reflexivity.
  - reflexivity.
  - reflexivity.
  - vm_compute. reflexivity.
  - vm_compute. reflexivity.
  - exact E.
  - exists sched2, s2'. auto.
Defined.

(** C4 as stated fails: [run_heft] does not reset the node availability.
    Called a second time on the same scheduler, with the same DAG, cost
    tables and fleet, it finds every node of the first run busy and moves
    [initialize] from [worker-w001] to [worker-w004]. *)
Lemma second_run_differs :
  exists sched1 s1 sched2 s2,
    run_heft 10 fresh_default = inr (sched1, s1) /\
    run_heft 10 s1 = inr (sched2, s2) /\
    exec_costs s1 = exec_costs fresh_default /\
    comm_costs s1 = comm_costs fresh_default /\
    tasks (define_dag s1) = tasks (define_dag fresh_default) /\
    Dict.get sched1 "initialize" = Some ("worker-w001", 0, 12) /\
    Dict.get sched2 "initialize" = Some ("worker-w004", 0, 12).
Proof.
  exists (fst default_run), (snd default_run),
         (fst second_run), (snd second_run).
  split; [exact default_run_pair|].
  split; [exact second_run_eq|].
  repeat split; vm_compute; reflexivity.
Qed.

(** ** C5: a negative cost lowers a node's availability *)

(** C5 as stated fails: nothing keeps a cost from being negative.  After
    the feed [negative_init_feed] is loaded, [initialize] costs -6 on a
    master; it is the fourth task of the run, and scheduling it takes the
    availability of [master-m001] from 0 to -7.5. *)
Lemma availability_lowered_by_negative_cost :
  exists done t rest s r s',
    sorted_desc (Dict.values (tasks negative_init_ranked))
    = (done ++ t :: rest)%list /\
    id t = "initialize" /\
    schedule_tasks done negative_init_ranked = inr s /\
    schedule_task s "initialize" = inr (r, s') /\
    Dict.get (node_availability s) "master-m001" = Some 0 /\
    Dict.get (node_availability s') "master-m001" = Some (-600 # 80) /\
    -600 # 80 < 0.
Proof.
  eexists (firstn 3 (sorted_desc (Dict.values (tasks negative_init_ranked)))),
    _, _, _, _, _.
  split; [vm_compute; reflexivity|].
  split; [reflexivity|].
  split; [vm_compute; reflexivity|].
  split; [vm_compute; reflexivity|].
  split; [vm_compute; reflexivity|].
  split; vm_compute; reflexivity.
Qed.

(** ** C10: an entry that ends before it starts, and stale entries *)

(** C10 as stated fails in two ways.  With a negative cost an entry can end
    before it starts: after [negative_init_feed] is loaded, [initialize] is
    stored as [(master-m001, 0, -7.5)].  And in a second run on the same
    scheduler [define_dag] has reset the task objects while the schedule
    still holds the entries of the first run: after the first
    [schedule_task] call of that run, [final-health-check] has an entry
    but its task has no node. *)
Lemma schedule_inconsistent_with_negative_cost_or_on_rerun :
  (exists done s r s' n st e,
     schedule_tasks done negative_init_ranked = inr s /\
     schedule_task s "initialize" = inr (r, s') /\
     Dict.get (schedule s') "initialize" = Some (n, st, e) /\
     e < st) /\
  (exists r s' entry task,
     schedule_task rerun_ranked "initialize" = inr (r, s') /\
     Dict.get (schedule s') "final-health-check" = Some entry /\
     Dict.get (tasks s') "final-health-check" = Some task /\
     scheduled_node task = None).
Proof.
  split.
  - eexists (firstn 3 (sorted_desc (Dict.values (tasks negative_init_ranked)))),
      _, _, _, _, _, _.
    split; [vm_compute; reflexivity|].
    split; [vm_compute; reflexivity|].
    split; vm_compute; reflexivity.
  - eexists _, _, _, _.
    split; [vm_compute; reflexivity|].
    split; [vm_compute; reflexivity|].
    split; vm_compute; reflexivity.
Qed.
